(** * Streaming attention kernels of xformers: a shallow embedding

    The development follows the C++ sources

    - [components/attention/csrc/cpu/attention.cpp]   (module [Cpu]),
    - [components/attention/csrc/cuda/mem_eff_attention/kernel_forward.h]
      (modules [Tiled], [Launch] and [Batched]),
    - [components/attention/csrc/matmul.cpp]          (module [Matmul]),
    - [components/attention/csrc/cpu/spmm.cpp]        (module [Spmm]),
    - [csrc/attention/hip_fmha/ck_fmha_batched_forward_bp16.cpp]
      (module [Hip]).

    Element type.  The kernels are templates over [scalar_t] (float or
    double).  The embedding keeps the IEEE-754 special values the code
    relies on ([-infinity] as the initial running max, NaN as the result
    of [inf - inf] and [0/0]) and takes the finite values to be real
    numbers: arithmetic on finite values is exact (no rounding, no
    overflow), and there is a single zero, which divides like [+0].

    Integers.  A machine integer is its value in [Z].  A conversion to a
    narrower or to an unsigned type wraps around ([to_signed],
    [to_uint32]); the result of signed arithmetic that the type cannot
    hold is undefined ([Spmm.int]), like an access outside an array. *)

From Stdlib Require Import Reals Lra Lia List Arith Bool ZArith.
From Stdlib Require Import Permutation.
From Stdlib Require String.
Import ListNotations.

Local Open Scope R_scope.

(** ** Extended scalars *)

Inductive scalar : Type :=
| Fin (r : R)
| PInf
| NInf
| NaN.


Definition sign_inf (positive : bool) : scalar :=
  if positive then PInf else NInf.

(** [r * (+-inf)]: the sign of the product, NaN when [r] is zero. *)
Definition mul_inf (r : R) (positive : bool) : scalar :=
  if Rlt_dec 0 r then sign_inf positive
  else if Rlt_dec r 0 then sign_inf (negb positive)
  else NaN.

Definition sneg (x : scalar) : scalar :=
  match x with
  | Fin r => Fin (- r)
  | PInf => NInf
  | NInf => PInf
  | NaN => NaN
  end.

Definition sadd (x y : scalar) : scalar :=
  match x, y with
  | Fin a, Fin b => Fin (a + b)
  | Fin _, PInf => PInf
  | Fin _, NInf => NInf
  | PInf, Fin _ => PInf
  | PInf, PInf => PInf
  | NInf, Fin _ => NInf
  | NInf, NInf => NInf
  | _, _ => NaN
  end.

Definition ssub (x y : scalar) : scalar := sadd x (sneg y).

Definition smul (x y : scalar) : scalar :=
  match x, y with
  | Fin a, Fin b => Fin (a * b)
  | Fin a, PInf => mul_inf a true
  | Fin a, NInf => mul_inf a false
  | PInf, Fin b => mul_inf b true
  | NInf, Fin b => mul_inf b false
  | PInf, PInf => PInf
  | NInf, NInf => PInf
  | PInf, NInf => NInf
  | NInf, PInf => NInf
  | _, _ => NaN
  end.

Definition sdiv (x y : scalar) : scalar :=
  match x, y with
  | Fin a, Fin b =>
      if Req_dec_T b 0 then mul_inf a true else Fin (a / b)
  | Fin _, PInf => Fin 0
  | Fin _, NInf => Fin 0
  | PInf, Fin b => if Rlt_dec b 0 then NInf else PInf
  | NInf, Fin b => if Rlt_dec b 0 then PInf else NInf
  | _, _ => NaN
  end.

(** [std::exp]. *)
Definition sexp (x : scalar) : scalar :=
  match x with
  | Fin r => Fin (exp r)
  | PInf => PInf
  | NInf => Fin 0
  | NaN => NaN
  end.

(** [x > y]; every comparison with NaN is false. *)
Definition sgt (x y : scalar) : bool :=
  match x, y with
  | Fin a, Fin b => if Rgt_dec a b then true else false
  | Fin _, NInf => true
  | PInf, Fin _ => true
  | PInf, NInf => true
  | _, _ => false
  end.

(** [x <= 0]. *)
Definition sle0 (x : scalar) : Prop :=
  match x with
  | Fin r => r <= 0
  | NInf => True
  | _ => False
  end.

(** ** Loops and memory reads *)

Notation "x <- e ;; k" :=
  (match e with Some x => k | None => None end)
    (at level 61, e at next level, right associativity).

(** [for (k = lo; k < lo + n; k++) s = body(k, s)]; [None] is a read
    outside the allocation, undefined behaviour in the source. *)
Fixpoint for_loop {S : Type} (body : nat -> S -> option S)
         (lo n : nat) (s : S) : option S :=
  match n with
  | O => Some s
  | Datatypes.S n' =>
      match body lo s with
      | Some s' => for_loop body (Datatypes.S lo) n' s'
      | None => None
      end
  end.

(** A pointer into a buffer is the memory from that address on. *)
Definition ptr := list scalar.

Definition load (p : ptr) (k : nat) : option scalar := nth_error p k.

(** [p[k] = v]. *)
Fixpoint store (p : list scalar) (k : nat) (v : scalar) : list scalar :=
  match p, k with
  | [], _ => []
  | _ :: t, O => v :: t
  | h :: t, Datatypes.S k' => h :: store t k' v
  end.

(** The results of [f lo], ..., [f (lo + n - 1)], if all are defined. *)
Fixpoint collect {A : Type} (f : nat -> option A) (lo n : nat)
  : option (list A) :=
  match n with
  | O => Some []
  | Datatypes.S n' =>
      x <- f lo ;; xs <- collect f (Datatypes.S lo) n' ;; Some (x :: xs)
  end.

(** [f] applied to the elements of two lists side by side. *)
Fixpoint zip_with {A B C : Type} (f : A -> B -> C) (l : list A) (l' : list B)
  : list C :=
  match l, l' with
  | a :: t, b :: t' => f a b :: zip_with f t t'
  | _, _ => []
  end.

(** ** Machine integers *)

(** Conversion to a signed type of [bits] bits. *)
Definition to_signed (bits : Z) (z : Z) : Z :=
  ((z + 2 ^ (bits - 1)) mod 2 ^ bits - 2 ^ (bits - 1))%Z.

Definition to_int8 : Z -> Z := to_signed 8.
Definition to_int16 : Z -> Z := to_signed 16.
Definition to_int32 : Z -> Z := to_signed 32.

(** Arithmetic on [unsigned int], the type of [threadIdx], [blockIdx] and
    [blockDim]. *)
Definition to_uint32 (z : Z) : Z := (z mod 2 ^ 32)%Z.

(** ** Tensors as the operators receive them *)

Inductive ScalarType : Type :=
| Float | Double | Half | BFloat16 | Int | Long | Bool.

Definition ScalarType_eqb (a b : ScalarType) : bool :=
  match a, b with
  | Float, Float | Double, Double | Half, Half | BFloat16, BFloat16
  | Int, Int | Long, Long | Bool, Bool => true
  | _, _ => false
  end.

(** An [at::Tensor]: its sizes, whether it is contiguous (row-major), its
    element type and its storage in row-major order. *)
Record Tensor : Type := mkTensor {
  sizes : list nat;
  contiguous : bool;
  scalar_type : ScalarType;
  storage : list scalar
}.

Definition dim (t : Tensor) : nat := length (sizes t).

(** [t.size(d)], only called once [dim] is known to exceed [d]. *)
Definition size (t : Tensor) (d : nat) : nat := nth d (sizes t) O.

(** [at::TensorAccessor<scalar_t, 3>] over a contiguous tensor: strides
    are [(size1 * size2, size2, 1)]. *)
Record TensorAccessor3 : Type := mkAccessor {
  data : list scalar;
  size0 : nat;
  size1 : nat;
  size2 : nat
}.

(** [t[i][j].data()]. *)
Definition row_ptr (t : TensorAccessor3) (i j : nat) : ptr :=
  skipn (i * (size1 t * size2 t) + j * size2 t) (data t).

(** * cpu/attention.cpp *)

Module Cpu.

(** The running statistics of one query row.  [exp_log] is a ghost field:
    the arguments [std::exp] has been called with, oldest first. *)
Record row_state : Type := mkRow {
  buf : list scalar;
  s_prime : scalar;
  m_prime : scalar;
  exp_log : list scalar
}.

(** [fill_zero<scalar_t>(buf, K)] on the thread's scratch row, which holds
    [K] elements. *)
Definition fill_zero (K : nat) : list scalar := repeat (Fin 0) K.

(** Lines 48-51: [si = 0; for k < K: si += aar[k] * bar[k]]. *)
Definition dot (K : nat) (aar bar : ptr) : option scalar :=
  for_loop (fun k si =>
              a <- load aar k ;;
              b <- load bar k ;;
              Some (sadd si (smul a b)))
           O K (Fin 0).

(** Lines 58-60: [for k < K: buf[k] = buf[k] * m_delta + vi[k] * s_delta]. *)
Definition accumulate (K : nat) (vi : ptr) (m_delta s_delta : scalar)
           (buf : list scalar) : option (list scalar) :=
  for_loop (fun k buf =>
              b <- load buf k ;;
              v <- load vi k ;;
              Some (store buf k (sadd (smul b m_delta) (smul v s_delta))))
           O K buf.

(** Lines 47-63: the body of the loop over the keys [l], given the score
    [si] of lines 48-51. *)
Definition fold_key (K : nat) (si : scalar) (vi : ptr) (st : row_state)
  : option row_state :=
  let m_i := if sgt si (m_prime st) then si else m_prime st in
  let m_delta := sexp (ssub (m_prime st) m_i) in
  let s_delta := sexp (ssub si m_i) in
  buf' <- accumulate K vi m_delta s_delta (buf st) ;;
  Some {| buf := buf';
          s_prime := sadd (smul (s_prime st) m_delta) s_delta;
          m_prime := m_i;
          exp_log := exp_log st ++ [ssub (m_prime st) m_i; ssub si m_i] |}.

Definition key_body (K : nat) (aar : ptr) (key value : TensorAccessor3)
           (i l : nat) (st : row_state) : option row_state :=
  let bar := row_ptr key i l in
  si <- dot K aar bar ;;
  let vi := row_ptr value i l in
  fold_key K si vi st.

Definition row_init (K : nat) : row_state :=
  {| buf := fill_zero K; s_prime := Fin 0; m_prime := NInf; exp_log := [] |}.

(** Lines 46-64: the statistics of query row [(i, j)] once the loop over
    the [N] keys has ended. *)
Definition key_loop (K N : nat) (query key value : TensorAccessor3)
           (i j : nat) : option row_state :=
  for_loop (key_body K (row_ptr query i j) key value i) O N (row_init K).

(** Lines 65-68: [oo[k] = buf[k] / s_prime], the elements of the output
    row in the order they are written. *)
Definition write_row (K : nat) (st : row_state) : option (list scalar) :=
  for_loop (fun k oo =>
              b <- load (buf st) k ;;
              Some (oo ++ [sdiv b (s_prime st)]))
           O K [].

(** Lines 42-68: one query row, from [fill_zero] to the written row. *)
Definition row_kernel (K N : nat) (query key value : TensorAccessor3)
           (i j : nat) : option (list scalar * row_state) :=
  st <- key_loop K N query key value i j ;;
  oo <- write_row K st ;;
  Some (oo, st).

(** [attention_kernel]: the output has sizes [(B, M, K)], every row is
    written once, and the rows are independent, so the storage of the
    output is the written rows in row-major order.  [at::parallel_for]
    covers the batch range [0, B) with disjoint chunks; the chunks run
    here in ascending order. *)
Definition attention_kernel (query key value : TensorAccessor3)
  : option (list scalar) :=
  let K := size2 query in
  let B := size0 query in
  let M := size1 query in
  let N := size1 key in
  for_loop (fun i out =>
              for_loop (fun j out =>
                          r <- row_kernel K N query key value i j ;;
                          Some (out ++ fst r))
                       O M out)
           O B [].

(** What the host function does that a caller can observe besides the
    result: allocations, and the launch of the kernel that writes the
    output. *)
Inductive event : Type :=
| Alloc (shape : list nat) (ty : ScalarType)
| Launch.

Inductive error : Type :=
| CheckFailed          (* a TORCH_CHECK of the function itself *)
| NotImplemented       (* AT_DISPATCH_FLOATING_TYPES: no such element type *)
| AccessorMismatch     (* Tensor::accessor<T, N>: rank or element type *)
| OutOfBounds.         (* the kernel read outside an input *)

Inductive result : Type :=
| Returned (res : Tensor)
| Raised (e : error).

(** [t.accessor<scalar_t, 3>()] checks the rank and the element type. *)
Definition accessor (scalar_t : ScalarType) (t : Tensor)
  : option TensorAccessor3 :=
  if (dim t =? 3)%nat && ScalarType_eqb (scalar_type t) scalar_t
  then Some (mkAccessor (storage t) (size t 0) (size t 1) (size t 2))
  else None.

(** [attention(query, key, value)], lines 74-127.  [num_threads] is
    [at::get_num_threads()]. *)
Definition attention (num_threads : nat) (query key value : Tensor)
  : list event * result :=
  if negb (dim query =? dim key)%nat then ([], Raised CheckFailed)
  else if negb (dim query =? 3)%nat then ([], Raised CheckFailed)
  else if negb (size query 2 =? size key 2)%nat then ([], Raised CheckFailed)
  else if negb (size query 0 =? size key 0)%nat then ([], Raised CheckFailed)
  else if negb (contiguous query) then ([], Raised CheckFailed)
  else if negb (contiguous key) then ([], Raised CheckFailed)
  else if negb (contiguous value) then ([], Raised CheckFailed)
  else
    let B := size query 0 in
    let M := size query 1 in
    let K := size query 2 in
    let trace := [Alloc [B; M; K] (scalar_type query);
                  Alloc [num_threads; 1%nat; K] (scalar_type query)] in
    match scalar_type query with
    | Float | Double =>
        let scalar_t := scalar_type query in
        match accessor scalar_t query, accessor scalar_t key,
              accessor scalar_t value with
        | Some q, Some k, Some v =>
            match attention_kernel q k v with
            | Some out =>
                (trace ++ [Launch],
                 Returned (mkTensor [B; M; K] true scalar_t out))
            | None => (trace ++ [Launch], Raised OutOfBounds)
            end
        | _, _, _ => (trace, Raised AccessorMismatch)
        end
    | _ => (trace, Raised NotImplemented)
    end.

End Cpu.

(** * The online-softmax accumulator, as the specification words it *)

Module Accumulator.

(** [max(a, b)], NaN-oblivious like the comparison it is made of. *)
Definition smax (a b : scalar) : scalar := if sgt b a then b else a.

Definition ssum (l : list scalar) : scalar := fold_left sadd l (Fin 0).

Definition vscale (c : scalar) (v : list scalar) : list scalar :=
  map (fun x => smul x c) v.

Definition vadd (u v : list scalar) : list scalar := zip_with sadd u v.

(** Running statistics of one query row: max [m], normalizing sum [s],
    weighted accumulation [acc] over the [K_v] value features. *)
Record stats : Type := mkStats {
  m : scalar;
  s : scalar;
  acc : list scalar
}.

Definition init (K_v : nat) : stats :=
  {| m := NInf; s := Fin 0; acc := repeat (Fin 0) K_v |}.

(** [Σ_j weight_j * value_rows[j]], a vector of [K_v] features. *)
Definition weighted_rows (K_v : nat) (weights : list scalar)
           (value_rows : list (list scalar)) : list scalar :=
  fold_left vadd (zip_with vscale weights value_rows) (repeat (Fin 0) K_v).

(** Follows the specification's words (section 4.1, operation
    [fold_block(raw_scores, value_rows)]). *)
Definition fold_block (K_v : nat) (st : stats) (raw_scores : list scalar)
           (value_rows : list (list scalar)) : stats :=
  let m_i := smax (m st) (fold_left smax raw_scores NInf) in
  let correction := sexp (ssub (m st) m_i) in
  let weights := map (fun r => sexp (ssub r m_i)) raw_scores in
  let s_i := sadd (smul (s st) correction) (ssum weights) in
  let acc_i := vadd (vscale correction (acc st))
                    (weighted_rows K_v weights value_rows) in
  {| m := m_i; s := s_i; acc := acc_i |}.

(** Finalization: [output_row = acc / s]. *)
Definition finalize (st : stats) : list scalar :=
  map (fun a => sdiv a (s st)) (acc st).

End Accumulator.

(** * cuda/mem_eff_attention/kernel_forward.h *)

Module Tiled.

Import Accumulator.

Definition matrix : Type := list (list scalar).

(** The view a predicated tile iterator gives of a row-major buffer with
    leading dimension [ld]: [rows] rows from row [start] on, [cols]
    columns each.  The iterator only visits coordinates inside the
    extent. *)
Definition tile (p : ptr) (ld start rows cols : nat) : matrix :=
  map (fun r => firstn cols (skipn ((start + r) * ld) p)) (seq O rows).

Definition dotv (x y : list scalar) : scalar :=
  fold_left sadd (zip_with smul x y) (Fin 0).

(** MM0, the Dense Block Matrix Product [Q @ K.T]: operand B is the key
    tile read column-major. *)
Definition mma_qk (q_tile k_tile : matrix) : matrix :=
  map (fun q_row => map (fun k_row => dotv q_row k_row) k_tile) q_tile.

(** MM1, [attn @ V]: a row of the product is the sum of the value rows
    weighted by that row of [attn]. *)
Definition mma_pv_row (K_v : nat) (attn_row : list scalar) (v_tile : matrix)
  : list scalar :=
  weighted_rows K_v attn_row v_tile.

(** The fields of [Params] the forward pass of one batch element reads,
    the pointers as [advance_batches] leaves them.  The optional
    log-sum-exp output (lines 558-571) is left out. *)
Record Params : Type := mkParams {
  query_ptr : ptr;          (* [num_queries, head_dim] *)
  key_ptr : ptr;            (* [num_keys, head_dim] *)
  value_ptr : ptr;          (* [num_keys, head_dim_value] *)
  head_dim : nat;
  head_dim_value : nat;
  num_queries : nat;
  num_keys : nat
}.

(** What a thread block keeps for one query row of its block: [mi],
    [m_prime] and [s_prime] in shared memory, and the row of the output in
    global memory. *)
Record row_state : Type := mkRow {
  mi : scalar;
  m_prime : scalar;
  s_prime : scalar;
  output : list scalar
}.

(** What [ScalingCoefsUpdater::update] leaves for one row. *)
Record coefs : Type := mkCoefs {
  new_mi : scalar;
  new_m_prime : scalar;
  new_s_prime : scalar;
  attn : list scalar
}.

(** Modelled from the spec: [ScalingCoefsUpdater::update] of
    attention_scaling_coefs_updater.h, which is not among the sources.
    For one row it is the statistics half of [fold_block] (section 4.1) on
    the scaled scores, as the call site describes it ("Update mi from
    accum; also updates accum with accum[i] <- exp(accum[i] * scale -
    mi)").  It leaves the correction [exp(m_prime - mi)] in [m_prime],
    from which the epilogue is built (line 538) before line 553 restores
    [m_prime] from [mi]. *)
Definition update_row (scale : scalar) (accum_row : list scalar)
           (mi_r m_prime_r s_prime_r : scalar) : coefs :=
  let scaled := map (fun x => smul x scale) accum_row in
  let mi' := smax mi_r (fold_left smax scaled NInf) in
  let correction := sexp (ssub m_prime_r mi') in
  let weights := map (fun x => sexp (ssub x mi')) scaled in
  {| new_mi := mi';
     new_m_prime := correction;
     new_s_prime := sadd (smul s_prime_r correction) (ssum weights);
     attn := weights |}.

(** Modelled from the spec: the output operator
    [MemoryEfficientAttentionNormalize] of epilogue_rescale_output.h,
    which is not among the sources.  Lines 485-492 give
    [output <- alpha * accumulator + beta * source] with
    [alpha = 1 / s_prime] when [isLast] and [1] otherwise; [beta] rescales
    the previous output by the correction so that the passes add up to
    one pass (sections 4.1 and 4.3); the first pass reads no source. *)
Definition rescale_row (kIsFirst kIsLast : bool) (s_prime_r m_prime_r : scalar)
           (accum_row source_row : list scalar) : list scalar :=
  let alpha := if kIsLast then sdiv (Fin 1) s_prime_r else Fin 1 in
  let beta := smul alpha m_prime_r in
  if kIsFirst then map (fun a => smul alpha a) accum_row
  else zip_with (fun a c => sadd (smul alpha a) (smul beta c))
                accum_row source_row.

(** Lines 393-553 for one query row of the block: [accum_row] is its row
    of [Q @ K.T], [v_tile] the value rows of the key block. *)
Definition row_step (scale : scalar) (K_v : nat) (kIsFirst kIsLast : bool)
           (v_tile : matrix) (accum_row : list scalar) (row : row_state)
  : row_state :=
  (* lines 393-395: mi <- m_prime *)
  let mi0 := m_prime row in
  (* lines 409-424 *)
  let u := update_row scale accum_row mi0 (m_prime row) (s_prime row) in
  (* MATMUL: Attn . V *)
  let accum1 := mma_pv_row K_v (attn u) v_tile in
  (* lines 506-546: the epilogue, built from s_prime and m_prime *)
  let output1 :=
    rescale_row kIsFirst kIsLast (new_s_prime u) (new_m_prime u)
                accum1 (output row) in
  (* line 553: m_prime <- mi *)
  {| mi := new_mi u; m_prime := new_mi u; s_prime := new_s_prime u;
     output := output1 |}.

Section Kernel.

Variables kQueriesPerBlock kKeysPerBlock : nat.

(** Lines 311-556: one iteration of the loop over the key blocks, for the
    thread block whose queries start at [query_start].  The rows of the
    block do not interact, so each goes through the phases on its own. *)
Definition key_block_step (p : Params) (query_start : nat)
           (iter_key_start : nat) (st : list row_state) : list row_state :=
  let problem_size_0_m :=
    Nat.min kQueriesPerBlock (num_queries p - query_start) in
  let problem_size_0_n :=
    Nat.min kKeysPerBlock (num_keys p - iter_key_start) in
  let problem_size_0_k := head_dim p in
  let problem_size_1_n := head_dim_value p in
  let problem_size_1_k := problem_size_0_n in
  (* MATMUL: Q.K_t *)
  let accum :=
    mma_qk (tile (query_ptr p) (head_dim p) query_start
                 problem_size_0_m problem_size_0_k)
           (tile (key_ptr p) (head_dim p) iter_key_start
                 problem_size_0_n problem_size_0_k) in
  let scale := sdiv (Fin 1) (Fin (sqrt (INR (head_dim p)))) in
  let isLast := (num_keys p <=? iter_key_start + kKeysPerBlock)%nat in
  let kIsFirst := (iter_key_start =? 0)%nat in
  let v_tile := tile (value_ptr p) (head_dim_value p) iter_key_start
                     problem_size_1_k problem_size_1_n in
  zip_with (row_step scale problem_size_1_n kIsFirst isLast v_tile) accum st.

(** The values [iter_key_start] takes: [0, kKeysPerBlock, ...] while below
    [num_keys]. *)
Definition key_starts (num_keys : nat) : list nat :=
  map (fun t => t * kKeysPerBlock)%nat
      (seq O (Nat.div (num_keys + kKeysPerBlock - 1) kKeysPerBlock)).

(** The state of the rows of valid queries when the kernel starts
    (lines 305-308); [source] is what their rows of the output hold, the
    output being allocated uninitialized.  [mi] is not read before line
    394 sets it. *)
Definition block_init (source : matrix) : list row_state :=
  map (fun source_row =>
         {| mi := NInf; m_prime := NInf; s_prime := Fin 0;
            output := source_row |})
      source.

(** [attention_kernel(p)] for the thread block [blockIdx.y = block_y]:
    its rows of the output when it ends. *)
Definition attention_kernel (p : Params) (block_y : nat) (source : matrix)
  : matrix :=
  let query_start := (block_y * kQueriesPerBlock)%nat in
  map output
      (fold_left (fun st iter_key_start =>
                    key_block_step p query_start iter_key_start st)
                 (key_starts (num_keys p)) (block_init source)).

End Kernel.

End Tiled.

(** * matmul.cpp *)

Module Matmul.

(** A tensor of any rank: an element, or a list of tensors along the
    first dimension. *)
#[local] Unset Elimination Schemes.
Inductive tensor (A : Type) : Type :=
| Elem (x : A)
| Dim (l : list (tensor A)).
#[local] Set Elimination Schemes.

Arguments Elem {A} x.
Arguments Dim {A} l.

(** The entry at a multi-index, if the index is valid. *)
Fixpoint get {A : Type} (t : tensor A) (index : list nat) : option A :=
  match index, t with
  | [], Elem x => Some x
  | i :: index', Dim l =>
      match nth_error l i with
      | Some u => get u index'
      | None => None
      end
  | _, _ => None
  end.

(** Two tensors of matching shape have the same valid indices. *)
Definition same_indices {A B : Type} (t : tensor A) (u : tensor B) : Prop :=
  forall index, get t index = None <-> get u index = None.

Fixpoint tmap {A B : Type} (f : A -> B) (t : tensor A) : tensor B :=
  match t with
  | Elem x => Elem (f x)
  | Dim l => Dim (map (tmap f) l)
  end.

(** [mask.logical_not()]. *)
Definition logical_not (mask : tensor bool) : tensor bool := tmap negb mask.

(** [t.masked_fill(mask, value)] for a mask of the shape of [t]
    (broadcasting a smaller mask is not modelled). *)
Fixpoint masked_fill (t : tensor scalar) (mask : tensor bool) (value : scalar)
  : tensor scalar :=
  match t, mask with
  | Elem x, Elem b => Elem (if b then value else x)
  | Dim l, Dim l' =>
      Dim ((fix along (l : list (tensor scalar)) (l' : list (tensor bool)) :=
              match l, l' with
              | u :: t, w :: t' => masked_fill u w value :: along t t'
              | _, _ => []
              end) l l')
  | _, _ => t
  end.

Section Kernel.

(** [at::matmul], the dense product of the host library. *)
Variable matmul : tensor scalar -> tensor scalar -> tensor scalar.

Definition matmul_with_mask_kernel (a b : tensor scalar) (mask : tensor bool)
  : tensor scalar :=
  let result := matmul a b in
  let result := masked_fill result (logical_not mask) NInf in
  result.

End Kernel.

(** The product of two matrices, the instance of [at::matmul] at rank 2:
    entry [(i, j)] is the dot product of row [i] of [a] with column [j]
    of [b]. *)
Definition of_matrix (rows : list (list scalar)) : tensor scalar :=
  Dim (map (fun row => Dim (map Elem row)) rows).

Definition to_matrix (t : tensor scalar) : list (list scalar) :=
  match t with
  | Dim l =>
      map (fun row =>
             match row with
             | Dim es => map (fun e => match e with Elem x => x | Dim _ => NaN end) es
             | Elem _ => []
             end) l
  | Elem _ => []
  end.

Definition matmul_2d (a b : tensor scalar) : tensor scalar :=
  let a_rows := to_matrix a in
  let b_rows := to_matrix b in
  of_matrix
    (map (fun a_row =>
            map (fun j =>
                   fold_left sadd
                     (zip_with smul a_row (map (fun row => nth j row (Fin 0)) b_rows))
                     (Fin 0))
                (seq O (length (hd [] b_rows))))
         a_rows).

End Matmul.

(** * cpu/spmm.cpp *)

Module Spmm.

(** A tensor of integers. *)
Record IntTensor : Type := mkIntTensor {
  int_sizes : list nat;
  int_scalar_type : ScalarType;
  int_storage : list Z
}.

(** The value of an expression of type [int]: a result that 32 bits
    cannot hold is a signed overflow, undefined behaviour. *)
Definition int (z : Z) : option Z :=
  if ((- 2 ^ 31 <=? z) && (z <? 2 ^ 31))%Z then Some z else None.

Definition int_mul (x y : Z) : option Z := int (x * y).
Definition int_add (x y : Z) : option Z := int (x + y).

(** [a * x * n + c * n + j], the form of the two indices of lines 28 and
    30, with every product and sum an [int]. *)
Definition offset (a x n c j : Z) : option Z :=
  ax <- int_mul a x ;;
  axn <- int_mul ax n ;;
  cn <- int_mul c n ;;
  s <- int_add axn cn ;;
  int_add s j.

(** [p[z]] for a signed index. *)
Definition load_z {A : Type} (p : list A) (z : Z) : option A :=
  if (z <? 0)%Z then None else nth_error p (Z.to_nat z).

(** [p[z] = v] for a signed index. *)
Definition store_z {A : Type} (p : list A) (z : Z) (v : A)
  : option (list A) :=
  if (z <? 0)%Z || (Z.of_nat (length p) <=? z)%Z then None
  else Some (firstn (Z.to_nat z) p ++ v :: skipn (Datatypes.S (Z.to_nat z)) p).

(** Lines 24-29: the accumulator of output element [(b, i, j)].  The
    arrays of [int] hold 32-bit values, and [i < m], so neither [i + 1]
    nor [++l] overflows. *)
Definition row_times_column (k n nonzeros : Z) (values : ptr)
           (row_offsets column_indices : list Z) (dense_matrix : ptr)
           (b i j : Z) : option scalar :=
  lo <- load_z row_offsets i ;;
  hi <- load_z row_offsets (i + 1)%Z ;;
  for_loop (fun t accumulator =>
              let l := (lo + Z.of_nat t)%Z in
              column_index <- load_z column_indices l ;;
              b_nonzeros <- int_mul b nonzeros ;;
              value_index <- int_add b_nonzeros l ;;
              x <- load_z values value_index ;;
              dense_index <- offset b k n column_index j ;;
              y <- load_z dense_matrix dense_index ;;
              Some (sadd accumulator (smul x y)))
           O (Z.to_nat (hi - lo)) (Fin 0).

(** [LaunchSpmm], with its eleven parameters in the order of the source.
    An element of [output_matrix] is [None] until it is written. *)
Definition LaunchSpmm (m k n nonzeros : Z) (row_indices : list Z)
           (values : ptr) (row_offsets column_indices : list Z)
           (dense_matrix : ptr) (output_matrix : list (option scalar))
           (batch_size : Z) : option (list (option scalar)) :=
  for_loop (fun b output_matrix =>
    for_loop (fun i output_matrix =>
      for_loop (fun j output_matrix =>
                  accumulator <- row_times_column k n nonzeros values
                                   row_offsets column_indices dense_matrix
                                   (Z.of_nat b) (Z.of_nat i) (Z.of_nat j) ;;
                  output_index <- offset (Z.of_nat b) m n
                                         (Z.of_nat i) (Z.of_nat j) ;;
                  store_z output_matrix output_index (Some accumulator))
               O (Z.to_nat n) output_matrix)
             O (Z.to_nat m) output_matrix)
           O (Z.to_nat batch_size) output_matrix.

(** The elements of a buffer, if every one of them has been written. *)
Fixpoint written {A : Type} (p : list (option A)) : option (list A) :=
  match p with
  | [] => Some []
  | x :: t => v <- x ;; l <- written t ;; Some (v :: l)
  end.

Inductive result : Type :=
| Returned (output : Tensor)
| DimensionOutOfRange  (* size(d) on a tensor of rank <= d *)
| CheckFailed          (* the TORCH_CHECK of line 48 *)
| NegativeDimension    (* at::empty with a negative size *)
| WrongElementType     (* data_ptr<T>() on a tensor of another type *)
| Undefined            (* the launcher overflowed an int or left an array *)
| Uninitialized.       (* returned with elements the launcher did not write *)

(** [spmm_sputnik(b, row_indices, values, row_offsets, column_indices, m)].
    [size(d)] needs a tensor of rank above [d]; the sizes, 64-bit, are
    converted to [int]; [at::empty] takes [batch] and [n] as converted and
    [m] as passed, and refuses a negative size; [data_ptr<int>()] and
    [data_ptr<float>()] check the element type; the launcher takes [m]
    converted to [int]. *)
Definition spmm_sputnik (b : Tensor) (row_indices : IntTensor)
           (values : Tensor) (row_offsets column_indices : IntTensor)
           (m : Z) : result :=
  if (dim b <? 3)%nat || (length (int_sizes column_indices) <? 1)%nat
  then DimensionOutOfRange else
  let batch := to_int32 (Z.of_nat (size b 0)) in
  let k := to_int32 (Z.of_nat (size b 1)) in
  let n := to_int32 (Z.of_nat (size b 2)) in
  let nonzeros := to_int32 (Z.of_nat (nth O (int_sizes column_indices) O)) in
  if negb ((batch =? 1)%Z || (Z.rem nonzeros 4 =? 0)%Z) then CheckFailed
  else if (batch <? 0)%Z || (m <? 0)%Z || (n <? 0)%Z then NegativeDimension
  else if negb (ScalarType_eqb (int_scalar_type row_indices) Int
                && ScalarType_eqb (scalar_type values) Float
                && ScalarType_eqb (int_scalar_type row_offsets) Int
                && ScalarType_eqb (int_scalar_type column_indices) Int
                && ScalarType_eqb (scalar_type b) Float)
  then WrongElementType
  else
    let output := repeat None (Z.to_nat (batch * m * n)) in
    match LaunchSpmm (to_int32 m) k n nonzeros (int_storage row_indices)
                     (storage values) (int_storage row_offsets)
                     (int_storage column_indices) (storage b) output
                     batch with
    | Some output_matrix =>
        match written output_matrix with
        | Some elements =>
            Returned (mkTensor [Z.to_nat batch; Z.to_nat m; Z.to_nat n] true
                               (scalar_type b) elements)
        | None => Uninitialized
        end
    | None => Undefined
    end.

End Spmm.

(** * The textbook algorithm, over the reals *)

Module Textbook.

(** A key as one query row sees it: its raw score and its value row. *)
Definition item : Type := (R * list R)%type.

Fixpoint Rsum (l : list R) : R :=
  match l with
  | [] => 0
  | x :: t => x + Rsum t
  end.

(** The maximum of the scores (of a row with at least one key). *)
Definition row_max (items : list item) : R :=
  match items with
  | [] => 0
  | it :: t => fold_left Rmax (map fst t) (fst it)
  end.

Definition exps (mx : R) (items : list item) : list R :=
  map (fun it => exp (fst it - mx)) items.

(** Subtract the row max, exponentiate, sum, divide. *)
Definition softmax (items : list item) : list R :=
  let e := exps (row_max items) items in
  map (fun x => x / Rsum e) e.

(** Multiply by Value: feature [k] of the output row is the sum of the
    features [k] of the value rows, weighted by the softmax. *)
Definition attention_row (K_v : nat) (items : list item) : list R :=
  let p := softmax items in
  map (fun k => Rsum (zip_with (fun w it => w * nth k (snd it) 0) p items))
      (seq O K_v).

(** The sums the accumulator maintains, relative to a reference [mx]. *)
Definition sumexp (mx : R) (items : list item) : R := Rsum (exps mx items).

Definition accexp_at (k : nat) (mx : R) (items : list item) : R :=
  Rsum (map (fun it => exp (fst it - mx) * nth k (snd it) 0) items).

Definition accexp (K_v : nat) (mx : R) (items : list item) : list R :=
  map (fun k => accexp_at k mx items) (seq O K_v).

(** Row [(i, j)] of a row-major array of reals with sizes [(_, n1, n2)]. *)
Definition row_at (d : list R) (n1 n2 i j : nat) : list R :=
  firstn n2 (skipn (i * (n1 * n2) + j * n2) d).

(** [x . y], summed in ascending order of the index. *)
Definition dotR (x y : list R) : R :=
  fold_left Rplus (zip_with Rmult x y) 0.

(** The keys of batch [i] as query row [(i, j)] sees them, with the raw
    score [score q_row k_row]. *)
Definition items_of (score : list R -> list R -> R) (q k v : list R)
           (M N K K_v : nat) (i j : nat) : list item :=
  map (fun l => (score (row_at q M K i j) (row_at k N K i l),
                 row_at v N K_v i l))
      (seq O N).

(** [score(i, j) = (Query_i . Key_j) / sqrt(K)]. *)
Definition scaled_score (K : nat) (x y : list R) : R :=
  dotR x y / sqrt (INR K).

End Textbook.

(** * The invariant of the accumulator *)

Module Invariant.

Import Textbook.

(** After the keys [seen] have been folded in: [m] is the maximum of their
    scores, [s = Σ exp(score_k - m)] and [acc = Σ exp(score_k - m) *
    value_k], the sums ranging over [seen]; before the first key the
    statistics are the initial ones. *)
Definition online_inv (K_v : nat) (seen : list item)
           (m s : scalar) (acc : list scalar) : Prop :=
  match seen with
  | [] => m = NInf /\ s = Fin 0 /\ acc = repeat (Fin 0) K_v
  | _ :: _ =>
      m = Fin (row_max seen) /\
      s = Fin (sumexp (row_max seen) seen) /\
      acc = map Fin (accexp K_v (row_max seen) seen)
  end.

(** The running statistics the scalar kernel keeps for a row. *)
Definition stats_of (st : Cpu.row_state) : Accumulator.stats :=
  Accumulator.mkStats (Cpu.m_prime st) (Cpu.s_prime st) (Cpu.buf st).

(** A block of keys as [fold_block] receives it. *)
Definition raw_scores (block : list item) : list scalar :=
  map (fun it => Fin (fst it)) block.

Definition value_rows (block : list item) : list (list scalar) :=
  map (fun it => map Fin (snd it)) block.

(** A block holds at least one key, and its value rows have [K_v]
    features. *)
Definition well_formed_block (K_v : nat) (block : list item) : Prop :=
  block <> [] /\ Forall (fun it => length (snd it) = K_v) block.

(** A key that may be masked: its score is a real number, or [None] for
    the [-infinity] of a masked key. *)
Definition masked_item : Type := (option R * list R)%type.

Definition score_of (x : option R) : scalar :=
  match x with
  | Some r => Fin r
  | None => NInf
  end.

Definition masked_scores (block : list masked_item) : list scalar :=
  map (fun it => score_of (fst it)) block.

Definition masked_value_rows (block : list masked_item)
  : list (list scalar) :=
  map (fun it => map Fin (snd it)) block.

(** The keys of a block that are not masked. *)
Definition unmasked (block : list masked_item) : list item :=
  flat_map (fun it => match fst it with
                      | Some r => [(r, snd it)]
                      | None => []
                      end) block.

(** [exp(score - mx)] as a real number: 0 for a masked key. *)
Definition weight_of (mx : R) (x : option R) : R :=
  match x with
  | Some r => exp (r - mx)
  | None => 0
  end.

(** The invariant in the words of the specification, in the arithmetic of
    the accumulator: [m] is the maximum of the scores seen,
    [s = Σ_seen exp(score_k - m)] and
    [acc = Σ_seen exp(score_k - m) * value_k]. *)
Definition stated_inv (K_v : nat) (seen : list masked_item)
           (m s : scalar) (acc : list scalar) : Prop :=
  let weights := map (fun r => sexp (ssub r m)) (masked_scores seen) in
  m = fold_left Accumulator.smax (masked_scores seen) NInf /\
  s = Accumulator.ssum weights /\
  acc = Accumulator.weighted_rows K_v weights (masked_value_rows seen).

End Invariant.

(** * The concrete scenario of the specification *)

Module Scenario.

(** Query = [[1,0],[0,1]], Key = [[1,0],[0,1]], Value = [[1,2],[3,4]],
    one batch, two positions, two features. *)
Definition q : list R := [1; 0; 0; 1].
Definition k : list R := [1; 0; 0; 1].
Definition v : list R := [1; 2; 3; 4].

Definition query : TensorAccessor3 := mkAccessor (map Fin q) 1 2 2.
Definition key : TensorAccessor3 := mkAccessor (map Fin k) 1 2 2.
Definition value : TensorAccessor3 := mkAccessor (map Fin v) 1 2 2.

End Scenario.

(** * Inputs the properties are evaluated at *)

Module Inputs.

(** One query [[1]] and no key: sizes [(1, 1, 1)], [(1, 0, 1)],
    [(1, 0, 1)]. *)
Definition no_key_query : TensorAccessor3 := mkAccessor [Fin 1] 1 1 1.
Definition no_key_key : TensorAccessor3 := mkAccessor [] 1 0 1.
Definition no_key_value : TensorAccessor3 := mkAccessor [] 1 0 1.

(** One query [[1]], one key [[-inf]], one value [[1]]: the only raw
    score of the row is [1 * -inf = -inf]. *)
Definition masked_query : TensorAccessor3 := mkAccessor [Fin 1] 1 1 1.
Definition masked_key : TensorAccessor3 := mkAccessor [NInf] 1 1 1.
Definition masked_value : TensorAccessor3 := mkAccessor [Fin 1] 1 1 1.


(** Query and Key of sizes [(1, 1, 1)], Value of sizes [(1, 1, 2)]:
    [K = 1] and [K_v = 2]. *)
Definition wide_query : Tensor := mkTensor [1; 1; 1]%nat true Float [Fin 1].
Definition wide_key : Tensor := mkTensor [1; 1; 1]%nat true Float [Fin 1].
Definition wide_value : Tensor :=
  mkTensor [1; 1; 2]%nat true Float [Fin 1; Fin 2].

(** A Value of rank 2 next to a valid Query and Key. *)
Definition flat_value : Tensor := mkTensor [1; 1]%nat true Float [Fin 1].

(** Query [[2,0,0,0]] and Key [[1,0,0,0]], [K = 4]: the dot product is 2,
    the scaled score [2 / sqrt 4 = 1]. *)
Definition scale_q : list R := [2; 0; 0; 0].
Definition scale_k : list R := [1; 0; 0; 0].

Definition scale_v : list R := [1; 0; 0; 0].
Definition scale_query : TensorAccessor3 := mkAccessor (map Fin scale_q) 1 1 4.
Definition scale_key : TensorAccessor3 := mkAccessor (map Fin scale_k) 1 1 4.
Definition scale_value : TensorAccessor3 := mkAccessor (map Fin scale_v) 1 1 4.

(** The same query against two keys [[1,0,0,0]] and [[0,0,0,0]] with
    values [[1,0,0,0]] and [[0,0,0,0]]: dot products 2 and 0, scaled
    scores 1 and 0. *)
Definition two_key_k : list R := [1; 0; 0; 0; 0; 0; 0; 0].
Definition two_key_v : list R := [1; 0; 0; 0; 0; 0; 0; 0].
Definition two_key_query : TensorAccessor3 := mkAccessor (map Fin scale_q) 1 1 4.
Definition two_key_key : TensorAccessor3 := mkAccessor (map Fin two_key_k) 1 2 4.
Definition two_key_value : TensorAccessor3 :=
  mkAccessor (map Fin two_key_v) 1 2 4.
Definition two_key_params : Tiled.Params :=
  Tiled.mkParams (map Fin scale_q) (map Fin two_key_k) (map Fin two_key_v)
                 4 4 1 2.

(** The identity-like sparse matrix of the specification
    ([row_offsets = [0,1,2]], [column_indices = [0,1]], [values = [1,1]])
    and a dense 2 x 2 operand, with two different [row_indices]. *)
Definition sp_dense : Tensor :=
  mkTensor [1; 2; 2]%nat true Float [Fin 5; Fin 6; Fin 7; Fin 8].
Definition sp_values : Tensor :=
  mkTensor [1; 2]%nat true Float [Fin 1; Fin 1].
Definition sp_row_offsets : Spmm.IntTensor :=
  Spmm.mkIntTensor [3]%nat Int [0; 1; 2]%Z.
Definition sp_column_indices : Spmm.IntTensor :=
  Spmm.mkIntTensor [2]%nat Int [0; 1]%Z.
Definition sp_row_indices : Spmm.IntTensor :=
  Spmm.mkIntTensor [2]%nat Int [0; 1]%Z.
Definition sp_row_indices' : Spmm.IntTensor :=
  Spmm.mkIntTensor [2]%nat Int [1; 0]%Z.

End Inputs.

(** * The conditions on the inputs of the attention operator *)

Module Precondition.

(** What the function checks itself, before it allocates: Query and Key
    of rank 3 with the same feature dimension and batch count, and the
    three inputs contiguous. *)
Definition checked_first (query key value : Tensor) : bool :=
  (dim query =? 3)%nat && (dim key =? 3)%nat
  && (size query 2 =? size key 2)%nat
  && (size query 0 =? size key 0)%nat
  && contiguous query && contiguous key && contiguous value.

Definition supported (ty : ScalarType) : bool :=
  match ty with Float | Double => true | _ => false end.

(** What the dispatch and the accessors reject: a Value of rank other
    than 3, an element type other than float and double, inputs of
    different element types. *)
Definition checked_late (query key value : Tensor) : bool :=
  (dim value =? 3)%nat
  && supported (scalar_type query)
  && ScalarType_eqb (scalar_type key) (scalar_type query)
  && ScalarType_eqb (scalar_type value) (scalar_type query).

End Precondition.

(** * Well-formed accessors *)

Module Shape.

(** The storage of a contiguous tensor holds one element per index. *)
Definition well_formed (t : TensorAccessor3) : Prop :=
  length (data t) = (size0 t * size1 t * size2 t)%nat.

(** What the kernel takes for granted about its three inputs: Key has
    the batch count and the feature dimension of Query (the host function
    checks both), and Value has the sizes [(B, N, K)] (it checks
    neither). *)
Definition consistent (query key value : TensorAccessor3) : Prop :=
  well_formed query /\ well_formed key /\ well_formed value /\
  size0 key = size0 query /\ size2 key = size2 query /\
  size0 value = size0 query /\ size1 value = size1 key /\
  size2 value = size2 query.

End Shape.

(** * Sparse times dense, over the reals *)

Module Csr.

(** What [LaunchSpmm] takes for granted about the sparse operand, an
    [m x k] matrix in compressed-sparse-row form: [row_offsets] has
    [m + 1] entries, every row starts at an offset that is not negative
    and ends at most at [nonzeros], and every column index is a row of the
    dense operand. *)
Definition well_formed (m k nonzeros : nat)
           (row_offsets column_indices : list Z) : Prop :=
  length row_offsets = (m + 1)%nat /\
  length column_indices = nonzeros /\
  (forall i, (i < m)%nat ->
     (0 <= nth i row_offsets 0)%Z /\
     (nth (i + 1) row_offsets 0 <= Z.of_nat nonzeros)%Z) /\
  Forall (fun c => (0 <= c < Z.of_nat k)%Z) column_indices.

(** The sizes for which every index [LaunchSpmm] computes is an [int]:
    the five sizes, the number of elements of [values], of the dense
    operand and of the output are all below [2 ^ 31]. *)
Definition fits_int (m k n nonzeros batch_size : nat) : Prop :=
  (Z.of_nat m < 2 ^ 31 /\ Z.of_nat k < 2 ^ 31 /\ Z.of_nat n < 2 ^ 31 /\
   Z.of_nat nonzeros < 2 ^ 31 /\ Z.of_nat batch_size < 2 ^ 31 /\
   Z.of_nat (batch_size * nonzeros) < 2 ^ 31 /\
   Z.of_nat (batch_size * k * n) < 2 ^ 31 /\
   Z.of_nat (batch_size * m * n) < 2 ^ 31)%Z.

(** The term of the nonzero at position [l] for output column [j] of
    batch [b]: its value times the element of the dense operand in the
    row its column index names. *)
Definition term (k n nonzeros : nat) (values : list R)
           (column_indices : list Z) (dense_matrix : list R)
           (b j l : nat) : R :=
  nth (b * nonzeros + l) values 0 *
  nth (b * k * n + Z.to_nat (nth l column_indices 0%Z) * n + j)
      dense_matrix 0.

(** Element [(b, i, j)] of the product: the sum of the terms of the
    nonzeros of row [i], those at the positions from [row_offsets[i]] up
    to [row_offsets[i + 1]]. *)
Definition entry (k n nonzeros : nat) (values : list R)
           (row_offsets column_indices : list Z) (dense_matrix : list R)
           (b i j : nat) : R :=
  let lo := nth i row_offsets 0%Z in
  let hi := nth (i + 1) row_offsets 0%Z in
  Textbook.Rsum
    (map (term k n nonzeros values column_indices dense_matrix b j)
         (seq (Z.to_nat lo) (Z.to_nat (hi - lo)))).

(** Row [(b, i)] of the product, in the order [LaunchSpmm] writes it. *)
Definition product_row (k n nonzeros : nat) (values : list R)
           (row_offsets column_indices : list Z) (dense_matrix : list R)
           (b i : nat) : list scalar :=
  map (fun j => Fin (entry k n nonzeros values row_offsets column_indices
                           dense_matrix b i j))
      (seq O n).

End Csr.

(** * kernel_forward.h: launch configuration and indices *)

Module Launch.

(** [std::log]. *)
Definition slog (x : scalar) : scalar :=
  match x with
  | Fin r => if Rlt_dec 0 r then Fin (ln r)
             else if Rlt_dec r 0 then NaN else NInf
  | PInf => PInf
  | _ => NaN
  end.

Local Open Scope Z_scope.

(** [getWarpsPerSm<scalar_t, Arch>()], lines 41-48. *)
Definition getWarpsPerSm (scalar_t : ScalarType) (kMinComputeCapability : nat)
  : nat :=
  let is_half := negb (ScalarType_eqb scalar_t Float) in
  if (80 <=? kMinComputeCapability)%nat
  then if is_half then 16%nat else 12%nat
  else 12%nat.

Definition kAlignLSE : nat := 32.
Definition kWarpSize : nat := 32.

Section Kernel.

Variables kQueriesPerBlock kKeysPerBlock : nat.

(** Lines 72-79. *)
Definition kNumWarpsPerBlock : nat :=
  (kQueriesPerBlock * kKeysPerBlock / (32 * 32))%nat.

Definition kNumThreads : nat := (kWarpSize * kNumWarpsPerBlock)%nat.

Definition kMinBlocksPerSm (scalar_t : ScalarType)
           (kMinComputeCapability : nat) : nat :=
  (getWarpsPerSm scalar_t kMinComputeCapability / kNumWarpsPerBlock)%nat.

(** The static assertions of lines 70, 71 and 304: the kernel is only
    instantiated for block sizes that pass them. *)
Definition static_asserts : bool :=
  ((kQueriesPerBlock mod 32 =? 0) && (kKeysPerBlock mod 32 =? 0) &&
   (kQueriesPerBlock <? kNumWarpsPerBlock * kWarpSize))%nat.

(** [getThreadsGrid()], lines 116-118: [dim3(x, y, z)]. *)
Definition getThreadsGrid : nat * nat * nat :=
  (kWarpSize, kNumWarpsPerBlock, 1%nat).

(** Lines 574-585. *)
Definition lane_id (threadIdx_x : Z) : Z := to_int8 threadIdx_x.

Definition warp_id (threadIdx_y : Z) : Z := to_int8 threadIdx_y.

Definition thread_id (threadIdx_x threadIdx_y blockDim_x : Z) : Z :=
  to_int16 (to_uint32 (threadIdx_x + to_uint32 (threadIdx_y * blockDim_x))).

Definition query_start (blockIdx_y : Z) : Z :=
  to_int32 (blockIdx_y * Z.of_nat kQueriesPerBlock).

(** Line 313: the number of query rows of the block that exist. *)
Definition problem_size_0_m (num_queries blockIdx_y : Z) : Z :=
  Z.min (to_int32 (Z.of_nat kQueriesPerBlock))
        (to_int32 (num_queries - query_start blockIdx_y)).

(** Lines 311-316: the iterations of the loop over the key blocks, each
    with its [iter_key_start] and its [problem_size_0_n], in the order
    they run.  [fuel] bounds the number of iterations. *)
Fixpoint key_iterations (fuel : nat) (num_keys : Z) (iter_key_start : Z)
  : list (Z * Z) :=
  match fuel with
  | O => []
  | S fuel =>
      if iter_key_start <? num_keys
      then (iter_key_start,
            Z.min (to_int32 (Z.of_nat kKeysPerBlock))
                  (to_int32 (num_keys - iter_key_start)))
           :: key_iterations fuel num_keys
                (to_int32 (iter_key_start + Z.of_nat kKeysPerBlock))
      else []
  end.

Section Grid.

(** [ceil_div] of gemm_kernel_utils.h, which is not among the sources. *)
Variable ceil_div : Z -> Z -> Z.

(** [getBlocksGrid()], lines 112-115. *)
Definition getBlocksGrid (num_queries num_batches : Z) : Z * Z * Z :=
  (1, ceil_div num_queries (to_int32 (Z.of_nat kQueriesPerBlock)), num_batches).

(** [lse_dim] of [advance_batches], line 101. *)
Definition lse_dim (num_queries : Z) : Z :=
  to_int32 (ceil_div (to_int32 num_queries) (Z.of_nat kAlignLSE)
            * Z.of_nat kAlignLSE).

End Grid.

(** Lines 558-571 for one thread of the block [blockIdx_y], given a
    log-sum-exp buffer: the index it writes and the value it writes there,
    if it writes at all.  [m_prime] and [s_prime] are the shared arrays of
    the block; [thread] is its [thread_id()]. *)
Definition logsumexp_write (num_queries : Z) (m_prime s_prime : Z -> scalar)
           (blockIdx_y : Z) (thread : Z) : option (Z * scalar) :=
  if thread <? Z.of_nat kQueriesPerBlock then
    if to_int32 (query_start blockIdx_y + thread) <? num_queries
    then Some (to_int32 (query_start blockIdx_y + thread),
               sadd (m_prime thread) (slog (s_prime thread)))
    else if thread <? Z.of_nat kAlignLSE
         then Some (to_int32 (query_start blockIdx_y + thread), PInf)
         else None
  else None.

End Kernel.

(** Lines 627-663: what [INSTANTIATE_ATTENTION_KERNEL_FORWARD_SM<ARCH>]
    expands to in a compilation pass, [cuda_arch] being [__CUDA_ARCH__]
    when the pass defines it. *)
Inductive instantiation : Type :=
| Kernel          (* advance_batches, then attention_kernel *)
| FatalStub       (* prints "FATAL: this function is for sm.., but was
                     built for sm.." *)
| CompileError.   (* #error "Need cuda arch at least 5.0" *)

Definition instantiate (cuda_arch : option nat) (ARCH : nat) : instantiation :=
  match cuda_arch with
  | None => FatalStub
  | Some a =>
      if (a <? 500)%nat then CompileError
      else if (a <? 700)%nat then (if (ARCH =? 50)%nat then Kernel else FatalStub)
      else if (a <? 750)%nat then (if (ARCH =? 70)%nat then Kernel else FatalStub)
      else if (a <? 800)%nat then (if (ARCH =? 75)%nat then Kernel else FatalStub)
      else (if (ARCH =? 80)%nat then Kernel else FatalStub)
  end.

(** The generations the macros exist for. *)
Definition generations : list nat := [50; 70; 75; 80]%nat.

End Launch.

(** * kernel_forward.h: one thread block of a batched launch *)

Module Batched.

Import Launch.

(** [ptr += offset] on a pointer into a buffer; a pointer cannot be moved
    before the start of its buffer. *)
Definition advance_ptr (p : ptr) (offset : Z) : option ptr :=
  if (offset <? 0)%Z then None else Some (skipn (Z.to_nat offset) p).

(** [a * b * c] on [int32_t]. *)
Definition mul3 (a b c : Z) : Z := to_int32 (to_int32 (a * b) * c).

(** [Params] with its five pointers: the three inputs, and the positions
    of [output_ptr] and of [logsumexp_ptr] (which may be null) in the
    buffers the kernel writes. *)
Record Pointers : Type := mkPointers {
  inputs : Tiled.Params;
  output_ptr : Z;
  logsumexp_ptr : option Z
}.

Section Grid.

(** [ceil_div] of gemm_kernel_utils.h, which is not among the sources. *)
Variable ceil_div : Z -> Z -> Z.

(** [Params::advance_batches(batch_id)], lines 100-110. *)
Definition advance_batches (p : Pointers) (batch_id : Z) : option Pointers :=
  let head_dim := Z.of_nat (Tiled.head_dim (inputs p)) in
  let head_dim_value := Z.of_nat (Tiled.head_dim_value (inputs p)) in
  let num_queries := Z.of_nat (Tiled.num_queries (inputs p)) in
  let num_keys := Z.of_nat (Tiled.num_keys (inputs p)) in
  let lse_dim := Launch.lse_dim ceil_div num_queries in
  query_ptr <- advance_ptr (Tiled.query_ptr (inputs p))
                 (mul3 batch_id head_dim num_queries) ;;
  key_ptr <- advance_ptr (Tiled.key_ptr (inputs p))
               (mul3 batch_id head_dim num_keys) ;;
  value_ptr <- advance_ptr (Tiled.value_ptr (inputs p))
                 (mul3 batch_id head_dim_value num_keys) ;;
  Some {| inputs :=
            Tiled.mkParams query_ptr key_ptr value_ptr
                           (Tiled.head_dim (inputs p))
                           (Tiled.head_dim_value (inputs p))
                           (Tiled.num_queries (inputs p))
                           (Tiled.num_keys (inputs p));
          output_ptr :=
            (output_ptr p + mul3 batch_id head_dim_value num_queries)%Z;
          logsumexp_ptr :=
            match logsumexp_ptr p with
            | Some l => Some (l + to_int32 (batch_id * lse_dim))%Z
            | None => None
            end |}.


End Grid.

End Batched.

(** * ck_fmha_batched_forward_bp16.cpp *)

Module Hip.

Import String.
Local Open Scope string_scope.

(** The fields of [BatchedForwardParams] the dispatcher reads. *)
Record BatchedForwardParams : Type := mkBatchedForwardParams {
  has_attn_bias : bool;
  custom_mask_type : Z
}.

(** One call of [run_batched_forward_masktype_attnbias_dispatched<
    ck::bhalf_t, mask_type, has_bias>(param, stream)], or the exception. *)
Inductive outcome : Type :=
| Ran (mask_type : Z) (has_bias : bool)
| Threw (what : string).

(** The message of the [std::runtime_error] of line 60. *)
Definition invalid_mask_type : string := "Invalid custom_mask_type value".

(** [batched_forward_bp16(param, stream)], lines 43-62.  [BOOL_SWITCH_1]
    runs its body with [HAS_ATTN_BIAS] bound to the constant its
    condition equals. *)
Definition batched_forward_bp16 (param : BatchedForwardParams) : outcome :=
  let body (HAS_ATTN_BIAS : bool) :=
    if (custom_mask_type param =? 0)%Z then Ran 0 HAS_ATTN_BIAS
    else if (custom_mask_type param =? 1)%Z then Ran 1 HAS_ATTN_BIAS
    else if (custom_mask_type param =? 2)%Z then Ran 2 HAS_ATTN_BIAS
    else Threw invalid_mask_type in
  if has_attn_bias param then body true else body false.

End Hip.

(** * Properties *)

(** Decisions on concrete reals. *)
Ltac rdec :=
  repeat match goal with
         | |- context [Rlt_dec ?a ?b] =>
             destruct (Rlt_dec a b); try (exfalso; lra)
         | |- context [Rgt_dec ?a ?b] =>
             destruct (Rgt_dec a b); try (exfalso; lra)
         | |- context [Rle_dec ?a ?b] =>
             destruct (Rle_dec a b); try (exfalso; lra)
         | |- context [Req_dec_T ?a ?b] =>
             destruct (Req_dec_T a b); try (exfalso; lra)
         end.

(** ** Loops *)

Lemma for_loop_snoc {S : Type} (body : nat -> S -> option S) n lo s :
  for_loop body lo (n + 1) s =
  (s' <- for_loop body lo n s ;; body (lo + n)%nat s').
Proof.
  revert lo s. induction n as [|n IH]; intros lo s; simpl.
  - rewrite Nat.add_0_r. destruct (body lo s); reflexivity.
  - destruct (body lo s) as [s1|]; [|reflexivity].
    rewrite IH. replace (Datatypes.S lo + n)%nat with (lo + Datatypes.S n)%nat by lia.
    reflexivity.
Qed.

Lemma for_loop_ext {S : Type} (f g : nat -> S -> option S) n lo s :
  (forall k x, (lo <= k < lo + n)%nat -> f k x = g k x) ->
  for_loop f lo n s = for_loop g lo n s.
Proof.
  revert lo s. induction n as [|n IH]; intros lo s H; simpl; [reflexivity|].
  rewrite (H lo s) by lia. destruct (g lo s); [|reflexivity].
  apply IH. intros. apply H. lia.
Qed.

(** A loop that appends one chunk per iteration. *)
Lemma for_loop_collect {A : Type} (f : nat -> option (list A)) n lo out :
  for_loop (fun k out => c <- f k ;; Some (out ++ c)) lo n out =
  (cs <- collect f lo n ;; Some (out ++ concat cs)).
Proof.
  revert lo out. induction n as [|n IH]; intros lo out; simpl.
  - now rewrite app_nil_r.
  - destruct (f lo) as [c|]; [|reflexivity].
    rewrite IH. destruct (collect f (Datatypes.S lo) n); [|reflexivity].
    simpl. now rewrite app_assoc.
Qed.

Lemma collect_map {A : Type} (f : nat -> option A) (g : nat -> A) n lo :
  (forall k, (lo <= k < lo + n)%nat -> f k = Some (g k)) ->
  collect f lo n = Some (map g (seq lo n)).
Proof.
  revert lo. induction n as [|n IH]; intros lo H; simpl; [reflexivity|].
  rewrite H by lia. rewrite IH; [reflexivity|]. intros. apply H. lia.
Qed.

(** ** Sums and maxima over the reals *)

Section RealSums.

Import Textbook.

Lemma Rsum_app a b : Rsum (a ++ b) = Rsum a + Rsum b.
Proof. induction a as [|x a IH]; simpl; [lra | rewrite IH; lra]. Qed.

Lemma Rsum_map_scale {A : Type} (f : A -> R) c l :
  Rsum (map (fun x => f x * c) l) = Rsum (map f l) * c.
Proof. induction l as [|x l IH]; simpl; [lra | rewrite IH; lra]. Qed.

Lemma Rsum_map_ext {A : Type} (f g : A -> R) l :
  (forall x, f x = g x) -> Rsum (map f l) = Rsum (map g l).
Proof. intros H. induction l as [|x l IH]; simpl; [|rewrite H, IH]; reflexivity. Qed.

Lemma sumexp_app mx a b : sumexp mx (a ++ b) = sumexp mx a + sumexp mx b.
Proof. unfold sumexp, exps. now rewrite map_app, Rsum_app. Qed.

Lemma exp_rebase x mx mx' : exp (x - mx) * exp (mx - mx') = exp (x - mx').
Proof. rewrite <- exp_plus. f_equal. lra. Qed.

Lemma sumexp_rebase mx mx' l : sumexp mx l * exp (mx - mx') = sumexp mx' l.
Proof.
  unfold sumexp, exps. rewrite <- Rsum_map_scale.
  apply Rsum_map_ext. intros it. apply exp_rebase.
Qed.

Lemma accexp_at_app k mx a b :
  accexp_at k mx (a ++ b) = accexp_at k mx a + accexp_at k mx b.
Proof. unfold accexp_at. now rewrite map_app, Rsum_app. Qed.

Lemma accexp_at_rebase k mx mx' l :
  accexp_at k mx l * exp (mx - mx') = accexp_at k mx' l.
Proof.
  unfold accexp_at. rewrite <- Rsum_map_scale.
  apply Rsum_map_ext. intros it. rewrite <- (exp_rebase (fst it) mx mx'). lra.
Qed.

Lemma accexp_length K mx l : length (accexp K mx l) = K.
Proof. unfold accexp. now rewrite length_map, length_seq. Qed.

Lemma nth_map_seq (f : nat -> R) n k :
  (k < n)%nat -> nth k (map f (seq O n)) 0 = f k.
Proof.
  intros H. rewrite (nth_indep _ 0 (f O)) by (now rewrite length_map, length_seq).
  rewrite (map_nth f (seq O n) O k), seq_nth by exact H. reflexivity.
Qed.

Lemma fold_Rmax_assoc l x y :
  fold_left Rmax l (Rmax x y) = Rmax x (fold_left Rmax l y).
Proof.
  revert x y. induction l as [|z l IH]; intros x y; simpl; [reflexivity|].
  rewrite <- IH. f_equal. symmetry. apply Rmax_assoc.
Qed.

Lemma row_max_app seen block :
  seen <> [] -> block <> [] ->
  row_max (seen ++ block) = Rmax (row_max seen) (row_max block).
Proof.
  destruct seen as [|a seen]; [congruence|].
  destruct block as [|b block]; [congruence|]. intros _ _.
  simpl. rewrite map_app, fold_left_app. simpl. apply fold_Rmax_assoc.
Qed.

Lemma fold_Rmax_ge l x : x <= fold_left Rmax l x.
Proof.
  revert x. induction l as [|y l IH]; intros x; simpl; [lra|].
  eapply Rle_trans; [apply (Rmax_l x y) | apply IH].
Qed.

Lemma fold_Rmax_ge_In l x y : In y l -> y <= fold_left Rmax l x.
Proof.
  revert x. induction l as [|z l IH]; intros x; simpl; [tauto|].
  intros [->|H]; [|now apply IH].
  eapply Rle_trans; [apply (Rmax_r x y) | apply fold_Rmax_ge].
Qed.

Lemma row_max_ge items it : In it items -> fst it <= row_max items.
Proof.
  destruct items as [|a items]; simpl; [tauto|].
  intros [->|H]; [apply fold_Rmax_ge|].
  apply fold_Rmax_ge_In. now apply in_map.
Qed.

Lemma fold_Rmax_In l x : fold_left Rmax l x = x \/ In (fold_left Rmax l x) l.
Proof.
  revert x. induction l as [|y l IH]; intros x; simpl; [now left|].
  destruct (IH (Rmax x y)) as [H|H]; [|now right; right].
  rewrite H. unfold Rmax. destruct (Rle_dec x y); [right; now left | now left].
Qed.

Lemma row_max_In items :
  items <> [] -> exists it, In it items /\ fst it = row_max items.
Proof.
  destruct items as [|a items]; [congruence|]. intros _. simpl.
  destruct (fold_Rmax_In (map fst items) (fst a)) as [H|H].
  - exists a. split; [now left | now rewrite H].
  - apply in_map_iff in H. destruct H as (it & Hit & Hin).
    exists it. split; [now right | exact Hit].
Qed.

Lemma Rsum_nonneg l : Forall (fun x => 0 <= x) l -> 0 <= Rsum l.
Proof. induction 1; simpl; lra. Qed.

Lemma Rsum_ge_In l x : Forall (fun y => 0 <= y) l -> In x l -> x <= Rsum l.
Proof.
  induction 1 as [|y l Hy Hl IH]; simpl; [tauto|].
  pose proof (Rsum_nonneg l Hl).
  intros [->|Hin]; [lra|]. specialize (IH Hin). lra.
Qed.

Lemma exps_nonneg mx items : Forall (fun x => 0 <= x) (exps mx items).
Proof.
  unfold exps. apply Forall_forall. intros x Hx.
  apply in_map_iff in Hx. destruct Hx as (it & <- & _).
  left. apply exp_pos.
Qed.

(** The key that attains the maximum contributes [exp 0 = 1]. *)
Lemma sumexp_ge_1 items : items <> [] -> 1 <= sumexp (row_max items) items.
Proof.
  intros H. destruct (row_max_In items H) as (it & Hin & Hit).
  assert (H1 : exp (fst it - row_max items) <= Rsum (exps (row_max items) items)).
  { apply Rsum_ge_In; [apply exps_nonneg|].
    unfold exps. apply in_map_iff. exists it. split; [reflexivity | exact Hin]. }
  rewrite Hit, Rminus_diag, exp_0 in H1. exact H1.
Qed.

End RealSums.

(** ** Lists as buffers *)

Lemma nth_error_skipn {A : Type} (l : list A) k x :
  nth_error l k = Some x -> skipn k l = x :: skipn (Datatypes.S k) l.
Proof.
  revert k. induction l as [|y l IH]; intros [|k] H; simpl in *; try discriminate.
  - now inversion H.
  - now apply IH.
Qed.

Lemma firstn_store l k v :
  (k < length l)%nat -> firstn (Datatypes.S k) (store l k v) = firstn k l ++ [v].
Proof.
  revert k. induction l as [|y l IH]; intros [|k] H; simpl in *; try lia.
  - reflexivity.
  - f_equal. apply IH. lia.
Qed.

Lemma skipn_store l k v :
  skipn (Datatypes.S k) (store l k v) = skipn (Datatypes.S k) l.
Proof.
  revert k. induction l as [|y l IH]; intros [|k]; try reflexivity.
  exact (IH k).
Qed.

Lemma length_store l k v : length (store l k v) = length l.
Proof.
  revert k. induction l as [|y l IH]; intros [|k]; simpl; try reflexivity.
  now rewrite IH.
Qed.

Lemma zip_with_map {A B C A' B' : Type} (f : A -> B -> C) (g : A' -> A)
      (h : B' -> B) l l' :
  zip_with f (map g l) (map h l') = zip_with (fun a b => f (g a) (h b)) l l'.
Proof.
  revert l'. induction l as [|a l IH]; intros [|b l']; simpl; try reflexivity.
  now rewrite IH.
Qed.

Lemma map_zip_with {A B C D : Type} (f : A -> B -> C) (g : C -> D) l l' :
  map g (zip_with f l l') = zip_with (fun a b => g (f a b)) l l'.
Proof.
  revert l'. induction l as [|a l IH]; intros [|b l']; simpl; try reflexivity.
  now rewrite IH.
Qed.

Lemma length_zip_with {A B C : Type} (f : A -> B -> C) l l' :
  length (zip_with f l l') = Nat.min (length l) (length l').
Proof.
  revert l'. induction l as [|a l IH]; intros [|b l']; simpl; try reflexivity.
  now rewrite IH.
Qed.

Lemma zip_with_seq (f : R -> R -> R) l l' K :
  length l = K -> length l' = K ->
  zip_with f l l' = map (fun k => f (nth k l 0) (nth k l' 0)) (seq O K).
Proof.
  revert l' K. induction l as [|a l IH]; intros [|b l'] [|K] H H'; simpl in *;
    try discriminate; [reflexivity|].
  f_equal. rewrite <- seq_shift, map_map. apply IH; lia.
Qed.

Lemma map_seq_ext {A : Type} (f g : nat -> A) n :
  (forall k, (k < n)%nat -> f k = g k) -> map f (seq O n) = map g (seq O n).
Proof.
  intros H. apply map_ext_in. intros k Hk. apply in_seq in Hk. apply H. lia.
Qed.

(** ** The scalar kernel: one key *)

Section ScalarKey.

Import Textbook Invariant.

Lemma smax_Fin a b : Accumulator.smax (Fin a) (Fin b) = Fin (Rmax a b).
Proof.
  unfold Accumulator.smax, sgt, Rmax.
  destruct (Rgt_dec b a), (Rle_dec a b); try reflexivity; f_equal; lra.
Qed.

Lemma online_inv_intro K seen m s a
      (Hne : seen <> [])
      (Hm : m = Fin (row_max seen))
      (Hs : s = Fin (sumexp (row_max seen) seen))
      (Ha : a = map Fin (accexp K (row_max seen) seen)) :
  online_inv K seen m s a.
Proof. destruct seen; [congruence|]. simpl. auto. Qed.

Lemma online_inv_elim K seen m s a :
  seen <> [] -> online_inv K seen m s a ->
  m = Fin (row_max seen) /\
  s = Fin (sumexp (row_max seen) seen) /\
  a = map Fin (accexp K (row_max seen) seen).
Proof. destruct seen; [congruence|]. simpl. auto. Qed.

Lemma inv_new_max K seen block m s a :
  online_inv K seen m s a -> block <> [] ->
  Accumulator.smax m (Fin (row_max block)) = Fin (row_max (seen ++ block)).
Proof.
  intros H Hb. destruct seen as [|it seen].
  - destruct H as (-> & _). reflexivity.
  - destruct H as (-> & _). rewrite smax_Fin.
    now rewrite row_max_app by (congruence || assumption).
Qed.

Lemma inv_transfer K seen block m s a :
  online_inv K seen m s a -> block <> [] ->
  exists c s_old a_old,
    sexp (ssub m (Fin (row_max (seen ++ block)))) = Fin c /\
    sle0 (ssub m (Fin (row_max (seen ++ block)))) /\
    s = Fin s_old /\ a = map Fin a_old /\ length a_old = K /\
    s_old * c = sumexp (row_max (seen ++ block)) seen /\
    (forall k, (k < K)%nat ->
       nth k a_old 0 * c = accexp_at k (row_max (seen ++ block)) seen).
Proof.
  intros H Hb. destruct seen as [|it seen].
  - destruct H as (-> & -> & ->).
    exists 0, 0, (repeat 0 K). simpl.
    repeat split; try reflexivity.
    + now rewrite map_repeat.
    + apply repeat_length.
    + unfold sumexp; simpl; lra.
    + intros k Hk. unfold accexp_at; simpl. lra.
  - destruct H as (-> & -> & ->).
    set (mx := row_max (it :: seen)). set (mx' := row_max ((it :: seen) ++ block)).
    exists (exp (mx - mx')), (sumexp mx (it :: seen)), (accexp K mx (it :: seen)).
    assert (Hle : mx <= mx').
    { unfold mx'. rewrite row_max_app by (congruence || assumption). apply Rmax_l. }
    repeat split; try reflexivity.
    + simpl. fold mx mx'. lra.
    + apply accexp_length.
    + apply sumexp_rebase.
    + intros k Hk. unfold accexp. rewrite nth_map_seq by exact Hk.
      apply accexp_at_rebase.
Qed.

End ScalarKey.

Section ScalarAccumulate.

Import Textbook Invariant.

Lemma zip_with_firstn {A B C : Type} (f : A -> B -> C) l l' :
  zip_with f l l' = zip_with f l (firstn (length l) l').
Proof.
  revert l'. induction l as [|a l IH]; intros [|b l']; simpl; try reflexivity.
  now rewrite <- IH.
Qed.

Lemma accumulate_from vi m_delta s_delta n lo buf :
  (lo + n = length buf)%nat -> (length buf <= length vi)%nat ->
  for_loop (fun k buf =>
              b <- load buf k ;;
              v <- load vi k ;;
              Some (store buf k (sadd (smul b m_delta) (smul v s_delta))))
           lo n buf =
  Some (firstn lo buf ++
        zip_with (fun b v => sadd (smul b m_delta) (smul v s_delta))
                 (skipn lo buf) (skipn lo vi)).
Proof.
  revert lo buf. induction n as [|n IH]; intros lo buf Hlen Hvi; simpl.
  - rewrite Nat.add_0_r in Hlen. subst lo.
    now rewrite skipn_all, firstn_all, app_nil_r.
  - unfold load.
    destruct (nth_error buf lo) as [b|] eqn:Eb;
      [|apply nth_error_None in Eb; lia].
    destruct (nth_error vi lo) as [v|] eqn:Ev;
      [|apply nth_error_None in Ev; lia].
    rewrite IH by (rewrite length_store; lia).
    rewrite firstn_store, skipn_store by lia.
    rewrite (nth_error_skipn buf lo b Eb), (nth_error_skipn vi lo v Ev).
    simpl. now rewrite <- app_assoc.
Qed.

Lemma accumulate_pointwise K vi m_delta s_delta buf :
  length buf = K -> (K <= length vi)%nat ->
  Cpu.accumulate K vi m_delta s_delta buf =
  Some (zip_with (fun b v => sadd (smul b m_delta) (smul v s_delta))
                 buf (firstn K vi)).
Proof.
  intros Hb Hv. unfold Cpu.accumulate.
  rewrite accumulate_from by lia. simpl.
  rewrite (zip_with_firstn _ buf vi), Hb. reflexivity.
Qed.

Lemma firstn_full_length {A B : Type} (f : A -> B) K (p : list B) (v : list A) :
  firstn K p = map f v -> length v = K -> (K <= length p)%nat.
Proof.
  intros H Hv. apply (f_equal (@length B)) in H.
  rewrite length_firstn, length_map in H. lia.
Qed.

Lemma accumulate_fin K vi c d a v :
  length a = K -> firstn K vi = map Fin v -> length v = K ->
  Cpu.accumulate K vi (Fin c) (Fin d) (map Fin a) =
  Some (map Fin (map (fun k => nth k a 0 * c + nth k v 0 * d) (seq O K))).
Proof.
  intros Ha Hvi Hv.
  rewrite accumulate_pointwise
    by (rewrite ?length_map; eauto using firstn_full_length).
  rewrite Hvi, zip_with_map.
  rewrite <- (zip_with_seq (fun x y => x * c + y * d) a v K Ha Hv).
  now rewrite map_zip_with.
Qed.

(** Folding one key with a finite score and a finite value row into
    statistics that satisfy the invariant. *)
Lemma fold_key_inv K seen st x v vi :
  online_inv K seen (Cpu.m_prime st) (Cpu.s_prime st) (Cpu.buf st) ->
  firstn K vi = map Fin v -> length v = K ->
  exists st',
    Cpu.fold_key K (Fin x) vi st = Some st' /\
    online_inv K (seen ++ [(x, v)])
               (Cpu.m_prime st') (Cpu.s_prime st') (Cpu.buf st') /\
    exists a1 a2,
      Cpu.exp_log st' = Cpu.exp_log st ++ [a1; a2] /\ sle0 a1 /\ sle0 a2.
Proof.
  intros Hinv Hvi Hv.
  assert (Hb : [(x, v)] <> []) by discriminate.
  pose proof (inv_new_max K seen [(x, v)] _ _ _ Hinv Hb) as Hmax.
  destruct (inv_transfer K seen [(x, v)] _ _ _ Hinv Hb)
    as (c & s_old & a_old & Hc & Hle & Hs & Ha & Hlen & Hsum & Hacc).
  set (mx' := row_max (seen ++ [(x, v)])) in *.
  unfold Cpu.fold_key.
  change (if sgt (Fin x) (Cpu.m_prime st) then Fin x else Cpu.m_prime st)
    with (Accumulator.smax (Cpu.m_prime st) (Fin (row_max [(x, v)]))).
  rewrite Hmax, Hc, Ha, Hs. simpl ssub. simpl sexp.
  rewrite (accumulate_fin K vi c _ a_old v Hlen Hvi Hv).
  eexists. split; [reflexivity|]. simpl.
  assert (Hne : seen ++ [(x, v)] <> []) by (destruct seen; discriminate).
  split.
  - apply online_inv_intro; [exact Hne|reflexivity| |]; fold mx';
      change (x + - mx') with (x - mx').
    + f_equal. rewrite sumexp_app, <- Hsum. unfold sumexp. simpl. lra.
    + f_equal. unfold accexp. apply map_seq_ext. intros k Hk.
      rewrite accexp_at_app, <- Hacc by exact Hk.
      unfold accexp_at. simpl. lra.
  - eexists _, _. split; [reflexivity|]. split; [exact Hle|].
    simpl. assert (x <= mx'); [|lra].
    apply (row_max_ge (seen ++ [(x, v)]) (x, v)).
    apply in_or_app. right. now left.
Qed.

End ScalarAccumulate.

(** ** The scalar kernel: one query row *)

Section ScalarRow.

Import Textbook Invariant.

Lemma zip_with_map_self {A B C : Type} (f : B -> A -> C) (g : A -> B) l :
  zip_with f (map g l) l = map (fun x => f (g x) x) l.
Proof. induction l as [|a l IH]; simpl; [|rewrite IH]; reflexivity. Qed.

(** Dividing the accumulated sums by the normalizing sum gives the
    textbook row. *)
Lemma attention_row_normalize K items :
  attention_row K items =
  map (fun a => a / sumexp (row_max items) items)
      (accexp K (row_max items) items).
Proof.
  unfold attention_row, accexp, softmax. rewrite map_map.
  apply map_ext. intros k. unfold accexp_at, exps. rewrite map_map.
  rewrite zip_with_map_self. unfold Rdiv at 2.
  rewrite <- Rsum_map_scale. apply Rsum_map_ext. intros it.
  unfold sumexp, exps. unfold Rdiv. ring.
Qed.

Lemma online_inv_length K seen m s a :
  online_inv K seen m s a -> length a = K.
Proof.
  destruct seen; intros (_ & _ & ->).
  - apply repeat_length.
  - rewrite length_map. apply accexp_length.
Qed.

Lemma key_loop_inv K N aar key value i sc vr :
  (forall l, (l < N)%nat ->
     Cpu.dot K aar (row_ptr key i l) = Some (Fin (sc l))) ->
  (forall l, (l < N)%nat ->
     firstn K (row_ptr value i l) = map Fin (vr l) /\ length (vr l) = K) ->
  forall n, (n <= N)%nat ->
  exists st,
    for_loop (Cpu.key_body K aar key value i) O n (Cpu.row_init K) = Some st /\
    online_inv K (map (fun l => (sc l, vr l)) (seq O n))
               (Cpu.m_prime st) (Cpu.s_prime st) (Cpu.buf st) /\
    Forall sle0 (Cpu.exp_log st).
Proof.
  intros Hsc Hvr. induction n as [|n IH]; intros Hn.
  - exists (Cpu.row_init K). simpl. repeat split. constructor.
  - destruct IH as (st & Hst & Hinv & Hlog); [lia|].
    replace (Datatypes.S n) with (n + 1)%nat by lia.
    rewrite for_loop_snoc, Hst. simpl. unfold Cpu.key_body.
    rewrite Hsc by lia.
    destruct (Hvr n ltac:(lia)) as (Hv & Hlen).
    destruct (fold_key_inv K _ st (sc n) (vr n) _ Hinv Hv Hlen)
      as (st' & Hst' & Hinv' & a1 & a2 & Hlog' & H1 & H2).
    exists st'. split; [exact Hst'|]. split.
    + now rewrite seq_app, map_app.
    + rewrite Hlog'. apply Forall_app. split; [exact Hlog|].
      repeat constructor; assumption.
Qed.

Lemma write_row_from (buf : list scalar) (s_prime : scalar) n lo oo :
  (lo + n = length buf)%nat ->
  for_loop (fun k oo => b <- load buf k ;; Some (oo ++ [sdiv b s_prime]))
           lo n oo =
  Some (oo ++ map (fun b => sdiv b s_prime) (skipn lo buf)).
Proof.
  revert lo oo. induction n as [|n IH]; intros lo oo H; simpl.
  - rewrite Nat.add_0_r in H. subst. now rewrite skipn_all, app_nil_r.
  - unfold load. destruct (nth_error buf lo) as [b|] eqn:E;
      [|apply nth_error_None in E; lia].
    rewrite IH by lia. rewrite (nth_error_skipn buf lo b E). simpl.
    now rewrite <- app_assoc.
Qed.

Lemma write_row_map K st :
  length (Cpu.buf st) = K ->
  Cpu.write_row K st =
  Some (map (fun b => sdiv b (Cpu.s_prime st)) (Cpu.buf st)).
Proof. intros H. unfold Cpu.write_row. now rewrite write_row_from by lia. Qed.

Lemma sdiv_Fin a b : b <> 0 -> sdiv (Fin a) (Fin b) = Fin (a / b).
Proof. intros H. simpl. destruct (Req_dec_T b 0); [contradiction | reflexivity]. Qed.

(** A row with a finite score for every one of its [N >= 1] keys and
    finite value rows. *)
Lemma row_kernel_finite K N query key value i j sc vr :
  (1 <= N)%nat ->
  (forall l, (l < N)%nat ->
     Cpu.dot K (row_ptr query i j) (row_ptr key i l) = Some (Fin (sc l))) ->
  (forall l, (l < N)%nat ->
     firstn K (row_ptr value i l) = map Fin (vr l) /\ length (vr l) = K) ->
  let items := map (fun l => (sc l, vr l)) (seq O N) in
  exists st,
    Cpu.row_kernel K N query key value i j =
      Some (map Fin (attention_row K items), st) /\
    Cpu.m_prime st = Fin (row_max items) /\
    Cpu.s_prime st = Fin (sumexp (row_max items) items) /\
    Cpu.buf st = map Fin (accexp K (row_max items) items) /\
    Forall sle0 (Cpu.exp_log st).
Proof.
  intros HN Hsc Hvr items.
  destruct (key_loop_inv K N _ key value i sc vr Hsc Hvr N (le_n N))
    as (st & Hst & Hinv & Hlog).
  fold items in Hinv.
  assert (Hne : items <> []).
  { unfold items. destruct N; [lia|]. simpl. discriminate. }
  pose proof (online_inv_length _ _ _ _ _ Hinv) as Hlen.
  destruct (online_inv_elim _ _ _ _ _ Hne Hinv) as (Hm & Hs & Ha).
  exists st. unfold Cpu.row_kernel, Cpu.key_loop. rewrite Hst.
  rewrite write_row_map by exact Hlen.
  repeat split; try assumption.
  do 2 f_equal. rewrite Ha, Hs, map_map, attention_row_normalize, map_map.
  apply map_ext. intros a. apply sdiv_Fin.
  pose proof (sumexp_ge_1 items Hne). lra.
Qed.

End ScalarRow.

(** ** The scalar kernel: rows of real inputs and the whole output *)

Section ScalarKernel.

Import Textbook Invariant.

Lemma firstn_skipn_cons {A : Type} (p : list A) n lo h t :
  firstn (Datatypes.S n) (skipn lo p) = h :: t ->
  nth_error p lo = Some h /\ firstn n (skipn (Datatypes.S lo) p) = t.
Proof.
  revert p. induction lo as [|lo IH]; intros [|a p] H; simpl in *;
    try discriminate.
  - inversion H; subst. split; [reflexivity|]. reflexivity.
  - apply IH. exact H.
Qed.

Lemma dot_from aar bar n lo acc x y :
  firstn n (skipn lo aar) = map Fin x -> length x = n ->
  firstn n (skipn lo bar) = map Fin y -> length y = n ->
  for_loop (fun k si =>
              a <- load aar k ;; b <- load bar k ;; Some (sadd si (smul a b)))
           lo n (Fin acc) =
  Some (Fin (fold_left Rplus (zip_with Rmult x y) acc)).
Proof.
  revert lo acc x y. induction n as [|n IH]; intros lo acc x y Hx Lx Hy Ly.
  - destruct x, y; try discriminate. reflexivity.
  - destruct x as [|x0 x]; [discriminate|]. destruct y as [|y0 y]; [discriminate|].
    apply firstn_skipn_cons in Hx. destruct Hx as (Ex & Hx).
    apply firstn_skipn_cons in Hy. destruct Hy as (Ey & Hy).
    simpl. unfold load. rewrite Ex, Ey. simpl.
    apply IH; simpl in *; try lia; assumption.
Qed.

Lemma dot_fin K aar bar x y :
  firstn K aar = map Fin x -> length x = K ->
  firstn K bar = map Fin y -> length y = K ->
  Cpu.dot K aar bar = Some (Fin (dotR x y)).
Proof. intros. unfold Cpu.dot, dotR. now apply dot_from. Qed.

Lemma row_ptr_fin d n0 n1 n2 i j :
  firstn n2 (row_ptr (mkAccessor (map Fin d) n0 n1 n2) i j) =
  map Fin (row_at d n1 n2 i j).
Proof. unfold row_ptr, row_at. simpl. now rewrite skipn_map, firstn_map. Qed.

Lemma row_at_length d n0 n1 n2 i j :
  length d = (n0 * n1 * n2)%nat -> (i < n0)%nat -> (j < n1)%nat ->
  length (row_at d n1 n2 i j) = n2.
Proof.
  intros Hd Hi Hj. unfold row_at. rewrite length_firstn, length_skipn.
  assert ((i * (n1 * n2) + j * n2 + n2 <= n0 * n1 * n2)%nat); [|lia].
  assert ((Datatypes.S j * n2 <= n1 * n2)%nat) by (apply Nat.mul_le_mono_r; lia).
  assert ((Datatypes.S i * (n1 * n2) <= n0 * (n1 * n2))%nat)
    by (apply Nat.mul_le_mono_r; lia).
  lia.
Qed.

(** The output of the kernel is the rows [g i j] its row kernels write,
    in row-major order. *)
Lemma attention_kernel_rows query key value (g : nat -> nat -> list scalar) :
  (forall i j, (i < size0 query)%nat -> (j < size1 query)%nat ->
     exists st,
       Cpu.row_kernel (size2 query) (size1 key) query key value i j =
       Some (g i j, st)) ->
  Cpu.attention_kernel query key value =
  Some (concat (map (fun i => concat (map (g i) (seq O (size1 query))))
                    (seq O (size0 query)))).
Proof.
  intros H. unfold Cpu.attention_kernel.
  set (K := size2 query). set (N := size1 key).
  set (M := size1 query). set (B := size0 query).
  rewrite (for_loop_ext _
             (fun i out => c <- Some (concat (map (g i) (seq O M))) ;;
                           Some (out ++ c))).
  - rewrite (for_loop_collect (fun i => Some (concat (map (g i) (seq O M))))).
    rewrite (collect_map _ (fun i => concat (map (g i) (seq O M))))
      by reflexivity.
    reflexivity.
  - intros i out Hi.
    rewrite (for_loop_ext _
               (fun j out => c <- (if (j <? M)%nat then Some (g i j) else None) ;;
                             Some (out ++ c))).
    + rewrite (for_loop_collect
                 (fun j => if (j <? M)%nat then Some (g i j) else None)).
      rewrite (collect_map _ (g i)); [reflexivity|].
      intros j Hj. destruct (Nat.ltb_spec j M); [reflexivity | lia].
    + intros j out' Hj. destruct (Nat.ltb_spec j M); [|lia].
      destruct (H i j ltac:(lia) ltac:(lia)) as (st & Hst).
      fold K N in Hst. rewrite Hst. reflexivity.
Qed.

Lemma concat_chunk {A : Type} (chunks : list (list A)) K t c :
  Forall (fun c => length c = K) chunks ->
  nth_error chunks t = Some c ->
  firstn K (skipn (t * K) (concat chunks)) = c.
Proof.
  intros HF. revert t. induction HF as [|c0 chunks Hc HF IH]; intros [|t] H;
    simpl in *; try discriminate.
  - inversion H; subst. rewrite firstn_app, Nat.sub_diag. simpl.
    now rewrite firstn_all, app_nil_r.
  - subst K. rewrite skipn_app, skipn_all2 by lia. simpl.
    replace (length c0 + t * length c0 - length c0)%nat with (t * length c0)%nat
      by lia.
    now apply IH.
Qed.

Lemma concat_map_chunk {A : Type} (g : nat -> list A) n K t :
  (forall k, (k < n)%nat -> length (g k) = K) -> (t < n)%nat ->
  firstn K (skipn (t * K) (concat (map g (seq O n)))) = g t.
Proof.
  intros Hlen Ht. apply concat_chunk.
  - apply Forall_forall. intros c Hc. apply in_map_iff in Hc.
    destruct Hc as (k & <- & Hk). apply in_seq in Hk. apply Hlen. lia.
  - rewrite nth_error_map, nth_error_nth' with (d := O) by (rewrite length_seq; lia).
    rewrite seq_nth by lia. reflexivity.
Qed.

Lemma length_concat_map {A : Type} (g : nat -> list A) n K :
  (forall k, (k < n)%nat -> length (g k) = K) ->
  length (concat (map g (seq O n))) = (n * K)%nat.
Proof.
  induction n as [|n IH]; intros H; [reflexivity|].
  rewrite seq_S, map_app, concat_app, length_app, IH by (intros; apply H; lia).
  simpl. rewrite app_nil_r, H by lia. lia.
Qed.

Lemma firstn_skipn_within {A : Type} (l : list A) a b K :
  (a + K <= b)%nat -> firstn K (skipn a l) = firstn K (skipn a (firstn b l)).
Proof.
  intros H. rewrite skipn_firstn_comm, firstn_firstn.
  f_equal. lia.
Qed.

(** Row [(i, j)] of an output made of rows of [K] elements. *)
Lemma output_row (g : nat -> nat -> list scalar) B M K i j :
  (forall i j, (i < B)%nat -> (j < M)%nat -> length (g i j) = K) ->
  (i < B)%nat -> (j < M)%nat ->
  firstn K (row_ptr (mkAccessor
                       (concat (map (fun i => concat (map (g i) (seq O M)))
                                    (seq O B))) B M K) i j) =
  g i j.
Proof.
  intros Hlen Hi Hj. unfold row_ptr. simpl.
  rewrite Nat.add_comm, <- skipn_skipn.
  rewrite (firstn_skipn_within _ (j * K) (M * K)).
  - rewrite (concat_map_chunk (fun i => concat (map (g i) (seq O M))) B (M * K) i).
    + now apply concat_map_chunk; [intros; apply Hlen|].
    + intros k Hk. apply length_concat_map. intros. now apply Hlen.
    + exact Hi.
  - assert ((Datatypes.S j * K <= M * K)%nat) by (apply Nat.mul_le_mono_r; lia).
    lia.
Qed.

End ScalarKernel.

(** ** The scalar kernel on real inputs *)

Section ScalarReal.

Import Textbook Invariant.

Variables B M N K : nat.
Variables q k v : list R.

Hypothesis Hq : length q = (B * M * K)%nat.
Hypothesis Hk : length k = (B * N * K)%nat.
Hypothesis Hv : length v = (B * N * K)%nat.
Hypothesis HN : (1 <= N)%nat.

Let query := mkAccessor (map Fin q) B M K.
Let key := mkAccessor (map Fin k) B N K.
Let value := mkAccessor (map Fin v) B N K.

Lemma row_kernel_real i j :
  (i < B)%nat -> (j < M)%nat ->
  let items := items_of dotR q k v M N K K i j in
  exists st,
    Cpu.row_kernel K N query key value i j =
      Some (map Fin (attention_row K items), st) /\
    Cpu.m_prime st = Fin (row_max items) /\
    Cpu.s_prime st = Fin (sumexp (row_max items) items) /\
    Cpu.buf st = map Fin (accexp K (row_max items) items) /\
    Forall sle0 (Cpu.exp_log st).
Proof.
  intros Hi Hj.
  apply (row_kernel_finite K N query key value i j
           (fun l => dotR (row_at q M K i j) (row_at k N K i l))
           (fun l => row_at v N K i l) HN).
  - intros l Hl. apply dot_fin.
    + apply row_ptr_fin.
    + now apply (row_at_length q B).
    + apply row_ptr_fin.
    + now apply (row_at_length k B).
  - intros l Hl. split; [apply row_ptr_fin | now apply (row_at_length v B)].
Qed.

Lemma attention_kernel_real :
  Cpu.attention_kernel query key value =
  Some (concat
          (map (fun i =>
                  concat (map (fun j =>
                                 map Fin (attention_row K
                                            (items_of dotR q k v M N K K i j)))
                              (seq O M)))
               (seq O B))).
Proof.
  apply (attention_kernel_rows query key value
           (fun i j => map Fin (attention_row K (items_of dotR q k v M N K K i j)))).
  intros i j Hi Hj.
  destruct (row_kernel_real i j Hi Hj) as (st & H & _). now exists st.
Qed.

End ScalarReal.

(** What the scalar kernel computes, on inputs of real numbers with Value
    of the sizes of Key: for every query row [(i, j)] with at least one
    key, when the key loop has ended the running max [m_prime] is the
    maximum over the keys of the dot product [si] the kernel folds (the
    score without the factor [1 / sqrt K]), the row written to the output
    is [buf / s_prime], and that row is the softmax-weighted sum of the
    value rows for these dot products; it is row [(i, j)] of the output of
    the kernel. *)
Theorem scalar_row_is_softmax (B M N K : nat) (q k v : list R) (i j : nat) :
  length q = (B * M * K)%nat ->
  length k = (B * N * K)%nat ->
  length v = (B * N * K)%nat ->
  (i < B)%nat -> (j < M)%nat -> (1 <= N)%nat ->
  let query := mkAccessor (map Fin q) B M K in
  let key := mkAccessor (map Fin k) B N K in
  let value := mkAccessor (map Fin v) B N K in
  let items := Textbook.items_of Textbook.dotR q k v M N K K i j in
  exists st out,
    Cpu.key_loop K N query key value i j = Some st /\
    Cpu.m_prime st = Fin (Textbook.row_max items) /\
    Cpu.write_row K st =
      Some (map (fun b => sdiv b (Cpu.s_prime st)) (Cpu.buf st)) /\
    map (fun b => sdiv b (Cpu.s_prime st)) (Cpu.buf st) =
      map Fin (Textbook.attention_row K items) /\
    Cpu.attention_kernel query key value = Some out /\
    firstn K (row_ptr (mkAccessor out B M K) i j) =
      map Fin (Textbook.attention_row K items).
Proof.
  intros Hq Hk Hv Hi Hj HN query key value items.
  destruct (row_kernel_real B M N K q k v Hq Hk Hv HN i j Hi Hj)
    as (st & Hrow & Hm & Hs & Hb & _).
  fold query key value items in Hrow, Hm, Hs, Hb.
  unfold Cpu.row_kernel in Hrow.
  destruct (Cpu.key_loop K N query key value i j) as [st0|] eqn:Est;
    [|discriminate].
  assert (Hlen : length (Cpu.buf st) = K)
    by (rewrite Hb, length_map; apply accexp_length).
  destruct (Cpu.write_row K st0) as [oo|] eqn:Eoo; [|discriminate].
  inversion Hrow; subst oo st0. clear Hrow.
  rewrite (write_row_map K st Hlen) in Eoo. injection Eoo as Eq.
  exists st. eexists.
  split; [reflexivity|]. split; [exact Hm|].
  split; [now apply write_row_map|]. split; [exact Eq|].
  split; [apply (attention_kernel_real B M N K q k v Hq Hk Hv HN)|].
  rewrite (output_row
             (fun i j => map Fin (Textbook.attention_row K
                           (Textbook.items_of Textbook.dotR q k v M N K K i j)))
             B M K i j); try assumption.
  - reflexivity.
  - intros. unfold Textbook.attention_row.
    now rewrite !length_map, length_seq.
Qed.

Lemma scalar_row_is_softmax_scenario :
  let items := Textbook.items_of Textbook.dotR Scenario.q Scenario.k Scenario.v
                                 2 2 2 2 0 0 in
  exists st out,
    Cpu.key_loop 2 2 Scenario.query Scenario.key Scenario.value 0 0 = Some st /\
    Cpu.m_prime st = Fin (Textbook.row_max items) /\
    Cpu.write_row 2 st =
      Some (map (fun b => sdiv b (Cpu.s_prime st)) (Cpu.buf st)) /\
    map (fun b => sdiv b (Cpu.s_prime st)) (Cpu.buf st) =
      map Fin (Textbook.attention_row 2 items) /\
    Cpu.attention_kernel Scenario.query Scenario.key Scenario.value = Some out /\
    firstn 2 (row_ptr (mkAccessor out 1 2 2) 0 0) =
      map Fin (Textbook.attention_row 2 items).
Proof.
  apply (scalar_row_is_softmax 1 2 2 2 Scenario.q Scenario.k Scenario.v 0 0);
    simpl; lia.
Defined.

(** ** Blocks of finite scores and value rows *)

Section FiniteBlocks.

Import Textbook Invariant Accumulator.

Lemma fold_smax_Fin l x :
  fold_left smax (map Fin l) (Fin x) = Fin (fold_left Rmax l x).
Proof.
  revert x. induction l as [|y l IH]; intros x; simpl; [reflexivity|].
  now rewrite smax_Fin, IH.
Qed.

Lemma block_max_Fin (block : list item) :
  block <> [] ->
  fold_left smax (map (fun it => Fin (fst it)) block) NInf =
  Fin (row_max block).
Proof.
  destruct block as [|it block]; [congruence|]. intros _. simpl.
  change (smax NInf (Fin (fst it))) with (Fin (fst it)).
  rewrite <- (map_map fst Fin). apply fold_smax_Fin.
Qed.

Lemma fold_left_Rplus l a : fold_left Rplus l a = a + Rsum l.
Proof.
  revert a. induction l as [|x l IH]; intros a; simpl; [lra|].
  rewrite IH. lra.
Qed.

Lemma fold_sadd_Fin l a :
  fold_left sadd (map Fin l) (Fin a) = Fin (a + Rsum l).
Proof.
  revert a. induction l as [|x l IH]; intros a; simpl.
  - f_equal. lra.
  - rewrite IH. f_equal. lra.
Qed.

Lemma ssum_Fin l : ssum (map Fin l) = Fin (Rsum l).
Proof. unfold ssum. rewrite fold_sadd_Fin. f_equal. lra. Qed.

Lemma vscale_Fin c a : vscale (Fin c) (map Fin a) = map Fin (map (fun x => x * c) a).
Proof. unfold vscale. now rewrite !map_map. Qed.

Lemma vadd_Fin a b : vadd (map Fin a) (map Fin b) = map Fin (zip_with Rplus a b).
Proof. unfold vadd. now rewrite zip_with_map, map_zip_with. Qed.

Lemma nth_map_R (f : R -> R) l k :
  (k < length l)%nat -> nth k (map f l) 0 = f (nth k l 0).
Proof.
  intros H. rewrite (nth_indep _ 0 (f 0)) by (now rewrite length_map).
  apply map_nth.
Qed.

Lemma zip_with_map_same {A B C D : Type} (f : B -> C -> D) (g : A -> B)
      (h : A -> C) l :
  zip_with f (map g l) (map h l) = map (fun x => f (g x) (h x)) l.
Proof. induction l as [|a l IH]; simpl; [|rewrite IH]; reflexivity. Qed.

Lemma zip_with_diag {A B : Type} (f : A -> A -> B) l :
  zip_with f l l = map (fun x => f x x) l.
Proof. induction l as [|a l IH]; simpl; [|rewrite IH]; reflexivity. Qed.

(** The weighted sum of the value rows of a block, from a finite start. *)
Lemma fold_vadd_Fin {A : Type} K (w : A -> R) (block : list (A * list R)) a0 :
  length a0 = K ->
  Forall (fun it => length (snd it) = K) block ->
  fold_left vadd
    (zip_with vscale (map (fun it => Fin (w (fst it))) block)
                     (map (fun it => map Fin (snd it)) block))
    (map Fin a0) =
  map Fin (map (fun k => nth k a0 0 +
                         Rsum (map (fun it => w (fst it) * nth k (snd it) 0) block))
               (seq O K)).
Proof.
  intros Ha HF. revert a0 Ha. induction HF as [|it block Hit HF IH]; intros a0 Ha.
  - simpl. f_equal.
    rewrite <- (zip_with_seq (fun x _ => x + 0) a0 a0 K Ha Ha).
    rewrite zip_with_diag. rewrite <- (map_id a0) at 1.
    apply map_ext. intros. lra.
  - simpl. rewrite vscale_Fin, vadd_Fin.
    rewrite IH by (rewrite length_zip_with, length_map; lia).
    f_equal. apply map_seq_ext. intros k Hk.
    rewrite (zip_with_seq Rplus a0 _ K Ha) by (now rewrite length_map).
    rewrite nth_map_seq by exact Hk.
    rewrite nth_map_R by lia. lra.
Qed.

Lemma weighted_rows_Fin {A : Type} K (w : A -> R)
      (block : list (A * list R)) :
  Forall (fun it => length (snd it) = K) block ->
  weighted_rows K (map (fun it => Fin (w (fst it))) block)
                (map (fun it => map Fin (snd it)) block) =
  map Fin (map (fun k => Rsum (map (fun it => w (fst it) * nth k (snd it) 0) block))
               (seq O K)).
Proof.
  intros HF. unfold weighted_rows.
  rewrite <- (map_repeat 0 K Fin).
  rewrite (fold_vadd_Fin K w block _ (repeat_length 0 K) HF).
  f_equal. apply map_seq_ext. intros k Hk.
  rewrite nth_repeat. lra.
Qed.

(** [fold_block] on a block of finite scores and value rows extends the
    invariant by the block. *)
Lemma fold_block_inv K seen st (block : list item) :
  online_inv K seen (m st) (s st) (acc st) ->
  block <> [] ->
  Forall (fun it => length (snd it) = K) block ->
  let st' := fold_block K st (map (fun it => Fin (fst it)) block)
                        (map (fun it => map Fin (snd it)) block) in
  online_inv K (seen ++ block) (m st') (s st') (acc st').
Proof.
  intros Hinv Hb HF st'.
  pose proof (inv_new_max K seen block _ _ _ Hinv Hb) as Hmax.
  destruct (inv_transfer K seen block _ _ _ Hinv Hb)
    as (c & s_old & a_old & Hc & Hle & Hs & Ha & Hlen & Hsum & Hacc).
  set (mx' := row_max (seen ++ block)) in *.
  assert (Hne : seen ++ block <> []).
  { destruct seen; [exact Hb | discriminate]. }
  assert (Hm' : m st' = Fin mx').
  { unfold st', fold_block. simpl. now rewrite block_max_Fin, Hmax. }
  assert (Hw : map (fun r => sexp (ssub r (Fin mx')))
                   (map (fun it => Fin (fst it)) block) =
               map (fun it => Fin (exp (fst it - mx'))) block).
  { rewrite map_map. reflexivity. }
  apply online_inv_intro; [exact Hne|exact Hm'| |]; fold mx'.
  - unfold st', fold_block. simpl. rewrite block_max_Fin, Hmax, Hc, Hs, Hw by exact Hb.
    rewrite <- (map_map (fun it => exp (fst it - mx')) Fin), ssum_Fin.
    simpl. f_equal. rewrite sumexp_app, <- Hsum. reflexivity.
  - unfold st', fold_block. simpl. rewrite block_max_Fin, Hmax, Hc, Ha, Hw by exact Hb.
    rewrite (weighted_rows_Fin K (fun x => exp (x - mx')) block HF).
    rewrite vscale_Fin, vadd_Fin. f_equal.
    rewrite (zip_with_seq Rplus _ _ K)
      by (now rewrite ?length_map, ?length_seq).
    unfold accexp. apply map_seq_ext. intros k Hk.
    rewrite nth_map_R, nth_map_seq, accexp_at_app, <- Hacc by lia.
    reflexivity.
Qed.

End FiniteBlocks.

(** ** Masked keys *)

Section MaskedBlocks.

Import Textbook Invariant Accumulator.

Lemma smax_NInf_r a : smax a NInf = a.
Proof. destruct a; reflexivity. Qed.

Lemma unmasked_app (a b : list masked_item) :
  unmasked (a ++ b) = unmasked a ++ unmasked b.
Proof. apply flat_map_app. Qed.

Lemma unmasked_lengths K (block : list masked_item) :
  Forall (fun it => length (snd it) = K) block ->
  Forall (fun it : item => length (snd it) = K) (unmasked block).
Proof.
  induction 1 as [|[[r|] v] block Hv HF IH]; simpl; auto.
Qed.

Lemma fold_smax_masked (block : list masked_item) a :
  fold_left smax (masked_scores block) a =
  fold_left smax (raw_scores (unmasked block)) a.
Proof.
  revert a. induction block as [|[[r|] v] block IH]; intros a; simpl.
  - reflexivity.
  - apply IH.
  - rewrite smax_NInf_r. apply IH.
Qed.

Lemma masked_max (block : list masked_item) :
  unmasked block <> [] ->
  fold_left smax (masked_scores block) NInf = Fin (row_max (unmasked block)).
Proof.
  intros H. rewrite fold_smax_masked. now apply block_max_Fin.
Qed.

Lemma masked_weights mx (block : list masked_item) :
  map (fun r => sexp (ssub r (Fin mx))) (masked_scores block) =
  map (fun it => Fin (weight_of mx (fst it))) block.
Proof.
  unfold masked_scores. rewrite map_map. apply map_ext.
  intros [[r|] v]; reflexivity.
Qed.

Lemma Rsum_weight_unmasked mx (block : list masked_item) :
  Rsum (map (fun it => weight_of mx (fst it)) block) =
  sumexp mx (unmasked block).
Proof.
  unfold sumexp, exps.
  induction block as [|[[r|] v] block IH]; simpl; [reflexivity| |].
  - now rewrite IH.
  - rewrite IH. lra.
Qed.

Lemma Rsum_weighted_unmasked k mx (block : list masked_item) :
  Rsum (map (fun it => weight_of mx (fst it) * nth k (snd it) 0) block) =
  accexp_at k mx (unmasked block).
Proof.
  unfold accexp_at.
  induction block as [|[[r|] v] block IH]; simpl; [reflexivity| |].
  - now rewrite IH.
  - rewrite IH. lra.
Qed.

(** The sums of the invariant over keys that may be masked are the sums
    over the keys that are not. *)
Lemma masked_ssum mx (block : list masked_item) :
  ssum (map (fun r => sexp (ssub r (Fin mx))) (masked_scores block)) =
  Fin (sumexp mx (unmasked block)).
Proof.
  rewrite masked_weights.
  rewrite <- (map_map (fun it => weight_of mx (fst it)) Fin), ssum_Fin.
  now rewrite Rsum_weight_unmasked.
Qed.

Lemma masked_weighted_rows K mx (block : list masked_item) :
  Forall (fun it => length (snd it) = K) block ->
  weighted_rows K (map (fun r => sexp (ssub r (Fin mx))) (masked_scores block))
                (masked_value_rows block) =
  map Fin (accexp K mx (unmasked block)).
Proof.
  intros HF. rewrite masked_weights.
  unfold masked_value_rows.
  rewrite (weighted_rows_Fin K (weight_of mx) block HF).
  f_equal. unfold accexp. apply map_seq_ext. intros k _.
  apply Rsum_weighted_unmasked.
Qed.

Lemma raw_ssum mx (block : list item) :
  ssum (map (fun r => sexp (ssub r (Fin mx))) (raw_scores block)) =
  Fin (sumexp mx block).
Proof.
  unfold raw_scores. rewrite map_map.
  transitivity (ssum (map Fin (map (fun it : item => exp (fst it - mx)) block))).
  - now rewrite map_map.
  - apply ssum_Fin.
Qed.

Lemma raw_weighted_rows K mx (block : list item) :
  Forall (fun it => length (snd it) = K) block ->
  weighted_rows K (map (fun r => sexp (ssub r (Fin mx))) (raw_scores block))
                (value_rows block) =
  map Fin (accexp K mx block).
Proof.
  intros HF. unfold raw_scores, value_rows. rewrite map_map.
  exact (weighted_rows_Fin K (fun x => exp (x - mx)) block HF).
Qed.

(** The invariant as stated is the invariant over the keys that are not
    masked, as soon as one key is not. *)
Lemma stated_inv_unmasked K (seen : list masked_item) m s a :
  seen = [] \/ unmasked seen <> [] ->
  Forall (fun it => length (snd it) = K) seen ->
  (stated_inv K seen m s a <-> online_inv K (unmasked seen) m s a).
Proof.
  intros [->|Hne] HF; [reflexivity|].
  unfold stated_inv. cbv zeta. rewrite (masked_max seen Hne). split.
  - intros (Hm & Hs & Ha). subst m.
    rewrite masked_ssum in Hs. rewrite (masked_weighted_rows K _ seen HF) in Ha.
    now apply online_inv_intro.
  - intros H. destruct (online_inv_elim _ _ _ _ _ Hne H) as (Hm & Hs & Ha).
    subst m. rewrite masked_ssum, (masked_weighted_rows K _ seen HF). auto.
Qed.

(** A block without keys leaves the invariant of keys seen. *)
Lemma fold_block_nil_inv K (seen : list item) st :
  seen <> [] ->
  online_inv K seen (m st) (s st) (acc st) ->
  let st' := fold_block K st [] [] in
  online_inv K seen (m st') (s st') (acc st').
Proof.
  intros Hne Hinv st'.
  destruct (online_inv_elim _ _ _ _ _ Hne Hinv) as (Hm & Hs & Ha).
  set (mx := row_max seen) in *.
  assert (E : exp (mx + - mx) = 1).
  { replace (mx + - mx) with 0 by lra. apply exp_0. }
  apply online_inv_intro; [exact Hne| | |]; fold mx;
    unfold st', fold_block; cbn [m s acc fold_left map];
    rewrite Hm; cbn [smax sgt ssub sneg sadd sexp].
  - reflexivity.
  - rewrite Hs, E. unfold ssum. cbn [fold_left smul sadd]. f_equal. lra.
  - rewrite Ha, E. unfold weighted_rows. cbn [zip_with fold_left].
    rewrite <- (map_repeat 0 K Fin), vscale_Fin, vadd_Fin. f_equal.
    rewrite (zip_with_seq Rplus _ _ K)
      by (now rewrite ?length_map, ?accexp_length, ?repeat_length).
    unfold accexp. apply map_seq_ext. intros k Hk.
    rewrite nth_map_R by (now rewrite length_map, length_seq).
    rewrite nth_map_seq, nth_repeat by exact Hk. lra.
Qed.

(** Folding a block in which keys are masked is folding its keys that
    are not, provided the new maximum is finite. *)
Lemma fold_block_masked K st (block : list masked_item) mx :
  Forall (fun it => length (snd it) = K) block ->
  smax (m st) (fold_left smax (masked_scores block) NInf) = Fin mx ->
  fold_block K st (masked_scores block) (masked_value_rows block) =
  fold_block K st (raw_scores (unmasked block)) (value_rows (unmasked block)).
Proof.
  intros HF Hmx. unfold fold_block. cbv zeta.
  rewrite <- (fold_smax_masked block NInf), Hmx.
  rewrite masked_ssum, raw_ssum.
  rewrite (masked_weighted_rows K mx block HF).
  rewrite (raw_weighted_rows K mx (unmasked block))
    by now apply unmasked_lengths.
  reflexivity.
Qed.

Lemma fold_block_masked_inv K (seen block : list masked_item) st :
  online_inv K (unmasked seen) (m st) (s st) (acc st) ->
  unmasked (seen ++ block) <> [] ->
  Forall (fun it => length (snd it) = K) block ->
  let st' := fold_block K st (masked_scores block)
                        (masked_value_rows block) in
  online_inv K (unmasked (seen ++ block)) (m st') (s st') (acc st').
Proof.
  intros Hinv Hne HF st'. rewrite unmasked_app in *.
  destruct (unmasked block) as [|it ub] eqn:Eb.
  - rewrite app_nil_r in *.
    destruct (online_inv_elim _ _ _ _ _ Hne Hinv) as (Hm & _).
    unfold st'. rewrite (fold_block_masked K st block (row_max (unmasked seen)));
      [| exact HF
       | rewrite fold_smax_masked, Eb, Hm; reflexivity].
    rewrite Eb. now apply fold_block_nil_inv.
  - assert (Hb : unmasked block <> []) by (rewrite Eb; discriminate).
    assert (Hmx : exists mx,
               smax (m st) (fold_left smax (masked_scores block) NInf) =
               Fin mx).
    { rewrite (masked_max block Hb).
      destruct (unmasked seen) as [|it' us].
      - destruct Hinv as (-> & _). eexists. reflexivity.
      - destruct Hinv as (-> & _). rewrite smax_Fin. eexists. reflexivity. }
    destruct Hmx as (mx & Hmx).
    unfold st'. rewrite (fold_block_masked K st block mx HF Hmx).
    rewrite <- Eb.
    apply (fold_block_inv K (unmasked seen) st (unmasked block) Hinv Hb).
    now apply unmasked_lengths.
Qed.

(** A masked key, met after a key that is not: the key body of the scalar
    kernel leaves the invariant of the keys seen. *)
Lemma fold_key_masked_inv K (seen : list item) st v vi :
  seen <> [] ->
  online_inv K seen (Cpu.m_prime st) (Cpu.s_prime st) (Cpu.buf st) ->
  firstn K vi = map Fin v -> length v = K ->
  exists st',
    Cpu.fold_key K NInf vi st = Some st' /\
    online_inv K seen (Cpu.m_prime st') (Cpu.s_prime st') (Cpu.buf st').
Proof.
  intros Hne Hinv Hvi Hv.
  destruct (online_inv_elim _ _ _ _ _ Hne Hinv) as (Hm & Hs & Ha).
  set (mx := row_max seen) in *.
  assert (E : exp (mx + - mx) = 1).
  { replace (mx + - mx) with 0 by lra. apply exp_0. }
  unfold Cpu.fold_key. rewrite Hm, Hs, Ha.
  cbn [sgt ssub sneg sadd sexp].
  rewrite (accumulate_fin K vi _ _ _ v (accexp_length K mx seen) Hvi Hv).
  eexists. split; [reflexivity|].
  cbn [Cpu.m_prime Cpu.s_prime Cpu.buf].
  apply online_inv_intro; [exact Hne|reflexivity| |]; fold mx.
  - cbn [smul sadd]. rewrite E. f_equal. lra.
  - f_equal. unfold accexp. apply map_seq_ext. intros k Hk.
    rewrite nth_map_seq by exact Hk. rewrite E. lra.
Qed.

End MaskedBlocks.

(** C5, as the code has it.  The keys have finite scores or are masked
    (score [-infinity]), and finite value rows.  A [fold_block] step, as
    the specification words it, extends the invariant as the specification
    states it ([m] the maximum, [s = Σ exp(score_k - m)],
    [acc = Σ exp(score_k - m) * value_k] over the keys seen) from the keys
    [seen] to [seen ++ block], whatever the block, provided a key that is
    not masked is among the keys seen before the step if there are any,
    and among the keys seen after it: that is, provided the first block
    holds a key that is not masked.  The body of the scalar kernel's key
    loop is that step for the block of one key: it extends the invariant
    by the key and leaves the statistics [fold_block] leaves. *)
Theorem fold_step_preserves_invariant
        (K_v : nat) (seen block : list Invariant.masked_item)
        (cst : Cpu.row_state) (x : option R) (v : list R) (vi : ptr) :
  let st := Invariant.stats_of cst in
  Invariant.stated_inv K_v seen
    (Accumulator.m st) (Accumulator.s st) (Accumulator.acc st) ->
  seen = [] \/ Invariant.unmasked seen <> [] ->
  Forall (fun it => length (snd it) = K_v) seen ->
  Forall (fun it => length (snd it) = K_v) block ->
  firstn K_v vi = map Fin v ->
  length v = K_v ->
  (Invariant.unmasked (seen ++ block) <> [] ->
   let st' := Accumulator.fold_block K_v st (Invariant.masked_scores block)
                                     (Invariant.masked_value_rows block) in
   Invariant.stated_inv K_v (seen ++ block)
     (Accumulator.m st') (Accumulator.s st') (Accumulator.acc st')) /\
  (Invariant.unmasked (seen ++ [(x, v)]) <> [] ->
   exists cst',
     Cpu.fold_key K_v (Invariant.score_of x) vi cst = Some cst' /\
     Invariant.stated_inv K_v (seen ++ [(x, v)])
       (Cpu.m_prime cst') (Cpu.s_prime cst') (Cpu.buf cst') /\
     Invariant.stats_of cst' =
       Accumulator.fold_block K_v st (Invariant.masked_scores [(x, v)])
                              (Invariant.masked_value_rows [(x, v)])).
Proof.
  intros st Hinv Hseen HFs HFb Hvi Hv.
  apply (stated_inv_unmasked K_v seen _ _ _ Hseen HFs) in Hinv.
  split.
  - intros Hne st'.
    apply (stated_inv_unmasked K_v (seen ++ block));
      [now right | now apply Forall_app |].
    now apply fold_block_masked_inv.
  - intros Hne.
    assert (HF1 : Forall (fun it : Invariant.masked_item =>
                            length (snd it) = K_v) [(x, v)])
      by (repeat constructor; exact Hv).
    pose proof (fold_block_masked_inv K_v seen [(x, v)] st Hinv Hne HF1)
      as Hfb. cbv zeta in Hfb.
    assert (Hk : exists cst',
               Cpu.fold_key K_v (Invariant.score_of x) vi cst = Some cst' /\
               Invariant.online_inv K_v (Invariant.unmasked (seen ++ [(x, v)]))
                 (Cpu.m_prime cst') (Cpu.s_prime cst') (Cpu.buf cst')).
    { rewrite unmasked_app. destruct x as [r|]; cbn [Invariant.score_of].
      - destruct (fold_key_inv K_v (Invariant.unmasked seen) cst r v vi
                    Hinv Hvi Hv) as (cst' & Hst & Hinv' & _).
        exists cst'. split; [exact Hst | exact Hinv'].
      - rewrite unmasked_app in Hne. simpl in Hne. rewrite app_nil_r in Hne.
        simpl. rewrite app_nil_r.
        now apply (fold_key_masked_inv K_v _ cst v vi). }
    destruct Hk as (cst' & Hst & Hinv').
    exists cst'. split; [exact Hst|]. split.
    + apply (stated_inv_unmasked K_v (seen ++ [(x, v)]));
        [now right | now apply Forall_app | exact Hinv'].
    + apply (online_inv_elim _ _ _ _ _ Hne) in Hinv'.
      apply (online_inv_elim _ _ _ _ _ Hne) in Hfb.
      destruct Hinv' as (Hm & Hs & Ha). destruct Hfb as (Hm' & Hs' & Ha').
      unfold Invariant.stats_of. rewrite Hm, Hs, Ha.
      destruct (Accumulator.fold_block K_v st _ _) as [m1 s1 a1].
      simpl in Hm', Hs', Ha'. now rewrite Hm', Hs', Ha'.
Qed.

Lemma fold_step_preserves_invariant_masked_keys :
  let cst := Cpu.mkRow [Fin 1] (Fin 1) (Fin 0) [] in
  let st := Invariant.stats_of cst in
  let seen := [(Some 0, [1])] in
  let block := [(None, [5]); (Some 2, [3])] in
  (let st' := Accumulator.fold_block 1 st (Invariant.masked_scores block)
                                     (Invariant.masked_value_rows block) in
   Invariant.stated_inv 1 (seen ++ block)
     (Accumulator.m st') (Accumulator.s st') (Accumulator.acc st')) /\
  (exists cst',
     Cpu.fold_key 1 (Invariant.score_of None) [Fin 2] cst = Some cst' /\
     Invariant.stated_inv 1 (seen ++ [(None, [2])])
       (Cpu.m_prime cst') (Cpu.s_prime cst') (Cpu.buf cst') /\
     Invariant.stats_of cst' =
       Accumulator.fold_block 1 st (Invariant.masked_scores [(None, [2])])
                              (Invariant.masked_value_rows [(None, [2])])).
Proof.
  intros cst st seen block.
  assert (E : exp (0 + - 0) = 1).
  { replace (0 + - 0) with 0 by lra. apply exp_0. }
  destruct (fold_step_preserves_invariant 1 seen block cst None [2] [Fin 2])
    as (Hblock & Hkey).
  - unfold seen, cst, Invariant.stats_of, Invariant.stated_inv,
      Invariant.masked_scores, Invariant.masked_value_rows,
      Accumulator.ssum, Accumulator.weighted_rows, Accumulator.vadd,
      Accumulator.vscale.
    cbn. rewrite E. split; [reflexivity|]. split; repeat f_equal; lra.
  - right. discriminate.
  - repeat constructor.
  - repeat constructor.
  - reflexivity.
  - reflexivity.
  - split; [apply Hblock | apply Hkey]; discriminate.
Defined.

(** C5, as claimed, fails for the key sequence with scores [-inf] and [0]
    (the first key masked) folded one key at a time.  The invariant holds
    of the initial statistics and, NaN for NaN, after the first fold,
    which forms [exp(-inf - (-inf))]; the second fold does not preserve
    it: the running max is 0 and the sum the invariant states is
    [exp(-inf - 0) + exp(0 - 0) = 1], while the normalizing sum is NaN.
    Folded as one block of two keys the same sequence gives the sum 1, so
    the result depends on the blocking.  The scalar kernel's key body
    leaves the statistics of the two folds. *)
Lemma masked_first_key_breaks_invariant :
  let masked : Invariant.masked_item := (None, [1]) in
  let finite : Invariant.masked_item := (Some 0, [1]) in
  let init := Accumulator.init 1 in
  let st1 := Accumulator.fold_block 1 init
               (Invariant.masked_scores [masked])
               (Invariant.masked_value_rows [masked]) in
  let st2 := Accumulator.fold_block 1 st1
               (Invariant.masked_scores [finite])
               (Invariant.masked_value_rows [finite]) in
  let one := Accumulator.fold_block 1 init
               (Invariant.masked_scores [masked; finite])
               (Invariant.masked_value_rows [masked; finite]) in
  Invariant.stated_inv 1 []
    (Accumulator.m init) (Accumulator.s init) (Accumulator.acc init) /\
  Invariant.stated_inv 1 [masked]
    (Accumulator.m st1) (Accumulator.s st1) (Accumulator.acc st1) /\
  Accumulator.s st1 = NaN /\
  ~ Invariant.stated_inv 1 ([masked] ++ [finite])
      (Accumulator.m st2) (Accumulator.s st2) (Accumulator.acc st2) /\
  Accumulator.m st2 = Fin 0 /\
  Accumulator.s st2 = NaN /\
  Accumulator.ssum (map (fun r => sexp (ssub r (Accumulator.m st2)))
                        (Invariant.masked_scores [masked; finite])) = Fin 1 /\
  Accumulator.m one = Fin 0 /\
  Accumulator.s one = Fin 1 /\
  exists cst1 cst2,
    Cpu.fold_key 1 NInf [Fin 1] (Cpu.row_init 1) = Some cst1 /\
    Cpu.fold_key 1 (Fin 0) [Fin 1] cst1 = Some cst2 /\
    Invariant.stats_of cst1 = st1 /\ Invariant.stats_of cst2 = st2.
Proof.
  cbv zeta.
  assert (E : 0 + - 0 = 0) by lra.
  split; [repeat split|]. split; [repeat split|].
  split; [reflexivity|]. split.
  { intros (_ & Hs & _). cbn in Hs. discriminate Hs. }
  split; [reflexivity|]. split; [reflexivity|]. split.
  { cbn. rewrite E, exp_0. f_equal. lra. }
  split; [reflexivity|]. split.
  { cbn. rewrite E, exp_0. f_equal. lra. }
  eexists. eexists. split; [reflexivity|]. split; [reflexivity|].
  split; reflexivity.
Qed.

(** ** Exponents and finiteness *)

Section Exponents.

Import Textbook Invariant.


End Exponents.

(** ** A row whose scores are all [-inf] *)

Section MaskedRow.

Lemma zip_with_const {A B C : Type} (f : A -> B -> C) (c : C) l l' K :
  length l = K -> length l' = K -> (forall a b, f a b = c) ->
  zip_with f l l' = repeat c K.
Proof.
  intros Hl Hl' Hf. revert l' K Hl Hl'.
  induction l as [|a l IH]; intros [|b l'] [|K] Hl Hl'; simpl in *;
    try discriminate; [reflexivity|].
  rewrite Hf. f_equal. apply IH; lia.
Qed.

Lemma fold_key_masked K vi st :
  Cpu.m_prime st = NInf -> length (Cpu.buf st) = K -> (K <= length vi)%nat ->
  exists st',
    Cpu.fold_key K NInf vi st = Some st' /\
    Cpu.m_prime st' = NInf /\ Cpu.s_prime st' = NaN /\
    Cpu.buf st' = repeat NaN K.
Proof.
  intros Hm Hb Hv. unfold Cpu.fold_key. rewrite Hm. simpl.
  rewrite accumulate_pointwise by assumption.
  eexists. split; [reflexivity|]. simpl. repeat split.
  - destruct (Cpu.s_prime st); reflexivity.
  - apply zip_with_const; [exact Hb | rewrite length_firstn; lia |].
    intros a b. destruct a, b; reflexivity.
Qed.

Lemma key_loop_masked K N aar key value i :
  (forall l, (l < N)%nat -> Cpu.dot K aar (row_ptr key i l) = Some NInf) ->
  (forall l, (l < N)%nat -> (K <= length (row_ptr value i l))%nat) ->
  forall n, (n <= N)%nat ->
  exists st,
    for_loop (Cpu.key_body K aar key value i) O n (Cpu.row_init K) = Some st /\
    Cpu.m_prime st = NInf /\
    Cpu.s_prime st = (if (n =? 0)%nat then Fin 0 else NaN) /\
    Cpu.buf st = repeat (if (n =? 0)%nat then Fin 0 else NaN) K.
Proof.
  intros Hsc Hv. induction n as [|n IH]; intros Hn.
  - exists (Cpu.row_init K). repeat split.
  - destruct IH as (st & Hst & Hm & Hs & Hb); [lia|].
    replace (Datatypes.S n) with (n + 1)%nat by lia.
    rewrite for_loop_snoc, Hst. simpl. unfold Cpu.key_body.
    rewrite Hsc by lia.
    destruct (fold_key_masked K (row_ptr value i n) st Hm)
      as (st' & Hst' & Hm' & Hs' & Hb').
    + rewrite Hb. apply repeat_length.
    + apply Hv. lia.
    + exists st'. rewrite Nat.add_1_r. simpl. auto.
Qed.

End MaskedRow.

(** C8, as the code has it.  For a query row all of whose raw scores are
    [-inf] the scalar kernel returns normally; the final normalizing sum
    is exactly 0 when the row has no key and NaN as soon as it has one
    (the first fold computes [exp(-inf - (-inf))]); no finite sum is put
    in its place, and the written row is NaN in every feature. *)
Theorem fully_masked_row_sum
        (K N : nat) (query key value : TensorAccessor3) (i j : nat) :
  (forall l, (l < N)%nat ->
     Cpu.dot K (row_ptr query i j) (row_ptr key i l) = Some NInf) ->
  (forall l, (l < N)%nat -> (K <= length (row_ptr value i l))%nat) ->
  exists st,
    Cpu.row_kernel K N query key value i j = Some (repeat NaN K, st) /\
    Cpu.s_prime st = (if (N =? 0)%nat then Fin 0 else NaN).
Proof.
  intros Hsc Hv.
  destruct (key_loop_masked K N _ key value i Hsc Hv N (le_n N))
    as (st & Hst & Hm & Hs & Hb).
  exists st. split; [|exact Hs].
  unfold Cpu.row_kernel, Cpu.key_loop. rewrite Hst.
  rewrite write_row_map by (rewrite Hb; apply repeat_length).
  rewrite Hb, Hs, map_repeat. do 3 f_equal.
  destruct (N =? 0)%nat; [|reflexivity].
  simpl. unfold mul_inf. rdec. reflexivity.
Qed.

Lemma fully_masked_row_sum_one_key :
  exists st,
    Cpu.row_kernel 1 1 Inputs.masked_query Inputs.masked_key
                   Inputs.masked_value 0 0 = Some (repeat NaN 1, st) /\
    Cpu.s_prime st = (if (1 =? 0)%nat then Fin 0 else NaN).
Proof.
  apply (fully_masked_row_sum 1 1 Inputs.masked_query Inputs.masked_key
           Inputs.masked_value 0 0).
  - intros l Hl. destruct l; [|lia].
    unfold Cpu.dot. simpl. unfold mul_inf. rdec. reflexivity.
  - intros l Hl. destruct l; [|lia]. simpl. lia.
Defined.

(** C8, as claimed, fails on a row with one key of score [-inf]: the
    final normalizing sum is NaN, not 0. *)
Lemma masked_row_sum_is_nan :
  Cpu.dot 1 (row_ptr Inputs.masked_query 0 0) (row_ptr Inputs.masked_key 0 0)
    = Some NInf /\
  exists st,
    Cpu.key_loop 1 1 Inputs.masked_query Inputs.masked_key
                 Inputs.masked_value 0 0 = Some st /\
    Cpu.s_prime st = NaN /\
    Cpu.s_prime st <> Fin 0.
Proof.
  assert (Hdot : Cpu.dot 1 (row_ptr Inputs.masked_query 0 0)
                         (row_ptr Inputs.masked_key 0 0) = Some NInf).
  { unfold Cpu.dot. simpl. unfold mul_inf. rdec. reflexivity. }
  split; [exact Hdot|].
  unfold Cpu.key_loop. cbn [for_loop]. unfold Cpu.key_body. rewrite Hdot.
  simpl. eexists. split; [reflexivity|]. simpl. split; [reflexivity|discriminate].
Qed.

(** ** The host function [attention] *)

(** C7, as the code has it.  The operator fails before its kernel is
    launched, hence before any element of the output is written,
    whenever a precondition is violated.  When Query or Key is not of
    rank 3, when they differ in feature dimension or batch count, or when
    an input is not contiguous, it fails before it allocates anything.
    When those checks pass and Value is not of rank 3 or the element type
    is not a shared float or double, it fails after the output and the
    scratch buffer have been allocated.  When all conditions hold the
    kernel is launched. *)
Theorem attention_fails_before_launch
        (num_threads : nat) (query key value : Tensor) :
  let allocs :=
    [Cpu.Alloc [size query 0; size query 1; size query 2] (scalar_type query);
     Cpu.Alloc [num_threads; 1%nat; size query 2] (scalar_type query)] in
  (Precondition.checked_first query key value = false /\
   Cpu.attention num_threads query key value = ([], Cpu.Raised Cpu.CheckFailed))
  \/
  (Precondition.checked_first query key value = true /\
   Precondition.checked_late query key value = false /\
   exists e,
     Cpu.attention num_threads query key value = (allocs, Cpu.Raised e))
  \/
  (Precondition.checked_first query key value = true /\
   Precondition.checked_late query key value = true /\
   exists r,
     Cpu.attention num_threads query key value = (allocs ++ [Cpu.Launch], r)).
Proof.
  intros allocs. unfold Precondition.checked_first, Precondition.checked_late.
  unfold Cpu.attention. fold allocs.
  destruct (Nat.eqb_spec (dim query) 3) as [Hq|Hq].
  2:{ left. split; [reflexivity|].
      destruct (dim query =? dim key)%nat; reflexivity. }
  destruct (Nat.eqb_spec (dim key) 3) as [Hk|Hk].
  2:{ left. split; [reflexivity|]. rewrite Hq.
      destruct (Nat.eqb_spec 3 (dim key)); [congruence | reflexivity]. }
  rewrite Hq, Hk. cbn [Nat.eqb negb andb].
  destruct (size query 2 =? size key 2)%nat; cbn [negb andb];
    [|left; split; reflexivity].
  destruct (size query 0 =? size key 0)%nat; cbn [negb andb];
    [|left; split; reflexivity].
  destruct (contiguous query); cbn [negb andb]; [|left; split; reflexivity].
  destruct (contiguous key); cbn [negb andb]; [|left; split; reflexivity].
  destruct (contiguous value); cbn [negb andb]; [|left; split; reflexivity].
  right. unfold Cpu.accessor. rewrite Hq, Hk. cbn [Nat.eqb andb].
  destruct (dim value =? 3)%nat, (scalar_type query), (scalar_type key),
    (scalar_type value);
    cbn [andb Precondition.supported ScalarType_eqb];
    first [ left; repeat split; eexists; reflexivity
          | right; repeat split;
            match goal with
            | |- context [Cpu.attention_kernel ?a ?b ?c] =>
                destruct (Cpu.attention_kernel a b c)
            end; eexists; reflexivity ].
Qed.

(** C7, as claimed, fails for a Value of rank 2: the operator raises
    only after it has allocated the output and the scratch buffer. *)
Lemma flat_value_fails_after_allocation :
  dim Inputs.flat_value <> 3%nat /\
  Cpu.attention 1 Inputs.wide_query Inputs.wide_key Inputs.flat_value =
  ([Cpu.Alloc [1; 1; 1]%nat Float; Cpu.Alloc [1; 1; 1]%nat Float],
   Cpu.Raised Cpu.AccessorMismatch).
Proof. split; [discriminate | reflexivity]. Qed.

(** Whatever the inputs, a tensor the operator returns has the sizes
    [(B, M, K)] and the element type of Query. *)
Lemma attention_output_sizes num_threads query key value trace res :
  Cpu.attention num_threads query key value = (trace, Cpu.Returned res) ->
  sizes res = [size query 0; size query 1; size query 2] /\
  scalar_type res = scalar_type query.
Proof.
  unfold Cpu.attention.
  repeat match goal with
         | |- context [if ?c then _ else _] => destruct c; try discriminate
         end.
  destruct (scalar_type query) eqn:Ety; try discriminate;
    destruct (Cpu.accessor _ query); try discriminate;
    destruct (Cpu.accessor _ key); try discriminate;
    destruct (Cpu.accessor _ value); try discriminate;
    destruct (Cpu.attention_kernel _ _ _); try discriminate;
    intros E; inversion E; split; reflexivity.
Qed.

(** C4 at the failing input: Query and Key are [(1, 1, 1)], Value is
    [(1, 1, 2)]; every check passes, the kernel runs, and the output is
    [(1, 1, 1)], its third dimension Query's [K = 1] and not Value's
    [K_v = 2]. *)
Theorem output_has_query_feature_dimension :
  size Inputs.wide_value 2 = 2%nat /\
  exists out,
    Cpu.attention 1 Inputs.wide_query Inputs.wide_key Inputs.wide_value =
    ([Cpu.Alloc [1; 1; 1]%nat Float; Cpu.Alloc [1; 1; 1]%nat Float; Cpu.Launch],
     Cpu.Returned (mkTensor [1; 1; 1]%nat true Float out)).
Proof.
  split; [reflexivity|].
  unfold Cpu.attention. simpl.
  unfold Cpu.attention_kernel, Cpu.row_kernel, Cpu.key_loop, Cpu.write_row.
  simpl.
  match goal with
  | |- context [Req_dec_T ?a 0] => destruct (Req_dec_T a 0) as [E|E]
  end.
  - exfalso. pose proof (exp_pos (0 + 1 * 1 + - (0 + 1 * 1))). lra.
  - eexists. reflexivity.
Qed.

(** ** [matmul_with_mask] *)

Section MaskedMatmul.

Import Matmul.

Lemma nth_error_zip_with {A B C : Type} (f : A -> B -> C) l l' i :
  nth_error (zip_with f l l') i =
  match nth_error l i, nth_error l' i with
  | Some a, Some b => Some (f a b)
  | _, _ => None
  end.
Proof.
  revert l' i. induction l as [|a l IH]; intros [|b l'] [|i]; simpl;
    try reflexivity.
  - destruct (nth_error l i); reflexivity.
  - apply IH.
Qed.

Lemma masked_fill_Dim l l' value :
  masked_fill (Dim l) (Dim l') value =
  Dim (zip_with (fun u w => masked_fill u w value) l l').
Proof.
  simpl. f_equal. revert l'.
  induction l as [|u l IH]; intros [|w l']; try reflexivity.
  simpl. f_equal. apply IH.
Qed.

Lemma same_indices_sub {A B : Type} (l : list (tensor A)) (l' : list (tensor B))
      i u w :
  same_indices (Dim l) (Dim l') ->
  nth_error l i = Some u -> nth_error l' i = Some w ->
  same_indices u w.
Proof.
  intros H Hu Hw index. specialize (H (i :: index)). simpl in H.
  now rewrite Hu, Hw in H.
Qed.

Lemma get_masked_fill index :
  forall (t : tensor scalar) (mask : tensor bool) value,
    same_indices t mask ->
    get (masked_fill t mask value) index =
    match get t index, get mask index with
    | Some x, Some b => Some (if b then value else x)
    | _, _ => None
    end.
Proof.
  induction index as [|i index IH]; intros t mask value H.
  - destruct t as [x|l], mask as [b|l']; try reflexivity.
    exfalso. destruct (H []) as (_ & H'). discriminate (H' eq_refl).
  - destruct t as [x|l].
    + destruct mask; reflexivity.
    + destruct mask as [b|l'].
      * destruct (H (i :: index)) as (_ & H').
        cbn [masked_fill]. now rewrite (H' eq_refl).
      * rewrite masked_fill_Dim. cbn [get]. rewrite nth_error_zip_with.
        destruct (nth_error l i) as [u|] eqn:Eu; [|reflexivity].
        destruct (nth_error l' i) as [w|] eqn:Ew.
        -- apply IH. exact (same_indices_sub l l' i u w H Eu Ew).
        -- destruct (get u index); reflexivity.
Qed.

Lemma get_tmap {A B : Type} (f : A -> B) index :
  forall t : tensor A,
    get (tmap f t) index =
    match get t index with Some x => Some (f x) | None => None end.
Proof.
  induction index as [|i index IH]; intros [x|l]; try reflexivity.
  cbn [tmap get]. rewrite nth_error_map.
  destruct (nth_error l i); [apply IH | reflexivity].
Qed.

Lemma same_indices_logical_not (t : tensor scalar) (mask : tensor bool) :
  same_indices mask t -> same_indices t (logical_not mask).
Proof.
  intros H index. unfold logical_not. rewrite get_tmap.
  specialize (H index). destruct (get mask index); split; intros E;
    try discriminate; try reflexivity.
  - apply H in E. discriminate.
  - now apply H.
Qed.

End MaskedMatmul.

(** C9. For tensors [a], [b] and a boolean mask of the shape of their
    product, [matmul_with_mask] returns a tensor with the valid indices of
    [matmul(a, b)] whose entry at an index is the entry of [matmul(a, b)]
    where the mask is true and [-inf] where it is false. *)
Theorem matmul_with_mask_entries
        (matmul : Matmul.tensor scalar -> Matmul.tensor scalar ->
                  Matmul.tensor scalar)
        (a b : Matmul.tensor scalar) (mask : Matmul.tensor bool) :
  Matmul.same_indices mask (matmul a b) ->
  forall index,
    Matmul.get (Matmul.matmul_with_mask_kernel matmul a b mask) index =
    match Matmul.get (matmul a b) index, Matmul.get mask index with
    | Some x, Some keep => Some (if keep then x else NInf)
    | _, _ => None
    end.
Proof.
  intros Hshape index. unfold Matmul.matmul_with_mask_kernel.
  rewrite get_masked_fill by (now apply same_indices_logical_not).
  unfold Matmul.logical_not. rewrite get_tmap.
  destruct (Matmul.get (matmul a b) index); [|reflexivity].
  destruct (Matmul.get mask index) as [[|]|]; reflexivity.
Qed.

Lemma matmul_with_mask_entries_2x2 :
  let a := Matmul.of_matrix [[Fin 1; Fin 2]; [Fin 3; Fin 4]] in
  let b := Matmul.of_matrix [[Fin 1; Fin 0]; [Fin 0; Fin 1]] in
  let mask :=
    Matmul.Dim [Matmul.Dim [Matmul.Elem true; Matmul.Elem false];
                Matmul.Dim [Matmul.Elem false; Matmul.Elem true]] in
  Matmul.get (Matmul.matmul_with_mask_kernel Matmul.matmul_2d a b mask)
             [0; 1]%nat =
  match Matmul.get (Matmul.matmul_2d a b) [0; 1]%nat,
        Matmul.get mask [0; 1]%nat with
  | Some x, Some keep => Some (if keep then x else NInf)
  | _, _ => None
  end.
Proof.
  apply (matmul_with_mask_entries Matmul.matmul_2d).
  intros index.
  destruct index as [|i [|j [|k index]]].
  - split; reflexivity.
  - destruct i as [|[|i]]; simpl; rewrite ?nth_error_nil; split; reflexivity.
  - destruct i as [|[|i]], j as [|[|j]]; simpl; rewrite ?nth_error_nil;
      split; intros E; (reflexivity || discriminate E).
  - destruct i as [|[|i]], j as [|[|j]]; simpl; rewrite ?nth_error_nil;
      split; intros E; (reflexivity || discriminate E).
Defined.

(** ** [spmm_sputnik] *)

(** C10. Two calls of [spmm_sputnik] that differ only in [row_indices],
    both tensors of 32-bit integers as [data_ptr<int>()] demands, return
    the same result: the launcher never reads [row_indices]. *)
Theorem spmm_ignores_row_indices
        (b : Tensor) (row_indices row_indices' : Spmm.IntTensor)
        (values : Tensor) (row_offsets column_indices : Spmm.IntTensor)
        (m : Z) :
  Spmm.int_scalar_type row_indices = Int ->
  Spmm.int_scalar_type row_indices' = Int ->
  Spmm.spmm_sputnik b row_indices values row_offsets column_indices m =
  Spmm.spmm_sputnik b row_indices' values row_offsets column_indices m.
Proof.
  intros H H'. unfold Spmm.spmm_sputnik, Spmm.LaunchSpmm.
  rewrite H, H'. reflexivity.
Qed.

Lemma spmm_ignores_row_indices_identity :
  Spmm.spmm_sputnik Inputs.sp_dense Inputs.sp_row_indices Inputs.sp_values
                    Inputs.sp_row_offsets Inputs.sp_column_indices 2%Z =
  Spmm.spmm_sputnik Inputs.sp_dense Inputs.sp_row_indices' Inputs.sp_values
                    Inputs.sp_row_offsets Inputs.sp_column_indices 2%Z.
Proof.
  apply (spmm_ignores_row_indices Inputs.sp_dense Inputs.sp_row_indices
           Inputs.sp_row_indices'); reflexivity.
Defined.

(** The collaborator check of the specification: the identity-like sparse
    matrix times a dense matrix returns the dense matrix. *)
Lemma spmm_identity_scenario :
  Spmm.spmm_sputnik Inputs.sp_dense Inputs.sp_row_indices Inputs.sp_values
                    Inputs.sp_row_offsets Inputs.sp_column_indices 2%Z =
  Spmm.Returned Inputs.sp_dense.
Proof.
  unfold Spmm.spmm_sputnik, Spmm.LaunchSpmm, Spmm.row_times_column. simpl.
  unfold Inputs.sp_dense. do 2 f_equal.
  repeat (apply f_equal2; [f_equal; lra|]). reflexivity.
Qed.

(** ** The tiled kernel: one row, one key block *)

Section TiledRow.

Import Textbook Invariant Accumulator.

Lemma dotv_Fin x y : Tiled.dotv (map Fin x) (map Fin y) = Fin (dotR x y).
Proof.
  unfold Tiled.dotv, dotR. rewrite zip_with_map.
  change (zip_with (fun a b => smul (Fin a) (Fin b)) x y)
    with (zip_with (fun a b => Fin (Rmult a b)) x y).
  rewrite <- (map_zip_with Rmult Fin), fold_sadd_Fin, fold_left_Rplus.
  reflexivity.
Qed.

(** The statistics half of a step, on statistics that satisfy the
    invariant for the keys seen so far. *)
Lemma update_row_inv K_v seen block m s a scale accum_row :
  online_inv K_v seen m s a -> block <> [] ->
  map (fun x => smul x scale) accum_row = raw_scores block ->
  let mx' := row_max (seen ++ block) in
  let u := Tiled.update_row scale accum_row m m s in
  exists c a_old,
    Tiled.new_mi u = Fin mx' /\
    Tiled.new_m_prime u = Fin c /\
    Tiled.new_s_prime u = Fin (sumexp mx' (seen ++ block)) /\
    Tiled.attn u = map (fun it => Fin (exp (fst it - mx'))) block /\
    a = map Fin a_old /\ length a_old = K_v /\
    (forall k, (k < K_v)%nat -> nth k a_old 0 * c = accexp_at k mx' seen).
Proof.
  intros Hinv Hb Hscaled mx' u.
  pose proof (inv_new_max K_v seen block _ _ _ Hinv Hb) as Hmax.
  destruct (inv_transfer K_v seen block _ _ _ Hinv Hb)
    as (c & s_old & a_old & Hc & _ & Hs & Ha & Hlen & Hsum & Hacc).
  fold mx' in Hmax, Hc, Hsum, Hacc.
  assert (Hmi : Tiled.new_mi u = Fin mx').
  { unfold u, Tiled.update_row. simpl. rewrite Hscaled.
    unfold raw_scores. now rewrite block_max_Fin, Hmax. }
  assert (Hw : Tiled.attn u = map (fun it => Fin (exp (fst it - mx'))) block).
  { unfold u, Tiled.update_row in *. simpl in *. rewrite Hmi, Hscaled.
    unfold raw_scores. rewrite map_map. reflexivity. }
  exists c, a_old. repeat split; try assumption.
  - unfold u, Tiled.update_row in *. simpl in *. now rewrite Hmi.
  - unfold u, Tiled.update_row in *. simpl in *. rewrite Hw, Hmi, Hc, Hs.
    rewrite <- (map_map (fun it => exp (fst it - mx')) Fin), ssum_Fin.
    simpl. f_equal. rewrite sumexp_app, <- Hsum. reflexivity.
Qed.

(** A whole step.  On the first key block the statistics are the initial
    ones and the row of the output is whatever the memory holds. *)
Lemma row_step_inv K_v seen block scale accum_row row (kIsLast : bool) :
  block <> [] ->
  Forall (fun it => length (snd it) = K_v) block ->
  map (fun x => smul x scale) accum_row = raw_scores block ->
  (seen = [] /\ Tiled.m_prime row = NInf /\ Tiled.s_prime row = Fin 0) \/
  (seen <> [] /\
   online_inv K_v seen (Tiled.m_prime row) (Tiled.s_prime row)
              (Tiled.output row)) ->
  let mx' := row_max (seen ++ block) in
  let row' := Tiled.row_step scale K_v
                (match seen with [] => true | _ => false end) kIsLast
                (value_rows block) accum_row row in
  Tiled.m_prime row' = Fin mx' /\
  Tiled.s_prime row' = Fin (sumexp mx' (seen ++ block)) /\
  Tiled.output row' =
    if kIsLast then map Fin (attention_row K_v (seen ++ block))
    else map Fin (accexp K_v mx' (seen ++ block)).
Proof.
  intros Hb HF Hscaled Hrow mx' row'.
  assert (Hne : seen ++ block <> []).
  { destruct seen; [exact Hb | discriminate]. }
  assert (Hpos : sumexp mx' (seen ++ block) <> 0).
  { pose proof (sumexp_ge_1 (seen ++ block) Hne). fold mx' in H. lra. }
  assert (Hinv : exists a,
             online_inv K_v seen (Tiled.m_prime row) (Tiled.s_prime row) a /\
             (seen <> [] -> a = Tiled.output row)).
  { destruct Hrow as [(-> & Hm & Hs) | (Hs & Hinv)].
    - exists (repeat (Fin 0) K_v). split; [now repeat split | congruence].
    - now exists (Tiled.output row). }
  destruct Hinv as (a & Hinv & Hout).
  destruct (update_row_inv K_v seen block _ _ a scale accum_row Hinv Hb Hscaled)
    as (c & a_old & Hmi & Hmp & Hsp & Hw & Ha & Hlen & Hacc).
  fold mx' in Hmi, Hmp, Hsp, Hw, Hacc.
  unfold row', Tiled.row_step. cbn [Tiled.m_prime Tiled.s_prime Tiled.output].
  split; [exact Hmi|]. split; [exact Hsp|].
  rewrite Hsp, Hmp, Hw. unfold Tiled.mma_pv_row, value_rows.
  rewrite (weighted_rows_Fin K_v (fun x => exp (x - mx')) block HF).
  unfold Tiled.rescale_row.
  assert (Halpha : (if kIsLast then sdiv (Fin 1) (Fin (sumexp mx' (seen ++ block)))
                    else Fin 1) =
                   Fin (if kIsLast then 1 / sumexp mx' (seen ++ block) else 1)).
  { destruct kIsLast; [now apply sdiv_Fin | reflexivity]. }
  rewrite Halpha. set (alpha := if kIsLast then _ else 1).
  assert (Hfinal : forall k, (k < K_v)%nat ->
            alpha * accexp_at k mx' (seen ++ block) =
            nth k (if kIsLast then attention_row K_v (seen ++ block)
                   else accexp K_v mx' (seen ++ block)) 0).
  { intros k Hk. unfold alpha. destruct kIsLast.
    - rewrite attention_row_normalize. fold mx'.
      rewrite nth_map_R by (now rewrite accexp_length).
      unfold accexp. rewrite nth_map_seq by exact Hk. unfold Rdiv. ring.
    - unfold accexp. rewrite nth_map_seq by exact Hk. ring. }
  assert (Hgoal : forall l : list R,
            length l = K_v ->
            (forall k, (k < K_v)%nat ->
               nth k l 0 = alpha * accexp_at k mx' (seen ++ block)) ->
            map Fin l =
            (if kIsLast then map Fin (attention_row K_v (seen ++ block))
             else map Fin (accexp K_v mx' (seen ++ block)))).
  { intros l Hl Hnth.
    replace (if kIsLast then map Fin (attention_row K_v (seen ++ block))
             else map Fin (accexp K_v mx' (seen ++ block)))
      with (map Fin (if kIsLast then attention_row K_v (seen ++ block)
                     else accexp K_v mx' (seen ++ block)))
      by (destruct kIsLast; reflexivity).
    f_equal. apply (nth_ext _ _ 0 0).
    - rewrite Hl. destruct kIsLast;
        [unfold attention_row; now rewrite length_map, length_seq
        | now rewrite accexp_length].
    - intros k Hk. rewrite Hl in Hk. now rewrite Hnth, Hfinal. }
  destruct seen as [|it seen].
  - (* first key block: no source *)
    rewrite map_map. simpl smul. rewrite <- (map_map _ Fin).
    apply Hgoal.
    + now rewrite !length_map, length_seq.
    + intros k Hk. rewrite nth_map_R by (now rewrite length_map, length_seq).
      rewrite nth_map_seq by exact Hk. reflexivity.
  - rewrite <- Hout, Ha by discriminate. simpl smul.
    rewrite zip_with_map. cbn [smul sadd].
    rewrite <- (map_zip_with (fun x y => alpha * x + alpha * c * y) Fin).
    apply Hgoal.
    + rewrite length_zip_with, !length_map, length_seq. lia.
    + intros k Hk.
      rewrite (zip_with_seq (fun x y => alpha * x + alpha * c * y) _ _ K_v)
        by (now rewrite ?length_map, ?length_seq).
      rewrite !nth_map_seq by exact Hk.
      rewrite accexp_at_app, <- Hacc by exact Hk.
      unfold accexp_at. ring.
Qed.

End TiledRow.

(** ** The tiled kernel: the loop over the key blocks *)

Section TiledBlock.

Import Textbook Invariant Accumulator.

Variables kQueriesPerBlock kKeysPerBlock : nat.
Variables K K_v M N : nat.
Variables q k v : list R.
Variable block_y : nat.

Hypothesis HkK : (1 <= kKeysPerBlock)%nat.
Hypothesis HK : (1 <= K)%nat.
Hypothesis Hv : length v = (N * K_v)%nat.

Let p := Tiled.mkParams (map Fin q) (map Fin k) (map Fin v) K K_v M N.
Let query_start := (block_y * kQueriesPerBlock)%nat.
Let rows := Nat.min kQueriesPerBlock (M - query_start).
Let T := Nat.div (N + kKeysPerBlock - 1) kKeysPerBlock.

Let sc (r l : nat) : R :=
  scaled_score K (row_at q M K 0 (query_start + r)) (row_at k N K 0 l).
Let vr (l : nat) : list R := row_at v N K_v 0 l.
Let items (r n : nat) : list item := map (fun l => (sc r l, vr l)) (seq O n).
Let block (r start n : nat) : list item :=
  map (fun c => (sc r (start + c), vr (start + c))%nat) (seq O n).

Lemma T_spec t : (t < T)%nat <-> (t * kKeysPerBlock < N)%nat.
Proof.
  unfold T. split; intros H.
  - destruct (Nat.lt_ge_cases (t * kKeysPerBlock) N) as [|Hge]; [assumption|].
    exfalso. apply (Nat.lt_irrefl t). eapply Nat.lt_le_trans; [exact H|].
    apply Nat.lt_succ_r. apply Nat.Div0.div_lt_upper_bound; lia.
  - apply Nat.div_le_lower_bound; lia.
Qed.

Lemma seq_offset a n : seq a n = map (Nat.add a) (seq O n).
Proof.
  revert a. induction n as [|n IH]; intros a; simpl; [reflexivity|].
  rewrite Nat.add_0_r. f_equal. rewrite (IH (Datatypes.S a)), <- seq_shift, map_map.
  apply map_ext. intros. lia.
Qed.

Lemma items_app r a n : items r (a + n) = items r a ++ block r a n.
Proof.
  unfold items, block. rewrite seq_app, map_app. f_equal.
  simpl. now rewrite (seq_offset a n), map_map.
Qed.

Lemma vr_length l : (l < N)%nat -> length (vr l) = K_v.
Proof. intros H. apply (row_at_length v 1 N K_v 0 l); lia. Qed.

Lemma tile_Fin (d : list R) n1 ld start n :
  Tiled.tile (map Fin d) ld start n ld =
  map (fun r => map Fin (row_at d n1 ld 0 (start + r))) (seq O n).
Proof.
  unfold Tiled.tile, row_at. apply map_ext. intros r.
  now rewrite skipn_map, firstn_map.
Qed.

Lemma scale_Fin :
  sdiv (Fin 1) (Fin (sqrt (INR K))) = Fin (1 / sqrt (INR K)).
Proof.
  apply sdiv_Fin. apply Rgt_not_eq, sqrt_lt_R0, lt_0_INR. lia.
Qed.

(** The rows of a block state in the course of the loop, [t] key blocks
    having been folded in. *)
Let row_inv (t r : nat) (row : Tiled.row_state) : Prop :=
  (t = O -> Tiled.m_prime row = NInf /\ Tiled.s_prime row = Fin 0) /\
  ((1 <= t)%nat -> (t * kKeysPerBlock < N)%nat ->
   online_inv K_v (items r (t * kKeysPerBlock))
              (Tiled.m_prime row) (Tiled.s_prime row) (Tiled.output row)) /\
  ((1 <= t)%nat -> (N <= t * kKeysPerBlock)%nat ->
   Tiled.output row = map Fin (attention_row K_v (items r N))).

Let block_inv (t : nat) (st : list Tiled.row_state) : Prop :=
  length st = rows /\
  forall r row, nth_error st r = Some row -> row_inv t r row.

Lemma key_block_step_inv t st :
  (t * kKeysPerBlock < N)%nat -> block_inv t st ->
  block_inv (Datatypes.S t)
    (Tiled.key_block_step kQueriesPerBlock kKeysPerBlock p query_start
                          (t * kKeysPerBlock) st).
Proof.
  intros Ht (Hlen & Hrows).
  set (start := (t * kKeysPerBlock)%nat) in *.
  set (n := Nat.min kKeysPerBlock (N - start)).
  assert (Hn : (1 <= n)%nat) by (unfold n; lia).
  unfold Tiled.key_block_step, p.
  cbn [Tiled.query_ptr Tiled.key_ptr Tiled.value_ptr Tiled.head_dim
       Tiled.head_dim_value Tiled.num_queries Tiled.num_keys].
  fold query_start rows start n.
  rewrite (tile_Fin q M K query_start rows), (tile_Fin k N K start n),
    (tile_Fin v N K_v start n), scale_Fin.
  unfold Tiled.mma_qk. rewrite map_map. split.
  - now rewrite length_zip_with, length_map, length_seq, Hlen, Nat.min_id.
  - intros r row'. rewrite nth_error_zip_with, nth_error_map.
    destruct (nth_error (seq O rows) r) as [r0|] eqn:Er; [|discriminate].
    assert (Hr : (r < length (seq O rows))%nat)
      by (apply nth_error_Some; congruence).
    rewrite length_seq in Hr.
    rewrite nth_error_nth' with (d := O) in Er by (now rewrite length_seq).
    rewrite seq_nth in Er by exact Hr. injection Er as <-. simpl.
    destruct (nth_error st r) as [row|] eqn:Erow; [|discriminate].
    intros Hrow'. injection Hrow' as <-.
    specialize (Hrows r row Erow). destruct Hrows as (H0 & Hrun & _).
    rewrite map_map.
    assert (Hfirst : (start =? 0)%nat =
                     match items r start with [] => true | _ => false end).
    { unfold items. destruct start; reflexivity. }
    rewrite Hfirst.
    assert (Hvt : map (fun c => map Fin (row_at v N K_v 0 (start + c))) (seq O n)
                  = value_rows (block r start n)).
    { unfold value_rows, block. now rewrite map_map. }
    rewrite Hvt.
    pose proof (row_step_inv K_v (items r start) (block r start n)
                  (Fin (1 / sqrt (INR K)))
                  (map (fun c => Tiled.dotv
                          (map Fin (row_at q M K 0 (query_start + r)))
                          (map Fin (row_at k N K 0 (start + c)))) (seq O n))
                  row (N <=? start + kKeysPerBlock)%nat) as Hstep.
    cbv zeta in Hstep.
    destruct Hstep as (Hm & Hs & Ho).
    + unfold block. destruct n; [lia | discriminate].
    + unfold block. apply Forall_map, Forall_forall. intros c Hc.
      apply in_seq in Hc. simpl. apply vr_length. unfold n in Hc. lia.
    + unfold raw_scores, block. rewrite !map_map. apply map_ext. intros c.
      rewrite dotv_Fin. simpl. f_equal. unfold sc, scaled_score, Rdiv. ring.
    + destruct (Nat.eq_dec t 0) as [E|E].
      * left. destruct (H0 E). unfold start. rewrite E. simpl. auto.
      * right. assert (Hrun' := Hrun ltac:(lia) Ht). split; [|exact Hrun'].
        unfold items. destruct start eqn:Es; [|discriminate].
        unfold start in Es. nia.
    + rewrite <- items_app in Hm, Hs, Ho.
      assert (Hne : items r (start + n) <> []).
      { unfold items. rewrite Nat.add_comm. destruct n; [lia|discriminate]. }
      split; [intros E; discriminate E|]. split.
      * intros _ Hnext. simpl in Hnext. fold start in Hnext.
        assert (Hn' : (start + n = kKeysPerBlock + start)%nat) by (unfold n; lia).
        destruct (Nat.leb_spec N (start + kKeysPerBlock)) as [|_]; [lia|].
        simpl. fold start. rewrite <- Hn'.
        now apply online_inv_intro.
      * intros _ Hdone. simpl in Hdone. fold start in Hdone.
        assert (Hn' : (start + n = N)%nat) by (unfold n; lia).
        destruct (Nat.leb_spec N (start + kKeysPerBlock)) as [_|]; [|lia].
        now rewrite <- Hn'.
Qed.

Lemma key_loop_inv_tiled source t :
  length source = rows -> (t <= T)%nat ->
  block_inv t
    (fold_left (fun st iter_key_start =>
                  Tiled.key_block_step kQueriesPerBlock kKeysPerBlock p
                                       query_start iter_key_start st)
               (map (fun t => t * kKeysPerBlock)%nat (seq O t))
               (Tiled.block_init source)).
Proof.
  intros Hsrc. induction t as [|t IH]; intros Ht.
  - simpl. split; [unfold Tiled.block_init; now rewrite length_map|].
    intros r row Hrow. unfold Tiled.block_init in Hrow.
    rewrite nth_error_map in Hrow.
    destruct (nth_error source r); [|discriminate]. injection Hrow as <-.
    repeat split; intros; simpl; (reflexivity || lia).
  - rewrite seq_S, map_app, fold_left_app. simpl.
    apply key_block_step_inv; [apply T_spec; lia | apply IH; lia].
Qed.

Lemma map_eq_seq {A B : Type} (f : A -> B) (g : nat -> B) l :
  (forall r x, nth_error l r = Some x -> f x = g r) ->
  map f l = map g (seq O (length l)).
Proof.
  revert g. induction l as [|a l IH]; intros g H; simpl; [reflexivity|].
  f_equal; [apply (H O a eq_refl)|].
  rewrite <- seq_shift, map_map. apply IH.
  intros r x Hx. apply (H (Datatypes.S r) x Hx).
Qed.

(** Whatever the block sizes, the rows a thread block leaves in the
    output are the textbook rows for the scaled scores. *)
Lemma tiled_block_textbook source :
  (1 <= N)%nat -> length source = rows ->
  Tiled.attention_kernel kQueriesPerBlock kKeysPerBlock p block_y source =
  map (fun r => map Fin (attention_row K_v
                           (items_of (scaled_score K) q k v M N K K_v
                                     0 (query_start + r))))
      (seq O rows).
Proof.
  intros HN Hsrc. unfold Tiled.attention_kernel, Tiled.key_starts.
  simpl. fold query_start T.
  destruct (key_loop_inv_tiled source T Hsrc (le_n T)) as (Hlen & Hrows).
  rewrite <- Hlen. apply map_eq_seq. intros r row Hrow.
  destruct (Hrows r row Hrow) as (_ & _ & Hdone).
  assert (HT : (1 <= T)%nat) by (apply T_spec; lia).
  apply Hdone; [exact HT|].
  destruct (Nat.lt_ge_cases (T * kKeysPerBlock) N) as [Hlt|]; [|assumption].
  apply T_spec in Hlt. lia.
Qed.

End TiledBlock.

(** ** The scale [1 / sqrt(K)] *)

Section Scale.

Import Textbook.

Lemma sqrt_INR_4 : sqrt (INR 4) = 2.
Proof.
  replace (INR 4) with (2 * 2) by (simpl; lra).
  apply sqrt_square. lra.
Qed.

Lemma dotR_scale_inputs : dotR Inputs.scale_q Inputs.scale_k = 2.
Proof. unfold dotR. simpl. lra. Qed.

(** The first feature of the textbook row of a query with two keys, the
    first of which has the larger score and carries the value 1. *)
Lemma two_key_first_feature s0 s1 :
  s1 <= s0 ->
  hd 0 (attention_row 4 [(s0, [1; 0; 0; 0]); (s1, [0; 0; 0; 0])]) =
  1 / (1 + exp (s1 - s0)).
Proof.
  intros H. unfold attention_row, softmax, exps, row_max. simpl.
  rewrite Rmax_left by lra. rewrite Rminus_diag, exp_0.
  pose proof (exp_pos (s1 - s0)). field. lra.
Qed.

End Scale.

(** ** Block sizes the tiled kernel is instantiated with *)

Section AdmittedBlocks.

Import Launch.

Lemma warps_of_multiples a b :
  kNumWarpsPerBlock (32 * a) (32 * b) = (a * b)%nat.
Proof.
  unfold kNumWarpsPerBlock.
  replace (32 * a * (32 * b))%nat with (a * b * (32 * 32))%nat by lia.
  now apply Nat.div_mul.
Qed.

Lemma static_asserts_multiples kQueriesPerBlock kKeysPerBlock :
  static_asserts kQueriesPerBlock kKeysPerBlock = true ->
  exists a b,
    (1 <= a /\ 2 <= b /\
     kQueriesPerBlock = 32 * a /\ kKeysPerBlock = 32 * b)%nat.
Proof.
  unfold static_asserts, kWarpSize. intros H.
  apply andb_prop in H. destruct H as (H & H3).
  apply andb_prop in H. destruct H as (H1 & H2).
  apply Nat.eqb_eq in H1, H2. apply Nat.ltb_lt in H3.
  exists (kQueriesPerBlock / 32)%nat, (kKeysPerBlock / 32)%nat.
  pose proof (Nat.div_mod_eq kQueriesPerBlock 32) as Eq.
  pose proof (Nat.div_mod_eq kKeysPerBlock 32) as Ek.
  rewrite H1, Nat.add_0_r in Eq. rewrite H2, Nat.add_0_r in Ek.
  set (a := (kQueriesPerBlock / 32)%nat) in *.
  set (b := (kKeysPerBlock / 32)%nat) in *.
  rewrite Eq, Ek in H3. rewrite warps_of_multiples in H3.
  repeat split; try assumption; nia.
Qed.

End AdmittedBlocks.

(** ** The two-key input: a query against two keys *)

Section TwoKeys.

Import Textbook.

Lemma two_key_items_unscaled :
  items_of dotR Inputs.scale_q Inputs.two_key_k Inputs.two_key_v 1 2 4 4 0 0 =
  [(2, [1; 0; 0; 0]); (0, [0; 0; 0; 0])].
Proof.
  unfold items_of, row_at, dotR. simpl. repeat (f_equal; try lra).
Qed.

Lemma two_key_items_scaled :
  items_of (scaled_score 4) Inputs.scale_q Inputs.two_key_k Inputs.two_key_v
           1 2 4 4 0 0 =
  [(1, [1; 0; 0; 0]); (0, [0; 0; 0; 0])].
Proof.
  unfold items_of, row_at, scaled_score, dotR. rewrite sqrt_INR_4. simpl.
  repeat (f_equal; try lra).
Qed.

(** The textbook rows for the scores (2, 0) and (1, 0) differ in their
    first feature, [1 / (1 + exp (-2))] against [1 / (1 + exp (-1))]. *)
Lemma two_key_rows_differ :
  map Fin (attention_row 4 [(2, [1; 0; 0; 0]); (0, [0; 0; 0; 0])]) <>
  map Fin (attention_row 4 [(1, [1; 0; 0; 0]); (0, [0; 0; 0; 0])]).
Proof.
  intros E.
  apply (f_equal (fun l => hd 0 (map (fun x => match x with
                                               | Fin r => r
                                               | _ => 0
                                               end) l))) in E.
  rewrite !map_map, !map_id in E.
  rewrite (two_key_first_feature 2 0), (two_key_first_feature 1 0) in E by lra.
  assert (Hlt : exp (0 - 2) < exp (0 - 1)) by (apply exp_increasing; lra).
  pose proof (exp_pos (0 - 2)) as Hp2. pose proof (exp_pos (0 - 1)) as Hp1.
  apply (f_equal (fun x => 1 / x)) in E.
  replace (1 / (1 / (1 + exp (0 - 2)))) with (1 + exp (0 - 2)) in E
    by (field; lra).
  replace (1 / (1 / (1 + exp (0 - 1)))) with (1 + exp (0 - 1)) in E
    by (field; lra).
  lra.
Qed.

End TwoKeys.

(** C3 at the failing input, Query [[2,0,0,0]] and Key [[1,0,0,0]] with
    [K = 4]: the claimed raw score is [2 / sqrt 4 = 1]; the scalar kernel
    computes the dot product 2 and folds it unscaled (it is the running
    max after the key); the tiled kernel's updater, called with the scale
    of line 423 on the same dot product, folds 1. *)
Theorem scalar_kernel_folds_unscaled_score :
  Textbook.scaled_score 4 Inputs.scale_q Inputs.scale_k = 1 /\
  Cpu.dot 4 (row_ptr Inputs.scale_query 0 0) (row_ptr Inputs.scale_key 0 0) =
    Some (Fin (Textbook.dotR Inputs.scale_q Inputs.scale_k)) /\
  Textbook.dotR Inputs.scale_q Inputs.scale_k = 2 /\
  (exists st,
     Cpu.key_loop 4 1 Inputs.scale_query Inputs.scale_key Inputs.scale_value
                  0 0 = Some st /\
     Cpu.m_prime st = Fin 2) /\
  Tiled.new_mi
    (Tiled.update_row (sdiv (Fin 1) (Fin (sqrt (INR 4))))
       [Tiled.dotv (map Fin Inputs.scale_q) (map Fin Inputs.scale_k)]
       NInf NInf (Fin 0)) = Fin 1.
Proof.
  split; [|split; [|split; [|split]]].
  - unfold Textbook.scaled_score. rewrite dotR_scale_inputs, sqrt_INR_4. lra.
  - reflexivity.
  - apply dotR_scale_inputs.
  - destruct (row_kernel_real 1 1 1 4 Inputs.scale_q Inputs.scale_k
                Inputs.scale_v eq_refl eq_refl eq_refl (le_n 1) 0 0)
      as (st & Hrow & Hm & _); try lia.
    exists st. split.
    + unfold Cpu.row_kernel in Hrow.
      change (Cpu.key_loop 4 1 Inputs.scale_query Inputs.scale_key
                Inputs.scale_value 0 0)
        with (Cpu.key_loop 4 1 (mkAccessor (map Fin Inputs.scale_q) 1 1 4)
                (mkAccessor (map Fin Inputs.scale_k) 1 1 4)
                (mkAccessor (map Fin Inputs.scale_v) 1 1 4) 0 0).
      destruct (Cpu.key_loop 4 1 _ _ _ 0 0) as [st0|]; [|discriminate].
      destruct (Cpu.write_row 4 st0); [|discriminate].
      now inversion Hrow.
    + rewrite Hm. f_equal. simpl. apply dotR_scale_inputs.
  - rewrite dotv_Fin, dotR_scale_inputs, sqrt_INR_4.
    rewrite sdiv_Fin by lra.
    unfold Tiled.update_row, Accumulator.smax. simpl. f_equal. lra.
Qed.

(** C2 at the failing input, one query [[2,0,0,0]] against the keys
    [[1,0,0,0]], [[0,0,0,0]] with values [[1,0,0,0]], [[0,0,0,0]]: for
    every block size the static assertions of the tiled kernel admit, the
    tiled kernel writes the textbook row of the scaled scores, the scalar
    kernel the textbook row of the unscaled dot products, and the two
    outputs differ. *)
Theorem tiled_and_scalar_kernels_differ
        (kQueriesPerBlock kKeysPerBlock : nat) :
  Launch.static_asserts kQueriesPerBlock kKeysPerBlock = true ->
  let q := Inputs.scale_q in
  let k := Inputs.two_key_k in
  let v := Inputs.two_key_v in
  let scalar :=
    Cpu.attention_kernel Inputs.two_key_query Inputs.two_key_key
                         Inputs.two_key_value in
  let tiled :=
    Tiled.attention_kernel kQueriesPerBlock kKeysPerBlock
                           Inputs.two_key_params 0 [repeat (Fin 0) 4] in
  tiled =
    [map Fin (Textbook.attention_row 4
                (Textbook.items_of (Textbook.scaled_score 4) q k v 1 2 4 4 0 0))]
  /\
  scalar =
    Some (map Fin (Textbook.attention_row 4
                     (Textbook.items_of Textbook.dotR q k v 1 2 4 4 0 0)))
  /\
  scalar <> Some (concat tiled).
Proof.
  intros Hadm q k v scalar tiled. subst q k v.
  destruct (static_asserts_multiples _ _ Hadm) as (a & b & Ha & Hb & Eq & Ek).
  assert (Hrows : Nat.min kQueriesPerBlock (1 - 0 * kQueriesPerBlock) = 1%nat)
    by lia.
  assert (Ht : tiled =
    [map Fin (Textbook.attention_row 4
                (Textbook.items_of (Textbook.scaled_score 4) Inputs.scale_q
                   Inputs.two_key_k Inputs.two_key_v 1 2 4 4 0 0))]).
  { unfold tiled, Inputs.two_key_params.
    rewrite (tiled_block_textbook kQueriesPerBlock kKeysPerBlock 4 4 1 2
               Inputs.scale_q Inputs.two_key_k Inputs.two_key_v 0);
      try lia; try reflexivity.
    - rewrite Hrows. reflexivity.
    - rewrite Hrows. reflexivity. }
  assert (Hs : scalar =
    Some (map Fin (Textbook.attention_row 4
                     (Textbook.items_of Textbook.dotR Inputs.scale_q
                        Inputs.two_key_k Inputs.two_key_v 1 2 4 4 0 0)))).
  { unfold scalar, Inputs.two_key_query, Inputs.two_key_key,
      Inputs.two_key_value.
    rewrite (attention_kernel_real 1 1 2 4 Inputs.scale_q Inputs.two_key_k
               Inputs.two_key_v eq_refl eq_refl eq_refl);
      [|lia].
    cbn [concat map seq]. now rewrite !app_nil_r. }
  split; [exact Ht|]. split; [exact Hs|].
  rewrite Hs, Ht. cbn [concat]. rewrite app_nil_r.
  rewrite two_key_items_unscaled, two_key_items_scaled.
  intros E. apply two_key_rows_differ.
  exact (f_equal (fun o => match o with Some l => l | None => [] end) E).
Qed.

Lemma tiled_and_scalar_kernels_differ_64_by_64 :
  let q := Inputs.scale_q in
  let k := Inputs.two_key_k in
  let v := Inputs.two_key_v in
  let scalar :=
    Cpu.attention_kernel Inputs.two_key_query Inputs.two_key_key
                         Inputs.two_key_value in
  let tiled :=
    Tiled.attention_kernel 64 64 Inputs.two_key_params 0 [repeat (Fin 0) 4] in
  Launch.static_asserts 64 64 = true /\
  tiled =
    [map Fin (Textbook.attention_row 4
                (Textbook.items_of (Textbook.scaled_score 4) q k v 1 2 4 4 0 0))]
  /\
  scalar =
    Some (map Fin (Textbook.attention_row 4
                     (Textbook.items_of Textbook.dotR q k v 1 2 4 4 0 0)))
  /\
  scalar <> Some (concat tiled).
Proof.
  intros q k v scalar tiled.
  split; [reflexivity|].
  apply (tiled_and_scalar_kernels_differ 64 64). reflexivity.
Defined.

(** C1 at the failing input, the same query and keys, [K = 4]: the raw
    scores of the row are [2 / sqrt 4 = 1] and [0], their maximum is 1
    and the softmax-weighted sum of the value rows has
    [1 / (1 + exp (-1))] as first feature; when the scalar kernel writes
    the row its running max [m_prime] is 2, the unscaled dot product, and
    the row it writes, [buf / s_prime], is the weighted sum for the
    scores 2 and 0, with first feature [1 / (1 + exp (-2))]. *)
Theorem scalar_row_max_is_unscaled :
  let raw := Textbook.items_of (Textbook.scaled_score 4) Inputs.scale_q
               Inputs.two_key_k Inputs.two_key_v 1 2 4 4 0 0 in
  Textbook.row_max raw = 1 /\
  hd 0 (Textbook.attention_row 4 raw) = 1 / (1 + exp (0 - 1)) /\
  exists st row,
    Cpu.key_loop 4 2 Inputs.two_key_query Inputs.two_key_key
                 Inputs.two_key_value 0 0 = Some st /\
    Cpu.m_prime st = Fin 2 /\
    Cpu.write_row 4 st = Some row /\
    row = map (fun b => sdiv b (Cpu.s_prime st)) (Cpu.buf st) /\
    hd NaN row = Fin (1 / (1 + exp (0 - 2))) /\
    row <> map Fin (Textbook.attention_row 4 raw).
Proof.
  intros raw. unfold raw. rewrite two_key_items_scaled.
  split; [|split].
  - unfold Textbook.row_max. simpl. apply Rmax_left. lra.
  - apply two_key_first_feature. lra.
  - destruct (row_kernel_real 1 1 2 4 Inputs.scale_q Inputs.two_key_k
                Inputs.two_key_v eq_refl eq_refl eq_refl ltac:(lia) 0 0)
      as (st & Hrow & Hm & _ & Hb & _); try lia.
    set (items := Textbook.items_of Textbook.dotR Inputs.scale_q
                    Inputs.two_key_k Inputs.two_key_v 1 2 4 4 0 0) in *.
    assert (Hlen : length (Cpu.buf st) = 4%nat)
      by (rewrite Hb, length_map; apply accexp_length).
    assert (Hk : Cpu.key_loop 4 2 Inputs.two_key_query Inputs.two_key_key
                   Inputs.two_key_value 0 0 = Some st /\
                 Cpu.write_row 4 st =
                   Some (map Fin (Textbook.attention_row 4 items))).
    { unfold Cpu.row_kernel in Hrow.
      change (mkAccessor (map Fin Inputs.scale_q) 1 1 4)
        with Inputs.two_key_query in Hrow.
      change (mkAccessor (map Fin Inputs.two_key_k) 1 2 4)
        with Inputs.two_key_key in Hrow.
      change (mkAccessor (map Fin Inputs.two_key_v) 1 2 4)
        with Inputs.two_key_value in Hrow.
      destruct (Cpu.key_loop 4 2 _ _ _ 0 0) as [st0|]; [|discriminate].
      destruct (Cpu.write_row 4 st0) as [oo|] eqn:Ew; [|discriminate].
      assert (st0 = st) by congruence. subst st0.
      split; [reflexivity|]. rewrite Ew. congruence. }
    destruct Hk as (Hloop & Hwrite).
    exists st, (map Fin (Textbook.attention_row 4 items)).
    split; [exact Hloop|]. split.
    { rewrite Hm. unfold items. rewrite two_key_items_unscaled. f_equal.
      unfold Textbook.row_max. simpl. apply Rmax_left. lra. }
    split; [exact Hwrite|]. split.
    { rewrite (write_row_map 4 st Hlen) in Hwrite. congruence. }
    unfold items. rewrite two_key_items_unscaled. split.
    { rewrite <- (two_key_first_feature 2 0) by lra.
      unfold Textbook.attention_row. reflexivity. }
    apply two_key_rows_differ.
Qed.

(** ** Every blocking of the keys *)

Section Blockings.

Import Textbook Invariant Accumulator.

Lemma fold_blocks_inv K_v blocks seen st :
  online_inv K_v seen (m st) (s st) (acc st) ->
  Forall (well_formed_block K_v) blocks ->
  let st' := fold_left (fun st block =>
                          fold_block K_v st (raw_scores block)
                                     (value_rows block))
                       blocks st in
  online_inv K_v (seen ++ concat blocks) (m st') (s st') (acc st').
Proof.
  intros Hinv HF. revert seen st Hinv.
  induction HF as [|block blocks (Hne & Hlen) HF IH]; intros seen st Hinv; simpl.
  - now rewrite app_nil_r.
  - rewrite app_assoc. apply IH.
    now apply fold_block_inv.
Qed.

Lemma fold_blocks_masked_from K_v blocks (seen : list masked_item) st :
  unmasked seen <> [] ->
  online_inv K_v (unmasked seen) (m st) (s st) (acc st) ->
  Forall (Forall (fun it : masked_item => length (snd it) = K_v)) blocks ->
  let st' := fold_left (fun st block =>
                          fold_block K_v st (masked_scores block)
                                     (masked_value_rows block))
                       blocks st in
  online_inv K_v (unmasked (seen ++ concat blocks)) (m st') (s st') (acc st').
Proof.
  intros Hne Hinv HF. revert seen st Hne Hinv.
  induction HF as [|block blocks Hlen HF IH]; intros seen st Hne Hinv; simpl.
  - now rewrite app_nil_r.
  - assert (Hne' : unmasked (seen ++ block) <> []).
    { rewrite unmasked_app. destruct (unmasked seen); [congruence|discriminate]. }
    rewrite app_assoc. apply IH; [exact Hne'|].
    now apply fold_block_masked_inv.
Qed.

(** However a sequence of keys, masked or not, is cut into blocks, if the
    first block holds a key that is not masked, the statistics after the
    last block satisfy the invariant as stated. *)
Lemma fold_blocks_masked_inv K_v first rest :
  unmasked first <> [] ->
  Forall (Forall (fun it : masked_item => length (snd it) = K_v))
         (first :: rest) ->
  let st' := fold_left (fun st block =>
                          fold_block K_v st (masked_scores block)
                                     (masked_value_rows block))
                       (first :: rest) (init K_v) in
  stated_inv K_v (concat (first :: rest)) (m st') (s st') (acc st').
Proof.
  intros Hne HF st'. inversion HF as [|? ? Hfirst Hrest]; subst.
  assert (Hc : unmasked (first ++ concat rest) <> []).
  { rewrite unmasked_app. destruct (unmasked first); [congruence|discriminate]. }
  apply stated_inv_unmasked; [now right | |].
  - simpl. apply Forall_app. split; [exact Hfirst|].
    apply Forall_concat. exact Hrest.
  - unfold st'. simpl.
    apply (fold_blocks_masked_from K_v rest first); [exact Hne | | exact Hrest].
    apply (fold_block_masked_inv K_v [] first (init K_v));
      [repeat split | exact Hne | exact Hfirst].
Qed.

(** However the keys of a row are cut into blocks, folding the blocks in
    order and finalizing gives the textbook row. *)
Lemma fold_blocks_textbook K_v blocks :
  blocks <> [] ->
  Forall (well_formed_block K_v) blocks ->
  finalize (fold_left (fun st block =>
                         fold_block K_v st (raw_scores block)
                                    (value_rows block))
                      blocks (init K_v)) =
  map Fin (attention_row K_v (concat blocks)).
Proof.
  intros Hne HF.
  pose proof (fold_blocks_inv K_v blocks [] (init K_v)
                (conj eq_refl (conj eq_refl eq_refl)) HF) as Hinv.
  cbv zeta in Hinv. simpl app in Hinv.
  assert (Hc : concat blocks <> []).
  { destruct HF as [|b bs (Hb & _) _]; [congruence|].
    simpl. destruct b; [congruence | discriminate]. }
  destruct (online_inv_elim _ _ _ _ _ Hc Hinv) as (_ & Hs & Ha).
  unfold finalize. rewrite Hs, Ha, map_map, attention_row_normalize, map_map.
  apply map_ext. intros a. apply sdiv_Fin.
  pose proof (sumexp_ge_1 (concat blocks) Hc). lra.
Qed.

End Blockings.

(** * Further properties of the scalar kernel *)

(** ** Reads stay inside well-shaped inputs *)

Section InBounds.

Lemma for_loop_total {S : Type} (P : S -> Prop) (body : nat -> S -> option S)
      n lo s :
  P s ->
  (forall k s, (lo <= k < lo + n)%nat -> P s ->
     exists s', body k s = Some s' /\ P s') ->
  exists s', for_loop body lo n s = Some s' /\ P s'.
Proof.
  revert lo s. induction n as [|n IH]; intros lo s Hs Hbody; simpl.
  - eauto.
  - destruct (Hbody lo s ltac:(lia) Hs) as (s1 & E & H1). rewrite E.
    apply IH; [exact H1|]. intros k s2 Hk. apply Hbody. lia.
Qed.

Lemma for_loop_preserves {S : Type} (P : S -> Prop)
      (body : nat -> S -> option S) n lo s s' :
  P s ->
  (forall k s s', body k s = Some s' -> P s -> P s') ->
  for_loop body lo n s = Some s' -> P s'.
Proof.
  revert lo s. induction n as [|n IH]; intros lo s Hs Hbody H; simpl in H.
  - now inversion H; subst.
  - destruct (body lo s) as [s1|] eqn:E; [|discriminate].
    apply (IH (Datatypes.S lo) s1); eauto.
Qed.

Lemma dot_in_bounds K aar bar :
  (K <= length aar)%nat -> (K <= length bar)%nat ->
  exists si, Cpu.dot K aar bar = Some si.
Proof.
  intros Ha Hb. unfold Cpu.dot.
  destruct (for_loop_total (fun _ => True)
              (fun k si => a <- load aar k ;; b <- load bar k ;;
                           Some (sadd si (smul a b))) K O (Fin 0) I)
    as (si & E & _); [|eauto].
  intros k s Hk _. unfold load.
  destruct (nth_error aar k) eqn:Ea; [|apply nth_error_None in Ea; lia].
  destruct (nth_error bar k) eqn:Eb; [|apply nth_error_None in Eb; lia].
  eauto.
Qed.

Lemma row_ptr_length (t : TensorAccessor3) i j :
  Shape.well_formed t -> (i < size0 t)%nat -> (j < size1 t)%nat ->
  (size2 t <= length (row_ptr t i j))%nat.
Proof.
  intros Hwf Hi Hj. unfold row_ptr. rewrite length_skipn, Hwf.
  assert ((Datatypes.S j * size2 t <= size1 t * size2 t)%nat)
    by (apply Nat.mul_le_mono_r; lia).
  assert ((Datatypes.S i * (size1 t * size2 t) <= size0 t * (size1 t * size2 t))%nat)
    by (apply Nat.mul_le_mono_r; lia).
  lia.
Qed.

Lemma fold_key_in_bounds K si vi st :
  length (Cpu.buf st) = K -> (K <= length vi)%nat ->
  exists st', Cpu.fold_key K si vi st = Some st' /\ length (Cpu.buf st') = K.
Proof.
  intros Hb Hv. unfold Cpu.fold_key.
  rewrite accumulate_pointwise by assumption.
  eexists. split; [reflexivity|]. simpl.
  rewrite length_zip_with, length_firstn. lia.
Qed.

Lemma row_kernel_in_bounds query key value i j :
  Shape.consistent query key value ->
  (i < size0 query)%nat -> (j < size1 query)%nat ->
  exists oo st,
    Cpu.row_kernel (size2 query) (size1 key) query key value i j =
      Some (oo, st) /\
    length oo = size2 query.
Proof.
  intros (Hq & Hk & Hv & Hk0 & Hk2 & Hv0 & Hv1 & Hv2) Hi Hj.
  unfold Cpu.row_kernel, Cpu.key_loop.
  destruct (for_loop_total
              (fun st => length (Cpu.buf st) = size2 query)
              (Cpu.key_body (size2 query) (row_ptr query i j) key value i)
              (size1 key) O (Cpu.row_init (size2 query)))
    as (st & E & Hlen).
  - apply repeat_length.
  - intros l st Hl Hst. unfold Cpu.key_body.
    destruct (dot_in_bounds (size2 query) (row_ptr query i j) (row_ptr key i l))
      as (si & ->).
    + now apply row_ptr_length.
    + rewrite <- Hk2. apply row_ptr_length; [assumption | lia | lia].
    + apply fold_key_in_bounds; [exact Hst|].
      rewrite <- Hv2. apply row_ptr_length; [assumption | lia | lia].
  - rewrite E, (write_row_map _ st Hlen).
    eexists _, st. split; [reflexivity|]. now rewrite length_map.
Qed.

Lemma collect_Forall {A : Type} (P : A -> Prop) (f : nat -> option A) n lo xs :
  (forall k x, f k = Some x -> P x) ->
  collect f lo n = Some xs -> length xs = n /\ Forall P xs.
Proof.
  intros HP. revert lo xs. induction n as [|n IH]; intros lo xs H; simpl in H.
  - inversion H. split; [reflexivity | constructor].
  - destruct (f lo) as [x|] eqn:E; [|discriminate].
    destruct (collect f (Datatypes.S lo) n) as [ys|] eqn:Ec; [|discriminate].
    inversion H; subst. destruct (IH _ _ Ec) as (Hl & HF).
    split; [simpl; lia | constructor; eauto].
Qed.

Lemma length_concat_chunks {A : Type} (chunks : list (list A)) K :
  Forall (fun c => length c = K) chunks ->
  length (concat chunks) = (length chunks * K)%nat.
Proof.
  induction 1 as [|c chunks Hc HF IH]; simpl; [reflexivity|].
  rewrite length_app, IH, Hc. lia.
Qed.

Lemma write_row_length K st oo :
  Cpu.write_row K st = Some oo -> length oo = K.
Proof.
  unfold Cpu.write_row.
  assert (H : forall n lo oo0 oo,
             for_loop (fun k oo => b <- load (Cpu.buf st) k ;;
                                   Some (oo ++ [sdiv b (Cpu.s_prime st)]))
                      lo n oo0 = Some oo ->
             length oo = (length oo0 + n)%nat).
  { induction n as [|n IH]; intros lo oo0 oo' H; simpl in H.
    - inversion H. lia.
    - destruct (load (Cpu.buf st) lo); [|discriminate].
      apply IH in H. rewrite H, length_app. simpl. lia. }
  intros E. apply H in E. simpl in E. exact E.
Qed.

Lemma attention_kernel_length query key value out :
  Cpu.attention_kernel query key value = Some out ->
  length out = (size0 query * size1 query * size2 query)%nat.
Proof.
  unfold Cpu.attention_kernel.
  set (K := size2 query). set (N := size1 key).
  set (M := size1 query). set (B := size0 query).
  set (row := fun i j =>
                match Cpu.row_kernel K N query key value i j with
                | Some r => Some (fst r)
                | None => None
                end).
  set (batch := fun i => match collect (row i) O M with
                         | Some cs => Some (concat cs)
                         | None => None
                         end).
  rewrite (for_loop_ext _ (fun i out => c <- batch i ;; Some (out ++ c))).
  - rewrite (for_loop_collect batch).
    destruct (collect batch O B) as [cs|] eqn:E; [|discriminate].
    intros H. inversion H. simpl.
    destruct (collect_Forall (fun c => length c = (M * K)%nat) batch B O cs)
      as (Hl & HF); [|exact E|].
    + intros i c Hc. unfold batch in Hc.
      destruct (collect (row i) O M) as [rs|] eqn:Er; [|discriminate].
      inversion Hc.
      destruct (collect_Forall (fun r => length r = K) (row i) M O rs)
        as (Hl & HF); [|exact Er|].
      * intros j r Hr. unfold row in Hr.
        destruct (Cpu.row_kernel K N query key value i j) as [[oo st]|] eqn:Ek;
          [|discriminate].
        inversion Hr; subst. simpl. unfold Cpu.row_kernel in Ek.
        destruct (Cpu.key_loop K N query key value i j); [|discriminate].
        destruct (Cpu.write_row K r0) eqn:Ew; [|discriminate].
        inversion Ek; subst. now apply write_row_length in Ew.
      * rewrite (length_concat_chunks rs K HF), Hl. reflexivity.
    + rewrite (length_concat_chunks cs (M * K) HF), Hl. lia.
  - intros i out0 Hi. unfold batch.
    rewrite (for_loop_ext _ (fun j out => c <- row i j ;; Some (out ++ c))).
    + rewrite (for_loop_collect (row i)).
      destruct (collect (row i) O M); reflexivity.
    + intros j out1 Hj. unfold row.
      destruct (Cpu.row_kernel K N query key value i j); reflexivity.
Qed.

End InBounds.

Lemma for_loop_fails {S : Type} (body : nat -> S -> option S) n lo s t :
  (t < n)%nat -> (forall s, body (lo + t)%nat s = None) ->
  for_loop body lo n s = None.
Proof.
  revert lo s t. induction n as [|n IH]; intros lo s t Ht H; [lia|]. simpl.
  destruct t as [|t].
  - rewrite Nat.add_0_r in H. now rewrite H.
  - destruct (body lo s) as [s1|]; [|reflexivity].
    apply (IH (Datatypes.S lo) s1 t); [lia|].
    intros s2. rewrite <- (H s2). f_equal. lia.
Qed.

(** Every row being computed within bounds, so is the whole output. *)
Lemma rows_in_bounds (query key value : TensorAccessor3) :
  (forall i j, (i < size0 query)%nat -> (j < size1 query)%nat ->
     exists oo st,
       Cpu.row_kernel (size2 query) (size1 key) query key value i j =
         Some (oo, st)) ->
  exists out, Cpu.attention_kernel query key value = Some out.
Proof.
  intros H.
  set (g := fun i j =>
              match Cpu.row_kernel (size2 query) (size1 key) query key value i j
              with
              | Some r => fst r
              | None => []
              end).
  exists (concat (map (fun i => concat (map (g i) (seq O (size1 query))))
                      (seq O (size0 query)))).
  apply attention_kernel_rows. intros i j Hi Hj.
  destruct (H i j Hi Hj) as (oo & st & Ek).
  exists st. unfold g. now rewrite Ek.
Qed.

(** X1. On inputs of consistent shapes (Key with the batch count and the
    feature dimension of Query, Value of sizes [(B, N, K)], each storage
    holding one element per index) the scalar kernel reads no element
    outside its inputs, whatever the elements are, NaN and the infinities
    included, and writes [B * M * K] elements. *)
Theorem scalar_kernel_stays_in_bounds (query key value : TensorAccessor3) :
  Shape.consistent query key value ->
  exists out,
    Cpu.attention_kernel query key value = Some out /\
    length out = (size0 query * size1 query * size2 query)%nat.
Proof.
  intros H.
  destruct (rows_in_bounds query key value) as (out & E).
  - intros i j Hi Hj.
    destruct (row_kernel_in_bounds query key value i j H Hi Hj)
      as (oo & st & Ek & _).
    now exists oo, st.
  - exists out. split; [exact E|].
    now apply attention_kernel_length in E.
Qed.

Lemma scalar_kernel_stays_in_bounds_nan_input :
  let query := mkAccessor [NaN; PInf] 1 1 2 in
  let key := mkAccessor [Fin 1; NInf; Fin 0; NaN] 1 2 2 in
  let value := mkAccessor [Fin 1; Fin 2; PInf; Fin 4] 1 2 2 in
  Shape.consistent query key value /\
  exists out,
    Cpu.attention_kernel query key value = Some out /\
    length out = (size0 query * size1 query * size2 query)%nat.
Proof.
  intros query key value.
  assert (H : Shape.consistent query key value)
    by (unfold Shape.consistent, Shape.well_formed; simpl; repeat split).
  split; [exact H|].
  exact (scalar_kernel_stays_in_bounds query key value H).
Defined.

(** X2. The kernel reads [K] elements of every value row, [K] being the
    feature dimension of Query: when the storage of Value ends less than
    [K] elements after the start of the row of some key [(i, l)], the
    kernel makes a read out of bounds (past the end of Value, if not of
    Query or Key before), provided there is a query row to compute. *)
Theorem short_value_is_read_out_of_bounds
        (query key value : TensorAccessor3) (i l : nat) :
  (i < size0 query)%nat -> (1 <= size1 query)%nat -> (l < size1 key)%nat ->
  (length (row_ptr value i l) < size2 query)%nat ->
  Cpu.attention_kernel query key value = None.
Proof.
  intros Hi HM Hl Hshort. unfold Cpu.attention_kernel.
  apply (for_loop_fails _ (size0 query) O [] i Hi). intros out. simpl.
  apply (for_loop_fails _ (size1 query) O out O HM). intros out'. simpl.
  assert (E : Cpu.row_kernel (size2 query) (size1 key) query key value i 0 = None);
    [|now rewrite E].
  unfold Cpu.row_kernel, Cpu.key_loop.
  rewrite (for_loop_fails _ (size1 key) O _ l Hl); [reflexivity|].
  intros st. simpl. unfold Cpu.key_body.
  destruct (Cpu.dot _ _ _) as [si|]; [|reflexivity].
  unfold Cpu.fold_key, Cpu.accumulate.
  rewrite (for_loop_fails _ (size2 query) O _ (length (row_ptr value i l)) Hshort);
    [reflexivity|].
  intros b. simpl. destruct (load b _); [|reflexivity].
  unfold load. now rewrite (proj2 (nth_error_None _ _) (le_n _)).
Qed.

Lemma short_value_is_read_out_of_bounds_narrow_value :
  let query := mkAccessor [Fin 1; Fin 0] 1 1 2 in
  let key := mkAccessor [Fin 1; Fin 0] 1 1 2 in
  let value := mkAccessor [Fin 5] 1 1 1 in
  Cpu.attention_kernel query key value = None.
Proof.
  intros query key value.
  apply (short_value_is_read_out_of_bounds query key value 0 0); simpl; lia.
Defined.

(** ** Rows of real inputs *)

Section RealRows.

Import Textbook.

(** Row [(i, j)] of what the kernel writes for inputs of real numbers. *)
Lemma output_row_real B M N K (q k v : list R) i j :
  length q = (B * M * K)%nat -> length k = (B * N * K)%nat ->
  length v = (B * N * K)%nat -> (1 <= N)%nat ->
  (i < B)%nat -> (j < M)%nat ->
  exists out,
    Cpu.attention_kernel (mkAccessor (map Fin q) B M K)
                         (mkAccessor (map Fin k) B N K)
                         (mkAccessor (map Fin v) B N K) = Some out /\
    firstn K (row_ptr (mkAccessor out B M K) i j) =
      map Fin (attention_row K (items_of dotR q k v M N K K i j)).
Proof.
  intros Hq Hk Hv HN Hi Hj. eexists.
  split; [apply (attention_kernel_real B M N K q k v Hq Hk Hv HN)|].
  rewrite (output_row
             (fun i j => map Fin (attention_row K
                           (items_of dotR q k v M N K K i j)))
             B M K i j); try assumption.
  - reflexivity.
  - intros. unfold attention_row. now rewrite !length_map, length_seq.
Qed.

Lemma accexp_at_bounds lo hi k mx items :
  (forall it, In it items -> lo <= nth k (snd it) 0 <= hi) ->
  lo * sumexp mx items <= accexp_at k mx items <= hi * sumexp mx items.
Proof.
  unfold sumexp, exps, accexp_at.
  induction items as [|it items IH]; intros H; simpl; [lra|].
  destruct IH as (IH1 & IH2); [intros; apply H; now right|].
  destruct (H it (or_introl eq_refl)) as (H1 & H2).
  pose proof (exp_pos (fst it - mx)) as He.
  set (e := exp (fst it - mx)) in *. set (x := nth k (snd it) 0) in *.
  assert (0 <= e * (x - lo)) by (apply Rmult_le_pos; lra).
  assert (0 <= e * (hi - x)) by (apply Rmult_le_pos; lra).
  split; lra.
Qed.

Lemma attention_row_bounds lo hi K items :
  items <> [] ->
  (forall it k, In it items -> (k < K)%nat -> lo <= nth k (snd it) 0 <= hi) ->
  Forall (fun x => lo <= x <= hi) (attention_row K items).
Proof.
  intros Hne H. rewrite attention_row_normalize. unfold accexp.
  rewrite map_map. apply Forall_forall. intros x Hx.
  apply in_map_iff in Hx. destruct Hx as (k & <- & Hk).
  apply in_seq in Hk.
  pose proof (sumexp_ge_1 items Hne) as HS.
  destruct (accexp_at_bounds lo hi k (row_max items) items) as (H1 & H2);
    [intros; apply H; [assumption | lia]|].
  set (S := sumexp (row_max items) items) in *.
  set (a := accexp_at k (row_max items) items) in *.
  assert (HSi : 0 < / S) by (apply Rinv_0_lt_compat; lra).
  assert (HSS : S * / S = 1) by (apply Rinv_r; lra).
  assert (0 <= (a - lo * S) * / S) by (apply Rmult_le_pos; lra).
  assert (0 <= (hi * S - a) * / S) by (apply Rmult_le_pos; lra).
  assert (lo * S * / S = lo) by (rewrite Rmult_assoc, HSS; lra).
  assert (hi * S * / S = hi) by (rewrite Rmult_assoc, HSS; lra).
  unfold Rdiv. split; lra.
Qed.

Lemma row_at_incl (d : list R) n1 n2 i j x :
  In x (row_at d n1 n2 i j) -> In x d.
Proof.
  unfold row_at. intros H.
  rewrite <- (firstn_skipn (i * (n1 * n2) + j * n2) d).
  apply in_or_app. right.
  rewrite <- (firstn_skipn n2 (skipn _ d)).
  apply in_or_app. now left.
Qed.

Lemma row_at_map (f : R -> R) d n1 n2 i j :
  row_at (map f d) n1 n2 i j = map f (row_at d n1 n2 i j).
Proof. unfold row_at. now rewrite skipn_map, firstn_map. Qed.

Lemma Rsum_zip_scale c x y :
  Rsum (zip_with Rmult (map (fun a => a / c) x) y) =
  Rsum (zip_with Rmult x y) / c.
Proof.
  revert y. induction x as [|a x IH]; intros [|b y]; simpl;
    try (unfold Rdiv; lra).
  rewrite IH. unfold Rdiv. lra.
Qed.

Lemma dotR_scale c x y : dotR (map (fun a => a / c) x) y = dotR x y / c.
Proof.
  unfold dotR. rewrite !fold_left_Rplus, Rsum_zip_scale. unfold Rdiv. lra.
Qed.

Lemma Rsum_perm l l' : Permutation l l' -> Rsum l = Rsum l'.
Proof. induction 1; simpl; lra. Qed.

Lemma row_max_perm items items' :
  Permutation items items' -> row_max items = row_max items'.
Proof.
  intros HP. destruct items as [|a items].
  - apply Permutation_nil in HP. now subst.
  - assert (Hne : a :: items <> []) by discriminate.
    assert (Hne' : items' <> []).
    { intros ->. apply Permutation_sym, Permutation_nil in HP. discriminate. }
    destruct (row_max_In _ Hne) as (it & Hin & Hit).
    destruct (row_max_In _ Hne') as (it' & Hin' & Hit').
    apply Rle_antisym.
    + rewrite <- Hit. apply row_max_ge. eapply Permutation_in; eassumption.
    + rewrite <- Hit'. apply row_max_ge.
      eapply Permutation_in; [apply Permutation_sym|]; eassumption.
Qed.

Lemma attention_row_perm K items items' :
  Permutation items items' -> attention_row K items = attention_row K items'.
Proof.
  intros HP. rewrite !attention_row_normalize.
  rewrite <- (row_max_perm _ _ HP).
  unfold accexp, sumexp, exps, accexp_at. rewrite !map_map.
  apply map_ext. intros k. f_equal.
  - apply Rsum_perm. now apply Permutation_map.
  - apply Rsum_perm. now apply Permutation_map.
Qed.

Lemma map_nth_seq {A : Type} (p : list A) d :
  map (fun l => nth l p d) (seq O (length p)) = p.
Proof.
  induction p as [|a p IH]; simpl; [reflexivity|].
  f_equal. now rewrite <- seq_shift, map_map.
Qed.

End RealRows.

(** X3. In exact arithmetic (the finite values real numbers: no rounding,
    no overflow), for inputs of real numbers with at least one key, every
    element the scalar kernel writes lies between the least and the
    greatest element of Value: an output row is a weighted mean of value
    rows, with weights that are not negative and sum to one. *)
Theorem scalar_output_within_value_range
        (B M N K : nat) (q k v : list R) (lo hi : R) :
  length q = (B * M * K)%nat -> length k = (B * N * K)%nat ->
  length v = (B * N * K)%nat -> (1 <= N)%nat ->
  Forall (fun x => lo <= x <= hi) v ->
  exists out,
    Cpu.attention_kernel (mkAccessor (map Fin q) B M K)
                         (mkAccessor (map Fin k) B N K)
                         (mkAccessor (map Fin v) B N K) = Some (map Fin out) /\
    Forall (fun y => lo <= y <= hi) out.
Proof.
  intros Hq Hk Hv HN Hrange.
  exists (concat
            (map (fun i =>
                    concat (map (fun j =>
                                   Textbook.attention_row K
                                     (Textbook.items_of Textbook.dotR
                                                        q k v M N K K i j))
                                (seq O M)))
                 (seq O B))).
  split.
  - rewrite (attention_kernel_real B M N K q k v Hq Hk Hv HN). f_equal.
    rewrite concat_map, map_map. f_equal. apply map_ext. intros i.
    now rewrite concat_map, map_map.
  - apply Forall_forall. intros y Hy.
    apply in_concat in Hy. destruct Hy as (c & Hc & Hy).
    apply in_map_iff in Hc. destruct Hc as (i & <- & Hi).
    apply in_concat in Hy. destruct Hy as (r & Hr & Hy).
    apply in_map_iff in Hr. destruct Hr as (j & <- & Hj).
    apply in_seq in Hi. apply in_seq in Hj.
    assert (HF : Forall (fun x => lo <= x <= hi)
                   (Textbook.attention_row K
                      (Textbook.items_of Textbook.dotR q k v M N K K i j))).
    { apply attention_row_bounds.
      - unfold Textbook.items_of. destruct N; [lia|]. simpl. discriminate.
      - intros it f Hit Hf. unfold Textbook.items_of in Hit.
        apply in_map_iff in Hit. destruct Hit as (l & <- & Hl).
        apply in_seq in Hl. simpl.
        rewrite Forall_forall in Hrange. apply Hrange.
        apply (row_at_incl v N K i l). apply nth_In.
        rewrite (row_at_length v B N K i l); [exact Hf | exact Hv | lia | lia]. }
    rewrite Forall_forall in HF. now apply HF.
Qed.

Lemma scalar_output_within_value_range_scenario :
  exists out,
    Cpu.attention_kernel Scenario.query Scenario.key Scenario.value =
      Some (map Fin out) /\
    Forall (fun y => 1 <= y <= 4) out.
Proof.
  apply (scalar_output_within_value_range 1 2 2 2
           Scenario.q Scenario.k Scenario.v 1 4); try (simpl; lia).
  unfold Scenario.v. repeat constructor; lra.
Defined.

(** X4. The order of the keys is irrelevant: when the key rows and the
    value rows of batch [i] are reordered by one permutation [p] of the
    key positions, the scalar kernel writes the same row for every query
    of the batch (inputs of real numbers, at least one key). *)
Theorem key_order_is_irrelevant
        (B M N K : nat) (q k v k' v' : list R) (p : list nat) (i j : nat) :
  length q = (B * M * K)%nat ->
  length k = (B * N * K)%nat -> length v = (B * N * K)%nat ->
  length k' = (B * N * K)%nat -> length v' = (B * N * K)%nat ->
  (1 <= N)%nat -> (i < B)%nat -> (j < M)%nat ->
  Permutation p (seq O N) ->
  (forall l, (l < N)%nat ->
     Textbook.row_at k' N K i l = Textbook.row_at k N K i (nth l p O) /\
     Textbook.row_at v' N K i l = Textbook.row_at v N K i (nth l p O)) ->
  exists out out',
    Cpu.attention_kernel (mkAccessor (map Fin q) B M K)
                         (mkAccessor (map Fin k) B N K)
                         (mkAccessor (map Fin v) B N K) = Some out /\
    Cpu.attention_kernel (mkAccessor (map Fin q) B M K)
                         (mkAccessor (map Fin k') B N K)
                         (mkAccessor (map Fin v') B N K) = Some out' /\
    firstn K (row_ptr (mkAccessor out' B M K) i j) =
    firstn K (row_ptr (mkAccessor out B M K) i j).
Proof.
  intros Hq Hk Hv Hk' Hv' HN Hi Hj Hp Hrows.
  destruct (output_row_real B M N K q k v i j Hq Hk Hv HN Hi Hj)
    as (out & Ho & Hr).
  destruct (output_row_real B M N K q k' v' i j Hq Hk' Hv' HN Hi Hj)
    as (out' & Ho' & Hr').
  exists out, out'. split; [exact Ho|]. split; [exact Ho'|].
  rewrite Hr, Hr'. f_equal. apply attention_row_perm.
  unfold Textbook.items_of.
  set (item := fun l => (Textbook.dotR (Textbook.row_at q M K i j)
                                       (Textbook.row_at k N K i l),
                         Textbook.row_at v N K i l)).
  assert (Hlen : length p = N)
    by (rewrite (Permutation_length Hp); apply length_seq).
  rewrite (map_ext_in _ (fun l => item (nth l p O))).
  - rewrite <- (map_map (fun l => nth l p O) item).
    rewrite <- Hlen at 1. rewrite map_nth_seq.
    now apply Permutation_map.
  - intros l Hl. apply in_seq in Hl.
    destruct (Hrows l ltac:(lia)) as (-> & ->). reflexivity.
Qed.

Lemma key_order_is_irrelevant_swapped_keys :
  exists out out',
    Cpu.attention_kernel Scenario.query Scenario.key Scenario.value =
      Some out /\
    Cpu.attention_kernel Scenario.query
                         (mkAccessor (map Fin [0; 1; 1; 0]) 1 2 2)
                         (mkAccessor (map Fin [3; 4; 1; 2]) 1 2 2) =
      Some out' /\
    firstn 2 (row_ptr (mkAccessor out' 1 2 2) 0 1) =
    firstn 2 (row_ptr (mkAccessor out 1 2 2) 0 1).
Proof.
  apply (key_order_is_irrelevant 1 2 2 2 Scenario.q Scenario.k Scenario.v
           [0; 1; 1; 0] [3; 4; 1; 2] [1%nat; O] 0 1);
    try (simpl; lia).
  - apply perm_swap.
  - intros [|[|l]] Hl; [split; reflexivity | split; reflexivity | lia].
Defined.

(** X5. The scalar kernel run on a Query whose elements have been divided
    by [sqrt K] writes the textbook rows of the scaled scores
    [(Query_j . Key_l) / sqrt K]: scaling the query beforehand supplies
    the factor the kernel does not apply. *)
Theorem prescaled_query_gives_scaled_scores
        (B M N K : nat) (q k v : list R) (i j : nat) :
  length q = (B * M * K)%nat -> length k = (B * N * K)%nat ->
  length v = (B * N * K)%nat -> (1 <= N)%nat ->
  (i < B)%nat -> (j < M)%nat ->
  exists out,
    Cpu.attention_kernel
      (mkAccessor (map Fin (map (fun x => x / sqrt (INR K)) q)) B M K)
      (mkAccessor (map Fin k) B N K)
      (mkAccessor (map Fin v) B N K) = Some out /\
    firstn K (row_ptr (mkAccessor out B M K) i j) =
      map Fin (Textbook.attention_row K
                 (Textbook.items_of (Textbook.scaled_score K)
                                    q k v M N K K i j)).
Proof.
  intros Hq Hk Hv HN Hi Hj.
  destruct (output_row_real B M N K (map (fun x => x / sqrt (INR K)) q) k v i j)
    as (out & Ho & Hr); try assumption.
  { now rewrite length_map. }
  exists out. split; [exact Ho|]. rewrite Hr. do 2 f_equal.
  unfold Textbook.items_of. apply map_ext. intros l.
  now rewrite row_at_map, dotR_scale.
Qed.

Lemma prescaled_query_gives_scaled_scores_scenario :
  exists out,
    Cpu.attention_kernel
      (mkAccessor (map Fin (map (fun x => x / sqrt (INR 2)) Scenario.q)) 1 2 2)
      Scenario.key Scenario.value = Some out /\
    firstn 2 (row_ptr (mkAccessor out 1 2 2) 0 0) =
      map Fin (Textbook.attention_row 2
                 (Textbook.items_of (Textbook.scaled_score 2)
                                    Scenario.q Scenario.k Scenario.v
                                    2 2 2 2 0 0)).
Proof.
  apply (prescaled_query_gives_scaled_scores 1 2 2 2
           Scenario.q Scenario.k Scenario.v 0 0); simpl; lia.
Defined.

(** X6. The host function on contiguous tensors of one floating element
    type, Query of sizes [(B, M, K)], Key and Value of sizes [(B, N, K)],
    raises nothing, whatever the elements are: it allocates the result and
    the scratch rows, launches the kernel once, and returns a contiguous
    tensor of sizes [(B, M, K)] whose storage holds [B * M * K]
    elements. *)
Theorem attention_returns_on_consistent_tensors
        (num_threads B M N K : nat) (query key value : Tensor) :
  sizes query = [B; M; K] -> sizes key = [B; N; K] ->
  sizes value = [B; N; K] ->
  contiguous query = true -> contiguous key = true ->
  contiguous value = true ->
  scalar_type query = Float \/ scalar_type query = Double ->
  scalar_type key = scalar_type query ->
  scalar_type value = scalar_type query ->
  length (storage query) = (B * M * K)%nat ->
  length (storage key) = (B * N * K)%nat ->
  length (storage value) = (B * N * K)%nat ->
  exists out,
    Cpu.attention num_threads query key value =
      ([Cpu.Alloc [B; M; K] (scalar_type query);
        Cpu.Alloc [num_threads; 1%nat; K] (scalar_type query);
        Cpu.Launch],
       Cpu.Returned (mkTensor [B; M; K] true (scalar_type query) out)) /\
    length out = (B * M * K)%nat.
Proof.
  intros Hsq Hsk Hsv Hcq Hck Hcv Hty Htk Htv Hlq Hlk Hlv.
  set (q := mkAccessor (storage query) B M K).
  set (k := mkAccessor (storage key) B N K).
  set (v := mkAccessor (storage value) B N K).
  assert (Hshape : Shape.consistent q k v).
  { unfold Shape.consistent, Shape.well_formed. simpl.
    repeat split; assumption. }
  destruct (rows_in_bounds q k v) as (out & Ho).
  { intros i j Hi Hj.
    destruct (row_kernel_in_bounds q k v i j Hshape Hi Hj)
      as (oo & st & Ek & _).
    now exists oo, st. }
  pose proof (attention_kernel_length q k v out Ho) as Hl.
  subst q k v. exists out. split; [|exact Hl].
  unfold Cpu.attention, Cpu.accessor, dim, size.
  rewrite Hsq, Hsk, Hsv, Hcq, Hck, Hcv, Htk, Htv.
  cbn [length nth negb]. rewrite !Nat.eqb_refl. cbn [negb andb].
  destruct Hty as [E|E]; rewrite E in *; cbn [ScalarType_eqb andb];
    rewrite Ho; reflexivity.
Qed.

Lemma attention_returns_on_consistent_tensors_nan_input :
  let query := mkTensor [1; 1; 2]%nat true Float [NaN; PInf] in
  let key := mkTensor [1; 2; 2]%nat true Float [Fin 1; NInf; Fin 0; NaN] in
  let value := mkTensor [1; 2; 2]%nat true Float [Fin 1; Fin 2; PInf; Fin 4] in
  exists out,
    Cpu.attention 8 query key value =
      ([Cpu.Alloc [1; 1; 2]%nat Float; Cpu.Alloc [8; 1; 2]%nat Float;
        Cpu.Launch],
       Cpu.Returned (mkTensor [1; 1; 2]%nat true Float out)) /\
    length out = 2%nat.
Proof.
  intros query key value.
  apply (attention_returns_on_consistent_tensors 8 1 1 2 2 query key value);
    try reflexivity.
  now left.
Defined.

(** * Machine integers *)

Lemma to_int8_small z : (-128 <= z < 128)%Z -> to_int8 z = z.
Proof.
  intros H. unfold to_int8, to_signed.
  change (2 ^ (8 - 1))%Z with 128%Z. change (2 ^ 8)%Z with 256%Z.
  rewrite Z.mod_small; lia.
Qed.

Lemma to_int16_small z : (-32768 <= z < 32768)%Z -> to_int16 z = z.
Proof.
  intros H. unfold to_int16, to_signed.
  change (2 ^ (16 - 1))%Z with 32768%Z. change (2 ^ 16)%Z with 65536%Z.
  rewrite Z.mod_small; lia.
Qed.

Lemma to_int32_small z : (-2147483648 <= z < 2147483648)%Z -> to_int32 z = z.
Proof.
  intros H. unfold to_int32, to_signed.
  change (2 ^ (32 - 1))%Z with 2147483648%Z.
  change (2 ^ 32)%Z with 4294967296%Z.
  rewrite Z.mod_small; lia.
Qed.

Lemma to_uint32_small z : (0 <= z < 4294967296)%Z -> to_uint32 z = z.
Proof.
  intros H. unfold to_uint32. change (2 ^ 32)%Z with 4294967296%Z.
  now apply Z.mod_small.
Qed.

(** * Further properties of the sparse product *)

Ltac int_const := change (2 ^ 31)%Z with 2147483648%Z in *.

Lemma int_small z :
  (- 2147483648 <= z < 2147483648)%Z -> Spmm.int z = Some z.
Proof.
  intros H. unfold Spmm.int.
  change (- 2 ^ 31)%Z with (- 2147483648)%Z. int_const.
  destruct (Z.leb_spec (- 2147483648) z); [|lia].
  destruct (Z.ltb_spec z 2147483648); [reflexivity | lia].
Qed.

Lemma offset_small (a x cnt c j : Z) :
  (0 <= a)%Z -> (0 <= x)%Z -> (0 <= c)%Z -> (0 <= j < cnt)%Z ->
  (a * x * cnt + c * cnt + j < 2147483648)%Z ->
  Spmm.offset a x cnt c j = Some (a * x * cnt + c * cnt + j)%Z.
Proof.
  intros Ha Hx Hc Hj H.
  assert (H1 : (0 <= a * x)%Z) by now apply Z.mul_nonneg_nonneg.
  assert (H2 : (a * x <= a * x * cnt)%Z) by nia.
  assert (H3 : (0 <= c * cnt)%Z) by (apply Z.mul_nonneg_nonneg; lia).
  unfold Spmm.offset, Spmm.int_mul, Spmm.int_add.
  rewrite (int_small (a * x)) by lia.
  rewrite (int_small (a * x * cnt)) by lia.
  rewrite (int_small (c * cnt)) by lia.
  rewrite (int_small (a * x * cnt + c * cnt)) by lia.
  apply int_small. lia.
Qed.

Lemma store_z_app {A : Type} (pre : list A) x post v :
  Spmm.store_z (pre ++ x :: post) (Z.of_nat (length pre)) v =
  Some (pre ++ v :: post).
Proof.
  unfold Spmm.store_z. rewrite length_app. cbn [length].
  destruct (Z.ltb_spec (Z.of_nat (length pre)) 0); [lia|].
  destruct (Z.leb_spec (Z.of_nat (length pre + Datatypes.S (length post)))
                       (Z.of_nat (length pre))); [lia|].
  cbn [orb]. rewrite Nat2Z.id. f_equal. f_equal.
  - rewrite firstn_app, Nat.sub_diag, firstn_all. cbn [firstn].
    apply app_nil_r.
  - f_equal. change (Datatypes.S (length pre)) with (1 + length pre)%nat.
    rewrite <- skipn_skipn.
    rewrite skipn_app, Nat.sub_diag, skipn_all. reflexivity.
Qed.

(** A loop whose iteration [t] overwrites the [w] elements that follow the
    first [base + (t - lo) * w] with [g t] fills [cnt * w] elements. *)
Lemma for_loop_fills {A : Type} (body : nat -> list A -> option (list A))
      (g : nat -> list A) (w : nat) cnt :
  forall lo base,
  (forall t, (lo <= t < lo + cnt)%nat -> length (g t) = w) ->
  (forall t pre old post, (lo <= t < lo + cnt)%nat ->
     length pre = (base + (t - lo) * w)%nat -> length old = w ->
     body t (pre ++ old ++ post) = Some (pre ++ g t ++ post)) ->
  forall pre old post,
    length pre = base -> length old = (cnt * w)%nat ->
    for_loop body lo cnt (pre ++ old ++ post) =
    Some (pre ++ concat (map g (seq lo cnt)) ++ post).
Proof.
  induction cnt as [|cnt IH]; intros lo base Hg Hbody pre old post Hpre Hold.
  - destruct old; [reflexivity | discriminate].
  - cbn [for_loop seq map concat]. simpl in Hold.
    rewrite <- (firstn_skipn w old), <- app_assoc.
    rewrite (Hbody lo pre (firstn w old) (skipn w old ++ post)).
    + rewrite (app_assoc pre (g lo)).
      rewrite (IH (Datatypes.S lo) (base + w)%nat).
      * rewrite <- !app_assoc. reflexivity.
      * intros t Ht. apply Hg. lia.
      * intros t pre' old' post' Ht Hp Ho.
        apply Hbody; [lia | | exact Ho]. rewrite Hp.
        replace (t - lo)%nat with (Datatypes.S (t - Datatypes.S lo)) by lia.
        simpl. lia.
      * rewrite length_app, Hg by lia. lia.
      * rewrite length_skipn. lia.
    + lia.
    + rewrite Nat.sub_diag. lia.
    + rewrite length_firstn. lia.
Qed.

Lemma concat_map_singleton {A : Type} (f : nat -> A) l :
  concat (map (fun j => [f j]) l) = map f l.
Proof. induction l as [|a l IH]; simpl; [|rewrite IH]; reflexivity. Qed.


Section SparseProduct.

Import Textbook.

Variables m k n nonzeros batch_size : nat.
Variables values dense_matrix : list R.
Variables row_indices row_offsets column_indices : list Z.

Hypothesis Hcsr : Csr.well_formed m k nonzeros row_offsets column_indices.
Hypothesis Hint : Csr.fits_int m k n nonzeros batch_size.
Hypothesis Hvalues : length values = (batch_size * nonzeros)%nat.
Hypothesis Hdense : length dense_matrix = (batch_size * k * n)%nat.

Lemma load_z_fin (d : list R) (z : Z) :
  (0 <= z < Z.of_nat (length d))%Z ->
  Spmm.load_z (map Fin d) z = Some (Fin (nth (Z.to_nat z) d 0)).
Proof.
  intros H. unfold Spmm.load_z.
  destruct (Z.ltb_spec z 0); [lia|].
  rewrite nth_error_map, (nth_error_nth' d 0) by lia. reflexivity.
Qed.

Lemma load_z_int (d : list Z) (z : Z) :
  (0 <= z < Z.of_nat (length d))%Z ->
  Spmm.load_z d z = Some (nth (Z.to_nat z) d 0%Z).
Proof.
  intros H. unfold Spmm.load_z.
  destruct (Z.ltb_spec z 0); [lia|].
  now rewrite (nth_error_nth' d 0%Z) by lia.
Qed.

Lemma row_loop_sum b j lo cnt t0 a :
  (b < batch_size)%nat -> (j < n)%nat -> (0 <= lo)%Z ->
  (Z.to_nat lo + t0 + cnt <= nonzeros)%nat ->
  for_loop (fun t accumulator =>
              let l := (lo + Z.of_nat t)%Z in
              column_index <- Spmm.load_z column_indices l ;;
              b_nonzeros <- Spmm.int_mul (Z.of_nat b) (Z.of_nat nonzeros) ;;
              value_index <- Spmm.int_add b_nonzeros l ;;
              x <- Spmm.load_z (map Fin values) value_index ;;
              dense_index <- Spmm.offset (Z.of_nat b) (Z.of_nat k)
                                         (Z.of_nat n) column_index
                                         (Z.of_nat j) ;;
              y <- Spmm.load_z (map Fin dense_matrix) dense_index ;;
              Some (sadd accumulator (smul x y)))
           t0 cnt (Fin a) =
  Some (Fin (a + Rsum (map (Csr.term k n nonzeros values column_indices
                                     dense_matrix b j)
                           (seq (Z.to_nat lo + t0) cnt)))).
Proof.
  intros Hb Hj Hlo. destruct Hcsr as (Hro & Hci & Hrows & Hcols).
  destruct Hint as (_ & _ & _ & _ & _ & Hnz & Hkn & _). int_const.
  rewrite Forall_forall in Hcols.
  revert t0 a.
  match goal with
  | |- forall t0 a, _ -> for_loop ?f _ _ _ = _ => set (body := f)
  end.
  assert (Hstep : forall t0 a, (Z.to_nat lo + t0 < nonzeros)%nat ->
            body t0 (Fin a) =
            Some (Fin (a + Csr.term k n nonzeros values column_indices
                                    dense_matrix b j (Z.to_nat lo + t0)))).
  { intros t0 a Ht. unfold body. cbv zeta.
    assert (Hl : (0 <= lo + Z.of_nat t0 < Z.of_nat nonzeros)%Z) by lia.
    rewrite load_z_int by (rewrite Hci; exact Hl).
    replace (Z.to_nat (lo + Z.of_nat t0)) with (Z.to_nat lo + t0)%nat by lia.
    assert (Hc : (0 <= nth (Z.to_nat lo + t0) column_indices 0 <
                  Z.of_nat k)%Z).
    { apply Hcols, nth_In. lia. }
    set (c := nth (Z.to_nat lo + t0) column_indices 0%Z) in *.
    assert (Hbn : (Datatypes.S b * nonzeros <= batch_size * nonzeros)%nat)
      by (apply Nat.mul_le_mono_r; lia).
    assert (Hcn : (Datatypes.S (Z.to_nat c) * n <= k * n)%nat)
      by (apply Nat.mul_le_mono_r; lia).
    assert (Hbk : (Datatypes.S b * (k * n) <= batch_size * (k * n))%nat)
      by (apply Nat.mul_le_mono_r; lia).
    unfold Spmm.int_mul, Spmm.int_add.
    rewrite (int_small (Z.of_nat b * Z.of_nat nonzeros)) by lia.
    rewrite int_small by lia.
    rewrite load_z_fin by (rewrite Hvalues; lia).
    assert (Hd : (Z.of_nat b * Z.of_nat k * Z.of_nat n + c * Z.of_nat n
                  + Z.of_nat j < Z.of_nat (batch_size * k * n))%Z) by nia.
    rewrite offset_small by lia.
    rewrite load_z_fin by (rewrite Hdense; nia).
    cbn [sadd smul]. do 2 f_equal. unfold Csr.term. fold c.
    replace (Z.to_nat (Z.of_nat b * Z.of_nat nonzeros + (lo + Z.of_nat t0)))
      with (b * nonzeros + (Z.to_nat lo + t0))%nat by lia.
    replace (Z.to_nat (Z.of_nat b * Z.of_nat k * Z.of_nat n
                       + c * Z.of_nat n + Z.of_nat j))
      with (b * k * n + Z.to_nat c * n + j)%nat by nia.
    reflexivity. }
  induction cnt as [|cnt IH]; intros t0 a Hend; cbn [for_loop seq map Rsum].
  - do 2 f_equal. lra.
  - rewrite Hstep by lia. rewrite (IH (Datatypes.S t0)) by lia.
    do 2 f_equal.
    replace (Z.to_nat lo + Datatypes.S t0)%nat
      with (Datatypes.S (Z.to_nat lo + t0)) by lia.
    lra.
Qed.

Lemma row_times_column_entry b i j :
  (b < batch_size)%nat -> (i < m)%nat -> (j < n)%nat ->
  Spmm.row_times_column (Z.of_nat k) (Z.of_nat n) (Z.of_nat nonzeros)
                        (map Fin values) row_offsets column_indices
                        (map Fin dense_matrix)
                        (Z.of_nat b) (Z.of_nat i) (Z.of_nat j) =
  Some (Fin (Csr.entry k n nonzeros values row_offsets column_indices
                       dense_matrix b i j)).
Proof.
  intros Hb Hi Hj. pose proof Hcsr as (Hro & Hci & Hrows & Hcols).
  unfold Spmm.row_times_column, Csr.entry.
  rewrite !load_z_int by lia.
  rewrite Nat2Z.id.
  replace (Z.to_nat (Z.of_nat i + 1)) with (i + 1)%nat by lia.
  destruct (Hrows i Hi) as (Hlo & Hhi).
  set (lo := nth i row_offsets 0%Z) in *.
  set (hi := nth (i + 1) row_offsets 0%Z) in *.
  destruct (Z.le_gt_cases hi lo) as [Hle|Hgt].
  - replace (Z.to_nat (hi - lo)) with O by lia. reflexivity.
  - rewrite (row_loop_sum b j _ _ O 0 Hb Hj Hlo) by lia.
    rewrite Nat.add_0_r. do 2 f_equal. lra.
Qed.

Lemma map_concat_rows {A B : Type} (f : A -> B) (rows : nat -> nat -> list A)
      bs ms :
  concat (map (fun b => concat (map (fun i => map f (rows b i)) ms)) bs) =
  map f (concat (map (fun b => concat (map (rows b) ms)) bs)).
Proof.
  rewrite concat_map, map_map. f_equal. apply map_ext. intros b.
  now rewrite concat_map, map_map.
Qed.

Lemma LaunchSpmm_rows output_matrix :
  length output_matrix = (batch_size * m * n)%nat ->
  Spmm.LaunchSpmm (Z.of_nat m) (Z.of_nat k) (Z.of_nat n) (Z.of_nat nonzeros)
                  row_indices (map Fin values) row_offsets column_indices
                  (map Fin dense_matrix) output_matrix
                  (Z.of_nat batch_size) =
  Some (map Some
          (concat
             (map (fun b =>
                     concat (map (Csr.product_row k n nonzeros values
                                    row_offsets column_indices dense_matrix b)
                                 (seq O m)))
                  (seq O batch_size)))).
Proof.
  intros Hout. pose proof Hint as (_ & _ & _ & _ & _ & _ & _ & Hmn).
  int_const.
  unfold Spmm.LaunchSpmm. rewrite !Nat2Z.id.
  rewrite <- map_concat_rows.
  set (row := fun b i =>
                map Some (Csr.product_row k n nonzeros values row_offsets
                            column_indices dense_matrix b i)).
  assert (Hrow : forall b i, length (row b i) = n).
  { intros. unfold row, Csr.product_row.
    now rewrite !length_map, length_seq. }
  rewrite <- (app_nil_r output_matrix).
  change (output_matrix ++ []) with ([] ++ output_matrix ++ []).
  rewrite (for_loop_fills _ (fun b => concat (map (row b) (seq O m)))
             (m * n) batch_size O O).
  - cbn [app]. now rewrite app_nil_r.
  - intros b _. apply length_concat_map. intros i _. apply Hrow.
  - intros b pre old post Hb Hpre Hold.
    apply (for_loop_fills _ (row b) n m O (b * (m * n))).
    + intros i _. apply Hrow.
    + intros i pre1 old1 post1 Hi Hpre1 Hold1.
      rewrite (for_loop_fills _
                 (fun j => [Some (Fin (Csr.entry k n nonzeros values
                                         row_offsets column_indices
                                         dense_matrix b i j))])
                 1 n O (b * (m * n) + i * n)).
      * rewrite concat_map_singleton. unfold row, Csr.product_row.
        now rewrite map_map.
      * reflexivity.
      * intros j pre2 old2 post2 Hj Hpre2 Hold2.
        destruct old2 as [|x [|y old2]]; try discriminate Hold2.
        rewrite row_times_column_entry by lia.
        assert (Hbm : (Datatypes.S b * (m * n) <= batch_size * (m * n))%nat)
          by (apply Nat.mul_le_mono_r; lia).
        assert (Him : (Datatypes.S i * n <= m * n)%nat)
          by (apply Nat.mul_le_mono_r; lia).
        rewrite offset_small by nia.
        replace (Z.of_nat b * Z.of_nat m * Z.of_nat n
                 + Z.of_nat i * Z.of_nat n + Z.of_nat j)%Z
          with (Z.of_nat (length pre2)) by (rewrite Hpre2; nia).
        apply store_z_app.
      * rewrite Hpre1. lia.
      * lia.
    + rewrite Hpre. lia.
    + rewrite Hold. lia.
  - reflexivity.
  - rewrite Hout. lia.
Qed.

Lemma LaunchSpmm_entry b i j :
  (b < batch_size)%nat -> (i < m)%nat -> (j < n)%nat ->
  nth_error
    (concat
       (map (fun b =>
               concat (map (Csr.product_row k n nonzeros values row_offsets
                              column_indices dense_matrix b)
                           (seq O m)))
            (seq O batch_size)))
    (b * m * n + i * n + j) =
  Some (Fin (Csr.entry k n nonzeros values row_offsets column_indices
                       dense_matrix b i j)).
Proof.
  intros Hb Hi Hj.
  pose proof (output_row
                (Csr.product_row k n nonzeros values row_offsets
                                 column_indices dense_matrix)
                batch_size m n b i) as Hrow.
  unfold row_ptr in Hrow. cbn [data size1 size2] in Hrow.
  set (out :=
         concat
           (map (fun b =>
                   concat (map (Csr.product_row k n nonzeros values
                                  row_offsets column_indices dense_matrix b)
                               (seq O m)))
                (seq O batch_size))) in *.
  assert (E : nth_error out (b * m * n + i * n + j) =
              nth_error (firstn n (skipn (b * (m * n) + i * n) out)) j).
  { rewrite nth_error_firstn.
    destruct (Nat.ltb_spec j n); [|lia].
    rewrite List.nth_error_skipn. f_equal. lia. }
  rewrite E, Hrow; try assumption.
  - unfold Csr.product_row. rewrite nth_error_map.
    rewrite (nth_error_nth' (seq O n) O) by (rewrite length_seq; lia).
    now rewrite seq_nth.
  - intros. unfold Csr.product_row. now rewrite length_map, length_seq.
Qed.

End SparseProduct.

(** X7. [LaunchSpmm] multiplies the sparse operand by the dense one.  For
    a well-formed compressed-sparse-row operand, real values, and sizes
    for which every index fits the 32 bits of an [int] (the five sizes
    and the numbers of elements of [values], of the dense operand and of
    the output all below [2 ^ 31]): no index overflows, no element is
    read outside the inputs, the [batch_size * m * n] elements of the
    output are all written, whatever the output held, and element
    [b * m * n + i * n + j] of the output is the sum, over the nonzeros
    [l] of row [i], of [values[b, l] * dense[b, column(l), j]]; a row
    without nonzeros gives zeros. *)
Theorem LaunchSpmm_is_sparse_times_dense
        (m k n nonzeros batch_size : nat) (values dense_matrix : list R)
        (row_indices row_offsets column_indices : list Z)
        (output_matrix : list (option scalar)) :
  Csr.well_formed m k nonzeros row_offsets column_indices ->
  Csr.fits_int m k n nonzeros batch_size ->
  length values = (batch_size * nonzeros)%nat ->
  length dense_matrix = (batch_size * k * n)%nat ->
  length output_matrix = (batch_size * m * n)%nat ->
  exists elements,
    Spmm.LaunchSpmm (Z.of_nat m) (Z.of_nat k) (Z.of_nat n)
                    (Z.of_nat nonzeros) row_indices (map Fin values)
                    row_offsets column_indices (map Fin dense_matrix)
                    output_matrix (Z.of_nat batch_size) =
      Some (map Some elements) /\
    length elements = (batch_size * m * n)%nat /\
    forall b i j,
      (b < batch_size)%nat -> (i < m)%nat -> (j < n)%nat ->
      nth_error elements (b * m * n + i * n + j) =
      Some (Fin (Csr.entry k n nonzeros values row_offsets column_indices
                           dense_matrix b i j)).
Proof.
  intros Hcsr Hint Hv Hd Hout. eexists.
  split; [apply (LaunchSpmm_rows m k n nonzeros batch_size values dense_matrix
                   row_indices row_offsets column_indices Hcsr Hint Hv Hd
                   output_matrix Hout)|].
  split.
  - rewrite (length_concat_map _ batch_size (m * n)); [lia|].
    intros b Hb. apply length_concat_map. intros i Hi.
    unfold Csr.product_row. now rewrite length_map, length_seq.
  - intros b i j. apply LaunchSpmm_entry; assumption.
Qed.

Lemma LaunchSpmm_is_sparse_times_dense_two_rows :
  exists elements,
    Spmm.LaunchSpmm 2 2 2 3 [] (map Fin [1; 2; 3]) [0; 2; 3]%Z [0; 1; 1]%Z
                    (map Fin [1; 0; 0; 1]) [None; Some NaN; None; None] 1 =
      Some (map Some elements) /\
    length elements = (1 * 2 * 2)%nat /\
    forall b i j,
      (b < 1)%nat -> (i < 2)%nat -> (j < 2)%nat ->
      nth_error elements (b * 2 * 2 + i * 2 + j) =
      Some (Fin (Csr.entry 2 2 3 [1; 2; 3] [0; 2; 3]%Z [0; 1; 1]%Z
                           [1; 0; 0; 1] b i j)).
Proof.
  apply (LaunchSpmm_is_sparse_times_dense 2 2 2 3 1 [1; 2; 3] [1; 0; 0; 1] []
           [0; 2; 3]%Z [0; 1; 1]%Z [None; Some NaN; None; None]);
    try reflexivity.
  - unfold Csr.well_formed.
    split; [reflexivity|]. split; [reflexivity|]. split.
    + intros [|[|i]] Hi; simpl; lia.
    + repeat constructor; lia.
  - unfold Csr.fits_int. simpl. lia.
Defined.





(** The conversion of the sizes to [int] at work.  A dense operand of
    sizes [(2 ^ 32 + 1, 0, 0)] has no element; its batch count is
    converted to 1, so the check of line 48 passes with 3 nonzeros, and
    the tensor returned has sizes [(1, 2, 0)]. *)
Lemma spmm_sputnik_converts_batch_to_int
      (batch : nat) (values : Tensor)
      (row_indices row_offsets column_indices : Spmm.IntTensor) :
  Z.of_nat batch = (2 ^ 32 + 1)%Z ->
  scalar_type values = Float ->
  Spmm.int_scalar_type row_indices = Int ->
  Spmm.int_scalar_type row_offsets = Int ->
  Spmm.int_scalar_type column_indices = Int ->
  Spmm.int_sizes column_indices = [3%nat] ->
  Spmm.spmm_sputnik (mkTensor [batch; O; O] true Float []) row_indices values
                    row_offsets column_indices 2 =
  Spmm.Returned (mkTensor [1%nat; 2%nat; O] true Float []).
Proof.
  intros Hb Htv Hri Hro Hci Hsz.
  unfold Spmm.spmm_sputnik, dim, size.
  cbn [sizes scalar_type storage length nth Nat.ltb Nat.leb orb].
  rewrite Hsz, Htv, Hri, Hro, Hci, Hb.
  cbn [length nth Nat.ltb Nat.leb orb].
  reflexivity.
Qed.

Lemma nth_skipn_add {A : Type} (l : list A) a t d :
  nth t (skipn a l) d = nth (a + t) l d.
Proof.
  revert l. induction a as [|a IH]; intros [|x l]; simpl; try reflexivity.
  - now destruct t.
  - apply IH.
Qed.

Lemma map_nth_firstn {A : Type} (l : list A) a d :
  (a <= length l)%nat -> map (fun j => nth j l d) (seq O a) = firstn a l.
Proof.
  revert l. induction a as [|a IH]; intros [|x l] H; simpl in *;
    try reflexivity; [lia|].
  f_equal. rewrite <- seq_shift, map_map. apply IH. lia.
Qed.

(** A row-major array is the concatenation of its rows. *)
Lemma flatten_rows {A : Type} (rows cols : nat) (l : list A) d :
  length l = (rows * cols)%nat ->
  concat (map (fun i => map (fun j => nth (i * cols + j) l d) (seq O cols))
              (seq O rows)) = l.
Proof.
  revert l. induction rows as [|rows IH]; intros l H.
  - destruct l; [reflexivity | discriminate].
  - cbn [seq map concat]. rewrite <- seq_shift, map_map.
    transitivity (firstn cols l ++ skipn cols l); [|apply firstn_skipn].
    f_equal.
    + apply map_nth_firstn. simpl in H. lia.
    + rewrite <- (IH (skipn cols l)) at 1
        by (rewrite length_skipn; simpl in H; lia).
      f_equal. apply map_ext. intros i. apply map_ext. intros j.
      rewrite nth_skipn_add. f_equal. simpl. lia.
Qed.

Lemma nth_repeat_lt {A : Type} (a d : A) cnt t :
  (t < cnt)%nat -> nth t (repeat a cnt) d = a.
Proof.
  revert t. induction cnt as [|cnt IH]; intros [|t] H; simpl; try lia;
    [reflexivity|]. apply IH. lia.
Qed.

Lemma nth_of_nat_seq cnt t :
  (t < cnt)%nat -> nth t (map Z.of_nat (seq O cnt)) 0%Z = Z.of_nat t.
Proof.
  intros H. change 0%Z with (Z.of_nat O).
  now rewrite map_nth, seq_nth.
Qed.

(** X9. The identity in compressed-sparse-row form (row [i] holds the one
    nonzero 1 in column [i]) times a dense matrix of real numbers is that
    matrix, for every size [m x n] with [m], [n] and [m * n] below
    [2 ^ 31], whatever [row_indices] holds and whatever the output held
    before. *)
Theorem sparse_identity_times_dense
        (m n : nat) (dense_matrix : list R) (row_indices : list Z)
        (output_matrix : list (option scalar)) :
  length dense_matrix = (m * n)%nat ->
  length output_matrix = (m * n)%nat ->
  (Z.of_nat m < 2 ^ 31)%Z -> (Z.of_nat n < 2 ^ 31)%Z ->
  (Z.of_nat (m * n) < 2 ^ 31)%Z ->
  Spmm.LaunchSpmm (Z.of_nat m) (Z.of_nat m) (Z.of_nat n) (Z.of_nat m)
                  row_indices (map Fin (repeat 1 m))
                  (map Z.of_nat (seq O (m + 1))) (map Z.of_nat (seq O m))
                  (map Fin dense_matrix) output_matrix 1 =
  Some (map Some (map Fin dense_matrix)).
Proof.
  intros Hd Hout Hm Hn Hmn.
  change 1%Z with (Z.of_nat 1).
  rewrite (LaunchSpmm_rows m m n m 1 (repeat 1 m) dense_matrix).
  - do 2 f_equal. cbn [seq map concat]. rewrite app_nil_r.
    rewrite <- (flatten_rows m n (map Fin dense_matrix) (Fin 0))
      by (now rewrite length_map).
    f_equal. apply map_ext_in. intros i Hi. apply in_seq in Hi.
    unfold Csr.product_row. apply map_ext_in. intros j Hj. apply in_seq in Hj.
    change (Fin 0) with (Fin (IZR 0)). rewrite (map_nth Fin). f_equal.
    unfold Csr.entry.
    rewrite !nth_of_nat_seq by lia.
    replace (Z.to_nat (Z.of_nat (i + 1) - Z.of_nat i)) with 1%nat by lia.
    rewrite Nat2Z.id. cbn [seq map Textbook.Rsum]. unfold Csr.term.
    rewrite nth_repeat_lt by lia.
    rewrite nth_of_nat_seq by lia. rewrite Nat2Z.id.
    replace (0 * m * n + i * n + j)%nat with (i * n + j)%nat by lia.
    lra.
  - unfold Csr.well_formed.
    rewrite !length_map, !length_seq.
    split; [reflexivity|]. split; [reflexivity|]. split.
    + intros i Hi. rewrite !nth_of_nat_seq by lia. lia.
    + apply Forall_forall. intros c Hc. apply in_map_iff in Hc.
      destruct Hc as (t & <- & Ht). apply in_seq in Ht. lia.
  - unfold Csr.fits_int. int_const. repeat split; lia.
  - rewrite repeat_length. lia.
  - rewrite Hd. lia.
  - rewrite Hout. lia.
Qed.

Lemma sparse_identity_times_dense_two_by_three :
  Spmm.LaunchSpmm 2 2 3 2 [7; 7]%Z (map Fin (repeat 1 2))
                  (map Z.of_nat (seq O (2 + 1))) (map Z.of_nat (seq O 2))
                  (map Fin [1; 2; 3; 4; 5; 6]) (repeat None 6) 1 =
  Some (map Some (map Fin [1; 2; 3; 4; 5; 6])).
Proof.
  apply (sparse_identity_times_dense 2 3 [1; 2; 3; 4; 5; 6] [7; 7]%Z
           (repeat None 6)); try reflexivity; simpl; lia.
Defined.

(** * Properties of the launch configuration of the tiled kernel *)

Section LaunchConfiguration.

Import Launch.

Lemma ceil_lt c total t :
  (1 <= c)%nat -> (t < (total + c - 1) / c <-> t * c < total)%nat.
Proof.
  intros Hc. split; intros H.
  - destruct (Nat.lt_ge_cases (t * c) total) as [|Hge]; [assumption|].
    exfalso. apply (Nat.lt_irrefl t). eapply Nat.lt_le_trans; [exact H|].
    apply Nat.lt_succ_r. apply Nat.Div0.div_lt_upper_bound; lia.
  - apply Nat.div_le_lower_bound; lia.
Qed.

(** Consecutive chunks of [c] indices, the last one cut at [total], cover
    [0, total) in order. *)
Lemma chunks_cover c total :
  (1 <= c)%nat ->
  concat (map (fun y => seq (y * c) (Nat.min c (total - y * c)))
              (seq O ((total + c - 1) / c))) = seq O total.
Proof.
  intros Hc.
  assert (H : forall y, (y <= (total + c - 1) / c)%nat ->
            concat (map (fun y => seq (y * c) (Nat.min c (total - y * c)))
                        (seq O y)) = seq O (Nat.min (y * c) total)).
  { induction y as [|y IH]; intros Hy; [reflexivity|].
    rewrite seq_S, map_app, concat_app, IH by lia.
    cbn [map concat Nat.add]. rewrite app_nil_r.
    assert (Hlt : (y * c < total)%nat) by (apply ceil_lt; lia).
    rewrite (Nat.min_l (y * c)) by lia.
    replace (Nat.min (Datatypes.S y * c) total)
      with (y * c + Nat.min c (total - y * c))%nat by lia.
    now rewrite seq_app. }
  rewrite H by lia. f_equal.
  destruct (Nat.lt_ge_cases ((total + c - 1) / c * c) total) as [Hlt|Hge];
    [|lia].
  apply ceil_lt in Hlt; lia.
Qed.

End LaunchConfiguration.

(** X10. The static assertions of the tiled kernel admit exactly the
    block sizes [kQueriesPerBlock = 32 a] and [kKeysPerBlock = 32 b] with
    [a >= 1] and [b >= 2]; a block then has [a * b] warps and
    [32 * a * b] threads.  In particular no instantiation has fewer than
    64 keys per block. *)
Theorem block_sizes_admitted (kQueriesPerBlock kKeysPerBlock : nat) :
  Launch.static_asserts kQueriesPerBlock kKeysPerBlock = true <->
  exists a b,
    (1 <= a /\ 2 <= b /\
     kQueriesPerBlock = 32 * a /\ kKeysPerBlock = 32 * b /\
     Launch.kNumWarpsPerBlock kQueriesPerBlock kKeysPerBlock = a * b /\
     Launch.kNumThreads kQueriesPerBlock kKeysPerBlock = 32 * (a * b))%nat.
Proof.
  split.
  - intros H.
    destruct (static_asserts_multiples _ _ H) as (a & b & Ha & Hb & -> & ->).
    exists a, b. unfold Launch.kNumThreads, Launch.kWarpSize.
    rewrite warps_of_multiples. repeat split; assumption.
  - intros (a & b & Ha & Hb & -> & -> & _ & _).
    unfold Launch.static_asserts, Launch.kWarpSize.
    rewrite warps_of_multiples.
    rewrite (Nat.mul_comm 32 a), (Nat.mul_comm 32 b), !Nat.Div0.mod_mul.
    cbn [Nat.eqb andb]. apply Nat.ltb_lt. nia.
Qed.

(** X11. In a block of at most 1024 threads, the limit of a launch, the
    narrow index types lose nothing: [lane_id] and [warp_id] are the
    coordinates of the thread, [thread_id] is [lane_id + 32 * warp_id],
    and the threads of the grid of [getThreadsGrid] carry each
    [thread_id] from 0 up to [kNumThreads] exactly once. *)
Theorem thread_ids_enumerate_block (kQueriesPerBlock kKeysPerBlock : nat) :
  (Launch.kNumThreads kQueriesPerBlock kKeysPerBlock <= 1024)%nat ->
  let blockDim_x := Z.of_nat (fst (fst (Launch.getThreadsGrid
                                          kQueriesPerBlock kKeysPerBlock))) in
  let blockDim_y := Z.of_nat (snd (fst (Launch.getThreadsGrid
                                          kQueriesPerBlock kKeysPerBlock))) in
  let threads := Z.of_nat (Launch.kNumThreads kQueriesPerBlock kKeysPerBlock) in
  (forall x y,
     (0 <= x < blockDim_x)%Z -> (0 <= y < blockDim_y)%Z ->
     Launch.lane_id x = x /\ Launch.warp_id y = y /\
     Launch.thread_id x y blockDim_x = (x + 32 * y)%Z /\
     (0 <= Launch.thread_id x y blockDim_x < threads)%Z) /\
  (forall t,
     (0 <= t < threads)%Z ->
     exists x y,
       (0 <= x < blockDim_x)%Z /\ (0 <= y < blockDim_y)%Z /\
       Launch.thread_id x y blockDim_x = t /\
       forall x' y',
         (0 <= x' < blockDim_x)%Z -> (0 <= y' < blockDim_y)%Z ->
         Launch.thread_id x' y' blockDim_x = t -> x' = x /\ y' = y).
Proof.
  intros Hmax. unfold Launch.getThreadsGrid, Launch.kNumThreads in *.
  cbn [fst snd]. unfold Launch.kWarpSize in *.
  set (w := Launch.kNumWarpsPerBlock kQueriesPerBlock kKeysPerBlock) in *.
  cbv zeta.
  assert (Hid : forall x y,
            (0 <= x < Z.of_nat 32)%Z -> (0 <= y < Z.of_nat w)%Z ->
            Launch.thread_id x y (Z.of_nat 32) = (x + 32 * y)%Z).
  { intros x y Hx Hy. unfold Launch.thread_id.
    rewrite (to_uint32_small (y * Z.of_nat 32)) by lia.
    rewrite to_uint32_small by lia.
    rewrite to_int16_small by lia. lia. }
  split.
  - intros x y Hx Hy. rewrite (Hid x y Hx Hy).
    unfold Launch.lane_id, Launch.warp_id.
    rewrite !to_int8_small by lia. repeat split; lia.
  - intros t Ht. exists (t mod 32)%Z, (t / 32)%Z.
    pose proof (Z.mod_pos_bound t 32 ltac:(lia)) as Hm.
    pose proof (Z.div_mod t 32 ltac:(lia)) as Hd.
    assert (Hq : (0 <= t / 32 < Z.of_nat w)%Z).
    { split; [apply Z.div_pos; lia|].
      apply Z.div_lt_upper_bound; lia. }
    split; [lia|]. split; [exact Hq|]. split.
    + rewrite Hid by lia. lia.
    + intros x' y' Hx' Hy' E. rewrite Hid in E by lia. lia.
Qed.

Lemma thread_ids_enumerate_block_64_by_64 :
  let blockDim_x := Z.of_nat (fst (fst (Launch.getThreadsGrid 64 64))) in
  let blockDim_y := Z.of_nat (snd (fst (Launch.getThreadsGrid 64 64))) in
  let threads := Z.of_nat (Launch.kNumThreads 64 64) in
  (forall x y,
     (0 <= x < blockDim_x)%Z -> (0 <= y < blockDim_y)%Z ->
     Launch.lane_id x = x /\ Launch.warp_id y = y /\
     Launch.thread_id x y blockDim_x = (x + 32 * y)%Z /\
     (0 <= Launch.thread_id x y blockDim_x < threads)%Z) /\
  (forall t,
     (0 <= t < threads)%Z ->
     exists x y,
       (0 <= x < blockDim_x)%Z /\ (0 <= y < blockDim_y)%Z /\
       Launch.thread_id x y blockDim_x = t /\
       forall x' y',
         (0 <= x' < blockDim_x)%Z -> (0 <= y' < blockDim_y)%Z ->
         Launch.thread_id x' y' blockDim_x = t -> x' = x /\ y' = y).
Proof.
  apply (thread_ids_enumerate_block 64 64).
  apply Nat.leb_le. reflexivity.
Defined.

Section Walks.

Import Launch.

Lemma map_offset_Z a n :
  map (fun r => (Z.of_nat a + Z.of_nat r)%Z) (seq O n) =
  map Z.of_nat (seq a n).
Proof.
  revert a. induction n as [|n IH]; intros a; [reflexivity|].
  cbn [seq map]. f_equal; [lia|].
  rewrite <- seq_shift, map_map, <- (IH (Datatypes.S a)).
  apply map_ext. intros r. lia.
Qed.

Lemma ranges_cover c total (f : nat -> list Z) :
  (1 <= c)%nat ->
  (forall y, (y * c < total)%nat ->
     f y = map Z.of_nat (seq (y * c) (Nat.min c (total - y * c)))) ->
  concat (map f (seq O ((total + c - 1) / c))) = map Z.of_nat (seq O total).
Proof.
  intros Hc H.
  transitivity (map Z.of_nat
                  (concat (map (fun y => seq (y * c) (Nat.min c (total - y * c)))
                               (seq O ((total + c - 1) / c)))));
    [|now rewrite chunks_cover].
  rewrite concat_map, map_map. f_equal. apply map_ext_in.
  intros y Hy. apply in_seq in Hy. apply H. apply ceil_lt; lia.
Qed.

Lemma key_iterations_from kKeysPerBlock num_keys fuel t0 :
  (1 <= kKeysPerBlock)%nat ->
  (Z.of_nat num_keys + Z.of_nat kKeysPerBlock <= 2147483648)%Z ->
  let T := ((num_keys + kKeysPerBlock - 1) / kKeysPerBlock)%nat in
  (T - t0 <= fuel)%nat ->
  key_iterations kKeysPerBlock fuel (Z.of_nat num_keys)
                 (Z.of_nat (t0 * kKeysPerBlock)) =
  map (fun t => (Z.of_nat (t * kKeysPerBlock),
                 Z.of_nat (Nat.min kKeysPerBlock
                                   (num_keys - t * kKeysPerBlock))))
      (seq t0 (T - t0)).
Proof.
  intros Hk Hmax T. revert t0.
  induction fuel as [|fuel IH]; intros t0 Hfuel.
  - replace (T - t0)%nat with O by lia. reflexivity.
  - cbn [key_iterations].
    destruct (Z.ltb_spec (Z.of_nat (t0 * kKeysPerBlock)) (Z.of_nat num_keys))
      as [Hlt|Hge].
    + assert (Ht : (t0 < T)%nat) by (apply ceil_lt; lia).
      replace (T - t0)%nat with (Datatypes.S (T - Datatypes.S t0)) by lia.
      cbn [seq map]. f_equal.
      * f_equal. rewrite !to_int32_small by lia. lia.
      * rewrite to_int32_small by lia.
        replace (Z.of_nat (t0 * kKeysPerBlock) + Z.of_nat kKeysPerBlock)%Z
          with (Z.of_nat (Datatypes.S t0 * kKeysPerBlock)) by lia.
        apply IH. lia.
    + assert (Ht : ~ (t0 < T)%nat) by (intros Ht; apply ceil_lt in Ht; lia).
      replace (T - t0)%nat with O by lia. reflexivity.
Qed.

End Walks.

(** X12. The loop over the key blocks ends, and its iterations cover the
    keys exactly once, in ascending order: it starts at the multiples of
    [kKeysPerBlock] below [num_keys], each iteration takes
    [min(kKeysPerBlock, num_keys - iter_key_start)] keys, and the ranges
    put end to end are [0, num_keys).  The 32-bit counter does not wrap
    as long as [num_keys + kKeysPerBlock <= 2^31]. *)
Theorem key_loop_visits_every_key_once
        (kKeysPerBlock num_keys fuel : nat) :
  (1 <= kKeysPerBlock)%nat ->
  (Z.of_nat num_keys + Z.of_nat kKeysPerBlock <= 2147483648)%Z ->
  (num_keys <= fuel)%nat ->
  let iterations :=
    Launch.key_iterations kKeysPerBlock fuel (Z.of_nat num_keys) 0 in
  map fst iterations =
    map Z.of_nat (Tiled.key_starts kKeysPerBlock num_keys) /\
  Forall (fun it => (1 <= snd it <= Z.of_nat kKeysPerBlock)%Z) iterations /\
  concat (map (fun it => map (fun r => (fst it + Z.of_nat r)%Z)
                             (seq O (Z.to_nat (snd it))))
              iterations) =
    map Z.of_nat (seq O num_keys).
Proof.
  intros Hk Hmax Hfuel iterations.
  set (T := ((num_keys + kKeysPerBlock - 1) / kKeysPerBlock)%nat).
  assert (HT : (T <= num_keys)%nat).
  { destruct T as [|T'] eqn:E; [lia|].
    assert (H : (T' < T)%nat) by lia. apply ceil_lt in H; [nia | exact Hk]. }
  assert (E : iterations =
              map (fun t => (Z.of_nat (t * kKeysPerBlock),
                             Z.of_nat (Nat.min kKeysPerBlock
                                         (num_keys - t * kKeysPerBlock))))
                  (seq O T)).
  { unfold iterations.
    pose proof (key_iterations_from kKeysPerBlock num_keys fuel O Hk Hmax)
      as H.
    cbv zeta in H. fold T in H. rewrite Nat.sub_0_r in H.
    apply H. lia. }
  rewrite E. split; [|split].
  - unfold Tiled.key_starts. fold T. rewrite !map_map. reflexivity.
  - apply Forall_forall. intros it Hit. apply in_map_iff in Hit.
    destruct Hit as (t & <- & Ht). apply in_seq in Ht. cbn [snd].
    assert ((t * kKeysPerBlock < num_keys)%nat) by (apply ceil_lt; [|fold T]; lia).
    lia.
  - rewrite map_map. apply ranges_cover; [exact Hk|].
    intros y Hy. cbn [fst snd]. now rewrite Nat2Z.id, map_offset_Z.
Qed.

Lemma key_loop_visits_every_key_once_100_keys :
  let iterations := Launch.key_iterations 64 100 (Z.of_nat 100) 0 in
  map fst iterations = map Z.of_nat (Tiled.key_starts 64 100) /\
  Forall (fun it => (1 <= snd it <= Z.of_nat 64)%Z) iterations /\
  concat (map (fun it => map (fun r => (fst it + Z.of_nat r)%Z)
                             (seq O (Z.to_nat (snd it))))
              iterations) =
    map Z.of_nat (seq O 100).
Proof.
  apply (key_loop_visits_every_key_once 64 100 100); lia.
Defined.

(** X13. The thread blocks of a launch partition the query rows: with
    [ceil_div] the quotient rounded up, [getBlocksGrid] launches
    [ceil(num_queries / kQueriesPerBlock)] blocks per batch, every block
    starts at [blockIdx.y * kQueriesPerBlock], owns at least one and at
    most [kQueriesPerBlock] rows, and the rows of the blocks put end to
    end are [0, num_queries); both numbers are below [2^31]. *)
Theorem query_blocks_partition_queries
        (kQueriesPerBlock : nat) (ceil_div : Z -> Z -> Z)
        (num_queries num_batches : nat) :
  (forall a b, (0 <= a)%Z -> (0 < b)%Z ->
     ceil_div a b = ((a + b - 1) / b)%Z) ->
  (1 <= kQueriesPerBlock)%nat ->
  (Z.of_nat kQueriesPerBlock < 2147483648)%Z ->
  (Z.of_nat num_queries < 2147483648)%Z ->
  let grid_y :=
    snd (fst (Launch.getBlocksGrid kQueriesPerBlock ceil_div
                (Z.of_nat num_queries) (Z.of_nat num_batches))) in
  (forall y,
     (0 <= y < grid_y)%Z ->
     Launch.query_start kQueriesPerBlock y =
       (y * Z.of_nat kQueriesPerBlock)%Z /\
     (1 <= Launch.problem_size_0_m kQueriesPerBlock (Z.of_nat num_queries) y
        <= Z.of_nat kQueriesPerBlock)%Z) /\
  concat (map (fun y =>
                 map (fun r => (Launch.query_start kQueriesPerBlock
                                                   (Z.of_nat y)
                                + Z.of_nat r)%Z)
                     (seq O (Z.to_nat (Launch.problem_size_0_m
                                         kQueriesPerBlock
                                         (Z.of_nat num_queries)
                                         (Z.of_nat y)))))
              (seq O (Z.to_nat grid_y))) =
    map Z.of_nat (seq O num_queries).
Proof.
  intros Hceil Hq Hmax Hmax' grid_y.
  set (T := ((num_queries + kQueriesPerBlock - 1) / kQueriesPerBlock)%nat).
  assert (Hgrid : grid_y = Z.of_nat T).
  { unfold grid_y, Launch.getBlocksGrid. cbn [fst snd].
    rewrite to_int32_small by lia. rewrite Hceil by lia.
    unfold T. rewrite Nat2Z.inj_div. f_equal. lia. }
  assert (Hblock : forall y, (y * kQueriesPerBlock < num_queries)%nat ->
            Launch.query_start kQueriesPerBlock (Z.of_nat y) =
              Z.of_nat (y * kQueriesPerBlock) /\
            Launch.problem_size_0_m kQueriesPerBlock (Z.of_nat num_queries)
                                    (Z.of_nat y) =
              Z.of_nat (Nat.min kQueriesPerBlock
                                (num_queries - y * kQueriesPerBlock))).
  { intros y Hy. unfold Launch.problem_size_0_m, Launch.query_start.
    rewrite (to_int32_small (Z.of_nat y * _)) by lia.
    rewrite !to_int32_small by lia. split; lia. }
  rewrite Hgrid. split.
  - intros y Hy.
    assert (Hy' : (Z.to_nat y * kQueriesPerBlock < num_queries)%nat)
      by (apply ceil_lt; [|fold T]; lia).
    destruct (Hblock (Z.to_nat y) Hy') as (E1 & E2).
    rewrite Z2Nat.id in E1, E2 by lia. rewrite E1, E2. lia.
  - rewrite Nat2Z.id. apply ranges_cover; [exact Hq|].
    intros y Hy. destruct (Hblock y Hy) as (-> & ->).
    now rewrite Nat2Z.id, map_offset_Z.
Qed.

Lemma query_blocks_partition_queries_100_rows :
  let ceil_div := fun a b => ((a + b - 1) / b)%Z in
  let grid_y :=
    snd (fst (Launch.getBlocksGrid 64 ceil_div (Z.of_nat 100) (Z.of_nat 2))) in
  (forall y,
     (0 <= y < grid_y)%Z ->
     Launch.query_start 64 y = (y * Z.of_nat 64)%Z /\
     (1 <= Launch.problem_size_0_m 64 (Z.of_nat 100) y <= Z.of_nat 64)%Z) /\
  concat (map (fun y =>
                 map (fun r => (Launch.query_start 64 (Z.of_nat y)
                                + Z.of_nat r)%Z)
                     (seq O (Z.to_nat (Launch.problem_size_0_m
                                         64 (Z.of_nat 100) (Z.of_nat y)))))
              (seq O (Z.to_nat grid_y))) =
    map Z.of_nat (seq O 100).
Proof.
  intros ceil_div.
  apply (query_blocks_partition_queries 64 ceil_div 100 2); try lia.
  intros a b _ _. reflexivity.
Defined.

Section LogSumExp.

Import Launch.

Variable kQueriesPerBlock : nat.
Variable ceil_div : Z -> Z -> Z.
Variable num_queries : nat.
Variables m_prime s_prime : Z -> scalar.

Hypothesis Hceil :
  forall a b, (0 <= a)%Z -> (0 < b)%Z -> ceil_div a b = ((a + b - 1) / b)%Z.
Hypothesis Hq32 : (kQueriesPerBlock mod 32 = 0)%nat.
Hypothesis Hq1 : (1 <= kQueriesPerBlock)%nat.
Hypothesis Hmax :
  (Z.of_nat num_queries + Z.of_nat kQueriesPerBlock < 2147483648)%Z.

Let kQ := Z.of_nat kQueriesPerBlock.
Let M := Z.of_nat num_queries.
Let grid_y := snd (fst (getBlocksGrid kQueriesPerBlock ceil_div M 1%Z)).
Let lse := lse_dim ceil_div M.

Lemma kQ_multiple : exists a, (1 <= a)%Z /\ kQ = (32 * a)%Z.
Proof.
  pose proof (Nat.div_mod_eq kQueriesPerBlock 32) as E.
  rewrite Hq32, Nat.add_0_r in E.
  exists (Z.of_nat (kQueriesPerBlock / 32)). unfold kQ. lia.
Qed.

Lemma grid_y_spec y : (0 <= y < grid_y)%Z <-> (0 <= y /\ y * kQ < M)%Z.
Proof.
  destruct kQ_multiple as (a & Ha & Ea).
  unfold grid_y, getBlocksGrid. cbn [fst snd].
  rewrite to_int32_small by lia. fold kQ.
  rewrite Hceil by lia.
  pose proof (Z.div_mod (M + kQ - 1) kQ ltac:(lia)) as Hd.
  pose proof (Z.mod_pos_bound (M + kQ - 1) kQ ltac:(lia)) as Hm.
  split; intros H; nia.
Qed.

Lemma lse_spec :
  exists l, lse = (32 * l)%Z /\ (M <= lse < M + 32)%Z.
Proof.
  destruct kQ_multiple as (a & Ha & Ea).
  unfold lse, lse_dim, kAlignLSE. fold M.
  rewrite (to_int32_small M) by lia. rewrite Hceil by lia.
  pose proof (Z.div_mod (M + Z.of_nat 32 - 1) (Z.of_nat 32) ltac:(lia)) as Hd.
  pose proof (Z.mod_pos_bound (M + Z.of_nat 32 - 1) (Z.of_nat 32) ltac:(lia))
    as Hm.
  rewrite to_int32_small by lia.
  exists ((M + Z.of_nat 32 - 1) / Z.of_nat 32)%Z. lia.
Qed.

Lemma logsumexp_write_in_grid y t :
  (0 <= y < grid_y)%Z -> (0 <= t)%Z ->
  logsumexp_write kQueriesPerBlock M m_prime s_prime y t =
  if (t <? kQ)%Z then
    if (y * kQ + t <? M)%Z
    then Some ((y * kQ + t)%Z, sadd (m_prime t) (slog (s_prime t)))
    else if (t <? 32)%Z then Some ((y * kQ + t)%Z, PInf) else None
  else None.
Proof.
  intros Hy Ht. apply grid_y_spec in Hy. unfold logsumexp_write. fold kQ.
  destruct (Z.ltb_spec t kQ) as [Hlt|]; [|reflexivity].
  unfold query_start. fold kQ.
  rewrite (to_int32_small (y * kQ)) by lia.
  rewrite !to_int32_small by lia. reflexivity.
Qed.

End LogSumExp.

(** X14. The log-sum-exp epilogue of a launch writes inside the padded
    row of the batch and writes no element twice: a thread that writes,
    writes the element [blockIdx.y * kQueriesPerBlock + thread_id], below
    [lse_dim]; below [num_queries] it writes
    [m_prime + log(s_prime)], from there on [+inf]; and every query row
    gets its element.  It holds for [kQueriesPerBlock] a positive multiple
    of 32, [ceil_div] the quotient rounded up and
    [num_queries + kQueriesPerBlock < 2^31]. *)
Theorem logsumexp_writes_stay_in_bounds
        (kQueriesPerBlock : nat) (ceil_div : Z -> Z -> Z) (num_queries : nat)
        (m_prime s_prime : Z -> scalar) :
  (forall a b, (0 <= a)%Z -> (0 < b)%Z ->
     ceil_div a b = ((a + b - 1) / b)%Z) ->
  (kQueriesPerBlock mod 32 = 0)%nat -> (1 <= kQueriesPerBlock)%nat ->
  (Z.of_nat num_queries + Z.of_nat kQueriesPerBlock < 2147483648)%Z ->
  let M := Z.of_nat num_queries in
  let kQ := Z.of_nat kQueriesPerBlock in
  let grid_y :=
    snd (fst (Launch.getBlocksGrid kQueriesPerBlock ceil_div M 1%Z)) in
  let write := Launch.logsumexp_write kQueriesPerBlock M m_prime s_prime in
  (forall y t idx x,
     (0 <= y < grid_y)%Z -> (0 <= t)%Z -> write y t = Some (idx, x) ->
     (0 <= idx < Launch.lse_dim ceil_div M)%Z /\
     idx = (y * kQ + t)%Z /\ (t < kQ)%Z /\
     x = (if (idx <? M)%Z then sadd (m_prime t) (Launch.slog (s_prime t))
          else PInf)) /\
  (forall y t y' t' idx x x',
     (0 <= y < grid_y)%Z -> (0 <= t)%Z -> (0 <= y' < grid_y)%Z ->
     (0 <= t')%Z ->
     write y t = Some (idx, x) -> write y' t' = Some (idx, x') ->
     y = y' /\ t = t') /\
  (forall idx,
     (0 <= idx < M)%Z ->
     exists y t,
       (0 <= y < grid_y)%Z /\ (0 <= t < kQ)%Z /\
       write y t =
         Some (idx, sadd (m_prime t) (Launch.slog (s_prime t)))).
Proof.
  intros Hceil Hq32 Hq1 Hmax M kQ grid_y write.
  subst M kQ grid_y write.
  pose proof (logsumexp_write_in_grid kQueriesPerBlock ceil_div num_queries
                m_prime s_prime Hceil Hq32 Hq1 Hmax) as Hw.
  pose proof (grid_y_spec kQueriesPerBlock ceil_div num_queries
                Hceil Hq32 Hq1 Hmax) as Hg.
  destruct (lse_spec kQueriesPerBlock ceil_div num_queries Hceil Hq32 Hq1 Hmax)
    as (l & El & Hl).
  destruct (kQ_multiple kQueriesPerBlock ceil_div num_queries Hq32 Hq1)
    as (a & Ha & Ea).
  set (M := Z.of_nat num_queries) in *.
  set (kQ := Z.of_nat kQueriesPerBlock) in *.
  set (grid_y := snd (fst (Launch.getBlocksGrid kQueriesPerBlock ceil_div M 1)))
    in *.
  set (write := Launch.logsumexp_write kQueriesPerBlock M m_prime s_prime) in *.
  assert (Hinv : forall y t idx x,
            (0 <= y < grid_y)%Z -> (0 <= t)%Z -> write y t = Some (idx, x) ->
            idx = (y * kQ + t)%Z /\ (t < kQ)%Z /\
            (M <= idx -> t < 32)%Z /\
            x = (if (idx <? M)%Z
                 then sadd (m_prime t) (Launch.slog (s_prime t)) else PInf)).
  { intros y t idx x Hy Ht E. rewrite (Hw y t Hy Ht) in E.
    destruct (Z.ltb_spec t kQ) as [Hlt|]; [|discriminate].
    destruct (Z.ltb_spec (y * kQ + t) M) as [Hv|Hv].
    - injection E as <- <-.
      destruct (Z.ltb_spec (y * kQ + t) M); [|lia].
      repeat split; try lia.
    - destruct (Z.ltb_spec t 32) as [H32|]; [|discriminate].
      injection E as <- <-.
      destruct (Z.ltb_spec (y * kQ + t) M); [lia|].
      repeat split; try lia. }
  split; [|split].
  - intros y t idx x Hy Ht E.
    destruct (Hinv y t idx x Hy Ht E) as (Ei & Hlt & Hpad & Ex).
    apply Hg in Hy. split; [|now repeat split].
    split; [nia|].
    destruct (Z.lt_ge_cases idx M) as [|Hge]; [lia|].
    specialize (Hpad Hge).
    assert (y * a < l)%Z by nia. nia.
  - intros y t y' t' idx x x' Hy Ht Hy' Ht' E E'.
    destruct (Hinv y t idx x Hy Ht E) as (Ei & Hlt & _).
    destruct (Hinv y' t' idx x' Hy' Ht' E') as (Ei' & Hlt' & _).
    assert (y = y') by nia. subst y'. split; [reflexivity | lia].
  - intros idx Hidx. exists (idx / kQ)%Z, (idx mod kQ)%Z.
    pose proof (Z.div_mod idx kQ ltac:(lia)) as Hd.
    pose proof (Z.mod_pos_bound idx kQ ltac:(lia)) as Hm.
    assert (Hy : (0 <= idx / kQ < grid_y)%Z).
    { apply Hg. split; [apply Z.div_pos; lia | nia]. }
    split; [exact Hy|]. split; [exact Hm|].
    rewrite (Hw _ _ Hy) by lia.
    destruct (Z.ltb_spec (idx mod kQ) kQ); [|lia].
    replace (idx / kQ * kQ + idx mod kQ)%Z with idx by lia.
    destruct (Z.ltb_spec idx M); [reflexivity | lia].
Qed.

Lemma logsumexp_writes_stay_in_bounds_100_rows :
  let ceil_div := fun a b => ((a + b - 1) / b)%Z in
  let m_prime := fun _ : Z => Fin 0 in
  let s_prime := fun _ : Z => Fin 1 in
  let M := Z.of_nat 100 in
  let kQ := Z.of_nat 64 in
  let grid_y := snd (fst (Launch.getBlocksGrid 64 ceil_div M 1%Z)) in
  let write := Launch.logsumexp_write 64 M m_prime s_prime in
  (forall y t idx x,
     (0 <= y < grid_y)%Z -> (0 <= t)%Z -> write y t = Some (idx, x) ->
     (0 <= idx < Launch.lse_dim ceil_div M)%Z /\
     idx = (y * kQ + t)%Z /\ (t < kQ)%Z /\
     x = (if (idx <? M)%Z then sadd (m_prime t) (Launch.slog (s_prime t))
          else PInf)) /\
  (forall y t y' t' idx x x',
     (0 <= y < grid_y)%Z -> (0 <= t)%Z -> (0 <= y' < grid_y)%Z ->
     (0 <= t')%Z ->
     write y t = Some (idx, x) -> write y' t' = Some (idx, x') ->
     y = y' /\ t = t') /\
  (forall idx,
     (0 <= idx < M)%Z ->
     exists y t,
       (0 <= y < grid_y)%Z /\ (0 <= t < kQ)%Z /\
       write y t =
         Some (idx, sadd (m_prime t) (Launch.slog (s_prime t)))).
Proof.
  intros ceil_div m_prime s_prime.
  apply (logsumexp_writes_stay_in_bounds 64 ceil_div 100 m_prime s_prime);
    try reflexivity; try lia.
Defined.

(** X15. The padding of the log-sum-exp row, the elements from
    [num_queries] up to [lse_dim], is written by the last thread block
    only, and only through its first 32 threads: when that block owns at
    most 32 query rows every element of the padding is set to [+inf];
    when it owns more than 32, no thread of the launch writes any element
    at or after [num_queries], so the padding keeps what the buffer
    held. *)
Theorem logsumexp_padding
        (kQueriesPerBlock : nat) (ceil_div : Z -> Z -> Z) (num_queries : nat)
        (m_prime s_prime : Z -> scalar) :
  (forall a b, (0 <= a)%Z -> (0 < b)%Z ->
     ceil_div a b = ((a + b - 1) / b)%Z) ->
  (kQueriesPerBlock mod 32 = 0)%nat -> (1 <= kQueriesPerBlock)%nat ->
  (Z.of_nat num_queries + Z.of_nat kQueriesPerBlock < 2147483648)%Z ->
  (1 <= num_queries)%nat ->
  let M := Z.of_nat num_queries in
  let kQ := Z.of_nat kQueriesPerBlock in
  let grid_y :=
    snd (fst (Launch.getBlocksGrid kQueriesPerBlock ceil_div M 1%Z)) in
  let write := Launch.logsumexp_write kQueriesPerBlock M m_prime s_prime in
  let last := (grid_y - 1)%Z in
  ((M - last * kQ <= 32)%Z ->
   forall idx,
     (M <= idx < Launch.lse_dim ceil_div M)%Z ->
     exists t, (0 <= t < kQ)%Z /\ write last t = Some (idx, PInf)) /\
  ((32 < M - last * kQ)%Z ->
   forall y t idx x,
     (0 <= y < grid_y)%Z -> (0 <= t)%Z -> (M <= idx)%Z ->
     write y t <> Some (idx, x)).
Proof.
  intros Hceil Hq32 Hq1 Hmax HM M kQ grid_y write last.
  subst M kQ grid_y write last.
  pose proof (logsumexp_write_in_grid kQueriesPerBlock ceil_div num_queries
                m_prime s_prime Hceil Hq32 Hq1 Hmax) as Hw.
  pose proof (grid_y_spec kQueriesPerBlock ceil_div num_queries
                Hceil Hq32 Hq1 Hmax) as Hg.
  destruct (lse_spec kQueriesPerBlock ceil_div num_queries Hceil Hq32 Hq1 Hmax)
    as (l & El & Hl).
  destruct (kQ_multiple kQueriesPerBlock ceil_div num_queries Hq32 Hq1)
    as (a & Ha & Ea).
  set (M := Z.of_nat num_queries) in *.
  set (kQ := Z.of_nat kQueriesPerBlock) in *.
  set (grid_y := snd (fst (Launch.getBlocksGrid kQueriesPerBlock ceil_div M 1)))
    in *.
  set (write := Launch.logsumexp_write kQueriesPerBlock M m_prime s_prime) in *.
  assert (H0 : (0 < grid_y)%Z) by (apply (Hg 0%Z); lia).
  assert (Hlast : (0 <= grid_y - 1 < grid_y)%Z) by lia.
  pose proof (proj1 (Hg _) Hlast) as (_ & Hlt).
  assert (Hend : (M <= grid_y * kQ)%Z).
  { destruct (Z.lt_ge_cases (grid_y * kQ) M) as [Hc|]; [|lia].
    assert (0 <= grid_y < grid_y)%Z by (apply Hg; lia). lia. }
  set (last := (grid_y - 1)%Z) in *.
  set (c := (last * a)%Z).
  assert (Ec : (last * kQ = 32 * c)%Z) by (unfold c; nia).
  split.
  - intros Hfew idx Hidx. exists (idx - last * kQ)%Z.
    assert (Ht : (0 <= idx - last * kQ < 32)%Z) by lia.
    split; [lia|]. unfold write in *. rewrite (Hw _ _ Hlast) by lia.
    destruct (Z.ltb_spec (idx - last * kQ) kQ); [|lia].
    replace (last * kQ + (idx - last * kQ))%Z with idx by lia.
    destruct (Z.ltb_spec idx M); [lia|].
    destruct (Z.ltb_spec (idx - last * kQ) 32); [reflexivity | lia].
  - intros Hmany y t idx x Hy Ht Hidx E.
    unfold write in *. rewrite (Hw y t Hy Ht) in E.
    destruct (Z.ltb_spec t kQ); [|discriminate].
    assert (Hyl : (y * kQ <= last * kQ)%Z) by (unfold last; nia).
    destruct (Z.ltb_spec (y * kQ + t) M).
    + injection E as E _. lia.
    + destruct (Z.ltb_spec t 32); [|discriminate]. lia.
Qed.

Lemma logsumexp_padding_100_rows :
  let ceil_div := fun a b => ((a + b - 1) / b)%Z in
  let m_prime := fun _ : Z => Fin 0 in
  let s_prime := fun _ : Z => Fin 1 in
  let M := Z.of_nat 100 in
  let kQ := Z.of_nat 64 in
  let grid_y := snd (fst (Launch.getBlocksGrid 64 ceil_div M 1%Z)) in
  let write := Launch.logsumexp_write 64 M m_prime s_prime in
  let last := (grid_y - 1)%Z in
  ((M - last * kQ <= 32)%Z ->
   forall idx,
     (M <= idx < Launch.lse_dim ceil_div M)%Z ->
     exists t, (0 <= t < kQ)%Z /\ write last t = Some (idx, PInf)) /\
  ((32 < M - last * kQ)%Z ->
   forall y t idx x,
     (0 <= y < grid_y)%Z -> (0 <= t)%Z -> (M <= idx)%Z ->
     write y t <> Some (idx, x)).
Proof.
  intros ceil_div m_prime s_prime.
  apply (logsumexp_padding 64 ceil_div 100 m_prime s_prime);
    try reflexivity; try lia.
Defined.

(** * The tiled kernel on one batch element of a batched launch *)

Section BatchedBlock.

Import Textbook Launch.







End BatchedBlock.



(** X17. [batched_forward_bp16] turns the run-time fields of its
    parameters into template arguments: for [custom_mask_type] 0, 1 or 2
    it makes one call, of the instance for that mask type and for the
    value of [has_attn_bias]; for every other value, negative ones
    included, it throws "Invalid custom_mask_type value", with or without
    a bias. *)
Theorem batched_forward_bp16_dispatch (param : Hip.BatchedForwardParams) :
  Hip.batched_forward_bp16 param =
  if ((0 <=? Hip.custom_mask_type param) &&
      (Hip.custom_mask_type param <=? 2))%Z
  then Hip.Ran (Hip.custom_mask_type param) (Hip.has_attn_bias param)
  else Hip.Threw Hip.invalid_mask_type.
Proof.
  unfold Hip.batched_forward_bp16.
  destruct param as [bias mask]. cbn [Hip.custom_mask_type Hip.has_attn_bias].
  destruct (Z.eqb_spec mask 0) as [->|H0]; [now destruct bias|].
  destruct (Z.eqb_spec mask 1) as [->|H1]; [now destruct bias|].
  destruct (Z.eqb_spec mask 2) as [->|H2]; [now destruct bias|].
  destruct (Z.leb_spec 0 mask); destruct (Z.leb_spec mask 2);
    cbn [andb]; try (now destruct bias). lia.
Qed.

(** X18. In a device pass for an architecture of at least 5.0 exactly one
    of the four generations has its kernels instantiated, the newest one
    that is not newer than the architecture; the entry points of the
    other three only print the fatal message.  The host pass instantiates
    no kernel, and a pass below 5.0 does not compile. *)
Theorem one_generation_per_device_pass (cuda_arch : nat) :
  (500 <= cuda_arch)%nat ->
  exists ARCH,
    In ARCH Launch.generations /\
    (ARCH * 10 <= cuda_arch)%nat /\
    Launch.instantiate (Some cuda_arch) ARCH = Launch.Kernel /\
    (forall other,
       In other Launch.generations ->
       (other * 10 <= cuda_arch)%nat -> (other <= ARCH)%nat) /\
    (forall other,
       In other Launch.generations -> other <> ARCH ->
       Launch.instantiate (Some cuda_arch) other = Launch.FatalStub) /\
    (forall other, Launch.instantiate None other = Launch.FatalStub).
Proof.
  intros H. unfold Launch.instantiate, Launch.generations.
  destruct (Nat.ltb_spec cuda_arch 500) as [|_]; [lia|].
  destruct (Nat.ltb_spec cuda_arch 700);
    [exists 50%nat|
     destruct (Nat.ltb_spec cuda_arch 750);
     [exists 70%nat|
      destruct (Nat.ltb_spec cuda_arch 800); [exists 75%nat | exists 80%nat]]];
    (split; [simpl; tauto|]); (split; [lia|]); (split; [reflexivity|]);
    (split; [intros other [<-|[<-|[<-|[<-|[]]]]] Ho; lia|]);
    (split; [|reflexivity]);
    intros other [<-|[<-|[<-|[<-|[]]]]] Hne; try reflexivity; congruence.
Qed.

Lemma one_generation_per_device_pass_sm86 :
  exists ARCH,
    In ARCH Launch.generations /\
    (ARCH * 10 <= 860)%nat /\
    Launch.instantiate (Some 860%nat) ARCH = Launch.Kernel /\
    (forall other,
       In other Launch.generations ->
       (other * 10 <= 860)%nat -> (other <= ARCH)%nat) /\
    (forall other,
       In other Launch.generations -> other <> ARCH ->
       Launch.instantiate (Some 860%nat) other = Launch.FatalStub) /\
    (forall other, Launch.instantiate None other = Launch.FatalStub).
Proof.
  apply (one_generation_per_device_pass 860).
  apply Nat.leb_le. reflexivity.
Defined.

Lemma concat_map_repeat {A : Type} (x : A) n cnt lo :
  concat (map (fun _ : nat => repeat x n) (seq lo cnt)) = repeat x (cnt * n).
Proof.
  revert lo. induction cnt as [|cnt IH]; intros lo; [reflexivity|].
  cbn [seq map concat]. rewrite IH, <- repeat_app. reflexivity.
Qed.

(** X19. Without a key the scalar kernel divides the zero accumulator by
    the zero sum: for a Key of length zero, whatever Query and Value
    hold, it reads no input and fills the output with NaN. *)
Theorem no_key_output_is_all_nan (query key value : TensorAccessor3) :
  size1 key = O ->
  Cpu.attention_kernel query key value =
  Some (repeat NaN (size0 query * size1 query * size2 query)).
Proof.
  intros HN.
  rewrite (attention_kernel_rows query key value
             (fun _ _ => repeat NaN (size2 query))).
  - f_equal. rewrite (map_ext _ (fun _ => repeat NaN (size1 query * size2 query)))
      by (intros; apply concat_map_repeat).
    rewrite concat_map_repeat. f_equal. lia.
  - intros i j _ _. exists (Cpu.row_init (size2 query)).
    unfold Cpu.row_kernel, Cpu.key_loop. rewrite HN. cbn [for_loop].
    rewrite write_row_map by apply repeat_length.
    cbn [Cpu.row_init Cpu.buf Cpu.s_prime]. unfold Cpu.fill_zero.
    rewrite map_repeat. do 3 f_equal.
    unfold sdiv, mul_inf.
    destruct (Req_dec_T 0 0) as [_|Hne]; [|congruence].
    destruct (Rlt_dec 0 0) as [Hlt|_]; [lra | reflexivity].
Qed.

Lemma no_key_output_is_all_nan_two_queries :
  Cpu.attention_kernel (mkAccessor [Fin 1; PInf] 1 2 1)
                       (mkAccessor [] 1 0 1) (mkAccessor [] 1 0 1) =
  Some (repeat NaN (1 * 2 * 1)).
Proof.
  apply (no_key_output_is_all_nan (mkAccessor [Fin 1; PInf] 1 2 1)
           (mkAccessor [] 1 0 1) (mkAccessor [] 1 0 1)).
  reflexivity.
Defined.



(** ** NaN and [-inf] scores in the scalar kernel *)

Section Poison.

Lemma for_loop_app {S : Type} (body : nat -> S -> option S) a b lo s :
  for_loop body lo (a + b) s =
  (s' <- for_loop body lo a s ;; for_loop body (lo + a)%nat b s').
Proof.
  revert lo s. induction a as [|a IH]; intros lo s; simpl.
  - now rewrite Nat.add_0_r.
  - destruct (body lo s) as [s1|]; [|reflexivity].
    rewrite IH. now replace (Datatypes.S lo + a)%nat
                  with (lo + Datatypes.S a)%nat by lia.
Qed.

Lemma dot_loop_nan (aar bar : ptr) n lo acc :
  (lo + n <= length aar)%nat -> (lo + n <= length bar)%nat ->
  acc = NaN \/
  (exists k, (lo <= k < lo + n)%nat /\
             (nth_error aar k = Some NaN \/ nth_error bar k = Some NaN)) ->
  for_loop (fun k si => a <- load aar k ;; b <- load bar k ;;
                        Some (sadd si (smul a b)))
           lo n acc = Some NaN.
Proof.
  revert lo acc. induction n as [|n IH]; intros lo acc Ha Hb H.
  - destruct H as [->|(k & Hk & _)]; [reflexivity | lia].
  - cbn [for_loop]. unfold load.
    destruct (nth_error aar lo) as [a|] eqn:Ea;
      [|apply nth_error_None in Ea; lia].
    destruct (nth_error bar lo) as [b|] eqn:Eb;
      [|apply nth_error_None in Eb; lia].
    apply IH; try lia.
    destruct H as [->|(k & Hk & Hnan)]; [now left|].
    destruct (Nat.eq_dec k lo) as [->|Hne].
    + left. rewrite Ea, Eb in Hnan.
      destruct Hnan as [E|E]; injection E as ->.
      * now destruct acc.
      * now destruct acc, a.
    + right. exists k. split; [lia | exact Hnan].
Qed.

Lemma zip_with_repeat_nan (f : scalar -> scalar -> scalar) K l :
  length l = K -> (forall v, f NaN v = NaN) ->
  zip_with f (repeat NaN K) l = repeat NaN K.
Proof.
  intros Hl Hf. revert l Hl. induction K as [|K IH]; intros [|v l] Hl;
    simpl in *; try discriminate; [reflexivity|].
  rewrite Hf. f_equal. apply IH. lia.
Qed.

Lemma fold_key_nan_score K vi st :
  length (Cpu.buf st) = K -> (K <= length vi)%nat ->
  exists st',
    Cpu.fold_key K NaN vi st = Some st' /\
    Cpu.s_prime st' = NaN /\ Cpu.buf st' = repeat NaN K.
Proof.
  intros Hb Hv. unfold Cpu.fold_key.
  rewrite accumulate_pointwise by assumption.
  eexists. split; [reflexivity|]. cbn [Cpu.s_prime Cpu.buf]. split.
  - cbn [sgt ssub sadd sexp]. now destruct (smul _ _).
  - apply zip_with_const; [exact Hb | rewrite length_firstn; lia |].
    intros a b. cbn [sgt ssub sadd sexp].
    destruct (smul a _), b; reflexivity.
Qed.

Lemma fold_key_poisoned K si vi st :
  Cpu.s_prime st = NaN -> Cpu.buf st = repeat NaN K ->
  (K <= length vi)%nat ->
  exists st',
    Cpu.fold_key K si vi st = Some st' /\
    Cpu.s_prime st' = NaN /\ Cpu.buf st' = repeat NaN K.
Proof.
  intros Hs Hb Hv. unfold Cpu.fold_key.
  rewrite accumulate_pointwise by (rewrite ?Hb, ?repeat_length; lia).
  eexists. split; [reflexivity|]. cbn [Cpu.s_prime Cpu.buf]. split.
  - now rewrite Hs.
  - rewrite Hb. apply zip_with_repeat_nan; [|reflexivity].
    rewrite length_firstn. lia.
Qed.

(** The row the kernel leaves in the output is the row [row_kernel]
    writes. *)
Lemma kernel_row query key value i j oo st :
  Shape.consistent query key value ->
  (i < size0 query)%nat -> (j < size1 query)%nat ->
  Cpu.row_kernel (size2 query) (size1 key) query key value i j =
    Some (oo, st) ->
  exists out,
    Cpu.attention_kernel query key value = Some out /\
    firstn (size2 query)
           (row_ptr (mkAccessor out (size0 query) (size1 query) (size2 query))
                    i j) = oo.
Proof.
  intros H Hi Hj Hrow.
  set (g := fun i j =>
              match Cpu.row_kernel (size2 query) (size1 key) query key value i j
              with
              | Some r => fst r
              | None => []
              end).
  exists (concat (map (fun i => concat (map (g i) (seq O (size1 query))))
                      (seq O (size0 query)))).
  split.
  - apply attention_kernel_rows. intros i' j' Hi' Hj'.
    destruct (row_kernel_in_bounds query key value i' j' H Hi' Hj')
      as (oo' & st' & Ek & _).
    exists st'. unfold g. now rewrite Ek.
  - rewrite (output_row g); try assumption.
    + unfold g. now rewrite Hrow.
    + intros i' j' Hi' Hj'.
      destruct (row_kernel_in_bounds query key value i' j' H Hi' Hj')
        as (oo' & st' & Ek & Hlen).
      unfold g. now rewrite Ek.
Qed.

End Poison.

(** X21. A NaN among the first [K] elements of a query row or of one of
    the key rows of its batch makes the score of that key NaN, and from
    that key on the normalizing sum and the accumulator are NaN: the
    scalar kernel writes a row of NaN for that query, whatever the other
    keys and the values are (inputs of consistent shapes). *)
Theorem nan_score_poisons_row
        (query key value : TensorAccessor3) (i j l k : nat) :
  Shape.consistent query key value ->
  (i < size0 query)%nat -> (j < size1 query)%nat ->
  (l < size1 key)%nat -> (k < size2 query)%nat ->
  nth_error (row_ptr query i j) k = Some NaN \/
  nth_error (row_ptr key i l) k = Some NaN ->
  exists out,
    Cpu.attention_kernel query key value = Some out /\
    firstn (size2 query)
           (row_ptr (mkAccessor out (size0 query) (size1 query) (size2 query))
                    i j) = repeat NaN (size2 query).
Proof.
  intros H Hi Hj Hl Hk Hnan.
  pose proof H as (Hq & Hkey & Hv & Hk0 & Hk2 & Hv0 & Hv1 & Hv2).
  set (K := size2 query) in *. set (N := size1 key) in *.
  assert (Hqr : (K <= length (row_ptr query i j))%nat)
    by (now apply row_ptr_length).
  assert (Hkr : forall l', (l' < N)%nat ->
            (K <= length (row_ptr key i l'))%nat).
  { intros l' Hl'. rewrite <- Hk2.
    apply row_ptr_length; [assumption | lia | exact Hl']. }
  assert (Hvr : forall l', (l' < N)%nat ->
            (K <= length (row_ptr value i l'))%nat).
  { intros l' Hl'. rewrite <- Hv2.
    apply row_ptr_length; [assumption | lia | lia]. }
  assert (Hrow : exists st,
            Cpu.row_kernel K N query key value i j =
            Some (repeat NaN K, st)).
  { unfold Cpu.row_kernel, Cpu.key_loop.
    replace N with (l + (1 + (N - l - 1)))%nat by lia.
    rewrite for_loop_app.
    destruct (for_loop_total
                (fun st => length (Cpu.buf st) = K)
                (Cpu.key_body K (row_ptr query i j) key value i)
                l O (Cpu.row_init K)) as (st1 & E1 & Hlen1).
    { apply repeat_length. }
    { intros l' st Hl' Hst. unfold Cpu.key_body.
      destruct (dot_in_bounds K (row_ptr query i j) (row_ptr key i l'))
        as (si & ->); [exact Hqr | apply Hkr; lia |].
      apply fold_key_in_bounds; [exact Hst | apply Hvr; lia]. }
    rewrite E1, for_loop_app. cbn [for_loop Nat.add].
    unfold Cpu.key_body at 1. unfold Cpu.dot.
    rewrite (dot_loop_nan (row_ptr query i j) (row_ptr key i l) K O (Fin 0));
      [|exact Hqr | apply Hkr; exact Hl |
       right; exists k; split; [lia | exact Hnan]].
    destruct (fold_key_nan_score K (row_ptr value i l) st1 Hlen1 (Hvr l Hl))
      as (st2 & E2 & Hs2 & Hb2).
    rewrite E2.
    destruct (for_loop_total
                (fun st => Cpu.s_prime st = NaN /\ Cpu.buf st = repeat NaN K)
                (Cpu.key_body K (row_ptr query i j) key value i)
                (N - l - 1) (l + 1) st2 (conj Hs2 Hb2)) as (st3 & E3 & Hs3 & Hb3).
    { intros l' st Hl' (Hs & Hb). unfold Cpu.key_body.
      destruct (dot_in_bounds K (row_ptr query i j) (row_ptr key i l'))
        as (si & ->); [exact Hqr | apply Hkr; lia |].
      apply fold_key_poisoned; [exact Hs | exact Hb | apply Hvr; lia]. }
    rewrite E3, write_row_map by (rewrite Hb3; apply repeat_length).
    exists st3. rewrite Hb3, Hs3, map_repeat. reflexivity. }
  destruct Hrow as (st & Hrow).
  exact (kernel_row query key value i j _ st H Hi Hj Hrow).
Qed.

Lemma nan_score_poisons_row_second_key :
  let query := mkAccessor [Fin 1; Fin 0] 1 1 2 in
  let key := mkAccessor [Fin 1; Fin 0; NaN; Fin 1; Fin 0; Fin 1] 1 3 2 in
  let value := mkAccessor [Fin 1; Fin 2; Fin 3; Fin 4; Fin 5; Fin 6] 1 3 2 in
  exists out,
    Cpu.attention_kernel query key value = Some out /\
    firstn 2 (row_ptr (mkAccessor out 1 1 2) 0 0) = repeat NaN 2.
Proof.
  intros query key value.
  apply (nan_score_poisons_row query key value 0 0 1 0); try (simpl; lia).
  - unfold Shape.consistent, Shape.well_formed. simpl. repeat split.
  - right. reflexivity.
Defined.

(** X22. A key whose score is [-inf], met after the running max has
    become finite, is masked out: the step leaves the running max, the
    normalizing sum and the accumulator as they were (statistics and
    value row finite). *)
Theorem masked_key_after_finite_is_ignored
        (K : nat) (vi : ptr) (st : Cpu.row_state) (m s : R) (b v : list R) :
  Cpu.m_prime st = Fin m -> Cpu.s_prime st = Fin s ->
  Cpu.buf st = map Fin b -> length b = K ->
  firstn K vi = map Fin v -> length v = K ->
  exists st',
    Cpu.fold_key K NInf vi st = Some st' /\
    Cpu.m_prime st' = Fin m /\ Cpu.s_prime st' = Fin s /\
    Cpu.buf st' = map Fin b.
Proof.
  intros Hm Hs Hb Hlb Hvi Hlv.
  assert (HK : (K <= length vi)%nat).
  { rewrite <- Hlv, <- (length_map Fin v), <- Hvi, length_firstn. lia. }
  unfold Cpu.fold_key.
  rewrite accumulate_pointwise by (rewrite ?Hb, ?length_map; assumption).
  eexists. split; [reflexivity|].
  cbn [Cpu.m_prime Cpu.s_prime Cpu.buf]. rewrite Hm, Hs, Hb, Hvi.
  cbn [sgt ssub sneg sadd sexp smul].
  replace (m + - m) with 0 by lra. rewrite exp_0.
  split; [reflexivity|]. split; [f_equal; lra|].
  rewrite zip_with_map. clear Hvi Hb HK. revert v K Hlb Hlv.
  induction b as [|x b IH]; intros [|y v] K Hlb Hlv; simpl in *;
    try reflexivity; try (subst K; discriminate).
  f_equal; [f_equal; lra|].
  apply (IH v (length b)); [reflexivity | lia].
Qed.

Lemma masked_key_after_finite_is_ignored_one_feature :
  let st := Cpu.mkRow [Fin 3] (Fin 1) (Fin 2) [] in
  exists st',
    Cpu.fold_key 1 NInf [Fin 5] st = Some st' /\
    Cpu.m_prime st' = Fin 2 /\ Cpu.s_prime st' = Fin 1 /\
    Cpu.buf st' = map Fin [3].
Proof.
  intros st.
  apply (masked_key_after_finite_is_ignored 1 [Fin 5] st 2 1 [3] [5]);
    reflexivity.
Defined.

(** X23. The log-sum-exp rows of the batches do not overlap:
    [advance_batches] moves a non-null [logsumexp_ptr] by
    [batch_id * lse_dim], and every element a thread of batch [z] writes
    lies in [z * lse_dim, (z + 1) * lse_dim), inside a buffer of
    [B * lse_dim] elements and apart from the elements of every other
    batch.  ([kQueriesPerBlock] a positive multiple of 32, [ceil_div] the
    quotient rounded up, no 32-bit overflow.) *)
Theorem logsumexp_rows_of_batches_are_disjoint
        (kQueriesPerBlock : nat) (ceil_div : Z -> Z -> Z) (B : nat)
        (p p' : Batched.Pointers) (m_prime s_prime : Z -> scalar)
        (z : nat) (y t idx : Z) (x : scalar) :
  (forall a b, (0 <= a)%Z -> (0 < b)%Z ->
     ceil_div a b = ((a + b - 1) / b)%Z) ->
  (kQueriesPerBlock mod 32 = 0)%nat -> (1 <= kQueriesPerBlock)%nat ->
  let M := Z.of_nat (Tiled.num_queries (Batched.inputs p)) in
  let grid_y :=
    snd (fst (Launch.getBlocksGrid kQueriesPerBlock ceil_div M
                                   (Z.of_nat B))) in
  (M + Z.of_nat kQueriesPerBlock < 2147483648)%Z ->
  (Z.of_nat B * (M + 32) < 2147483648)%Z ->
  (z < B)%nat -> (0 <= y < grid_y)%Z -> (0 <= t)%Z ->
  Batched.logsumexp_ptr p = Some 0%Z ->
  Batched.advance_batches ceil_div p (Z.of_nat z) = Some p' ->
  Launch.logsumexp_write kQueriesPerBlock M m_prime s_prime y t =
    Some (idx, x) ->
  exists l,
    Batched.logsumexp_ptr p' = Some l /\
    (Z.of_nat z * Launch.lse_dim ceil_div M <= l + idx
       < (Z.of_nat z + 1) * Launch.lse_dim ceil_div M)%Z /\
    (l + idx < Z.of_nat B * Launch.lse_dim ceil_div M)%Z.
Proof.
  intros Hceil Hq32 Hq1 M grid_y Hmax HB Hz Hy Ht Hnull Hadv Hw.
  set (num_queries := Tiled.num_queries (Batched.inputs p)) in *.
  pose proof (logsumexp_write_in_grid kQueriesPerBlock ceil_div num_queries
                m_prime s_prime Hceil Hq32 Hq1 Hmax y t) as Hspec.
  pose proof (grid_y_spec kQueriesPerBlock ceil_div num_queries
                Hceil Hq32 Hq1 Hmax y) as Hg.
  destruct (lse_spec kQueriesPerBlock ceil_div num_queries Hceil Hq32 Hq1 Hmax)
    as (l32 & El & Hl).
  destruct (kQ_multiple kQueriesPerBlock ceil_div num_queries Hq32 Hq1)
    as (a & Ha & Ea).
  fold M in Hspec, Hg, El, Hl.
  assert (Hy' : (0 <= y < snd (fst (Launch.getBlocksGrid kQueriesPerBlock
                                      ceil_div M 1)))%Z) by exact Hy.
  rewrite (Hspec Hy' Ht) in Hw. apply Hg in Hy'.
  set (L := Launch.lse_dim ceil_div M) in *.
  assert (Hidx : (0 <= idx < L)%Z).
  { destruct (Z.ltb_spec t (Z.of_nat kQueriesPerBlock)); [|discriminate].
    destruct (Z.ltb_spec (y * Z.of_nat kQueriesPerBlock + t) M).
    - injection Hw as <- _. nia.
    - destruct (Z.ltb_spec t 32); [|discriminate].
      injection Hw as <- _.
      assert (y * a < l32)%Z by nia. nia. }
  unfold Batched.advance_batches in Hadv.
  destruct (Batched.advance_ptr _ _); [|discriminate].
  destruct (Batched.advance_ptr _ _); [|discriminate].
  destruct (Batched.advance_ptr _ _); [|discriminate].
  injection Hadv as <-. cbn [Batched.logsumexp_ptr]. rewrite Hnull.
  fold num_queries M L.
  rewrite to_int32_small by nia.
  eexists. split; [reflexivity|].
  assert ((Z.of_nat z + 1) * L <= Z.of_nat B * L)%Z by nia.
  split; nia.
Qed.

Lemma logsumexp_rows_of_batches_are_disjoint_second_batch :
  let ceil_div := fun a b => ((a + b - 1) / b)%Z in
  let p := Batched.mkPointers (Tiled.mkParams [] [] [] 0 0 100 0) 0
                              (Some 0%Z) in
  let p' := Batched.mkPointers (Tiled.mkParams [] [] [] 0 0 100 0) 0
                               (Some 128%Z) in
  let M := Z.of_nat (Tiled.num_queries (Batched.inputs p)) in
  exists l,
    Batched.logsumexp_ptr p' = Some l /\
    (Z.of_nat 1 * Launch.lse_dim ceil_div M <= l + 70
       < (Z.of_nat 1 + 1) * Launch.lse_dim ceil_div M)%Z /\
    (l + 70 < Z.of_nat 2 * Launch.lse_dim ceil_div M)%Z.
Proof.
  intros ceil_div p p' M.
  apply (logsumexp_rows_of_batches_are_disjoint
           64 ceil_div 2 p p' (fun _ => Fin 0) (fun _ => Fin 1) 1 1 6 70
           (sadd (Fin 0) (Launch.slog (Fin 1))));
    try reflexivity; try lia; vm_compute; intuition discriminate.
Defined.

(** X24. The launch bounds fit the warps of a multiprocessor:
    [getWarpsPerSm] is 16 for a half-precision element type on compute
    capability 8.0 and above and 12 otherwise, and [kMinBlocksPerSm]
    blocks of [kNumWarpsPerBlock] warps never need more warps than that;
    the bound is 0 exactly for the blocks that have more warps than a
    multiprocessor is granted. *)
Theorem min_blocks_fit_warps_per_sm
        (kQueriesPerBlock kKeysPerBlock : nat) (scalar_t : ScalarType)
        (kMinComputeCapability : nat) :
  Launch.static_asserts kQueriesPerBlock kKeysPerBlock = true ->
  let warps := Launch.getWarpsPerSm scalar_t kMinComputeCapability in
  let blocks := Launch.kMinBlocksPerSm kQueriesPerBlock kKeysPerBlock
                                       scalar_t kMinComputeCapability in
  let per_block := Launch.kNumWarpsPerBlock kQueriesPerBlock kKeysPerBlock in
  (warps = if ScalarType_eqb scalar_t Float then 12
           else if 80 <=? kMinComputeCapability then 16 else 12)%nat /\
  (2 <= per_block)%nat /\
  (blocks * per_block <= warps)%nat /\
  (blocks = O <-> warps < per_block)%nat.
Proof.
  intros H warps blocks per_block.
  assert (Hp : (2 <= per_block)%nat).
  { destruct (static_asserts_multiples _ _ H) as (a & b & Ha & Hb & Ea & Eb).
    unfold per_block. rewrite Ea, Eb, warps_of_multiples. nia. }
  split; [|split; [exact Hp|split]].
  - unfold warps, Launch.getWarpsPerSm.
    destruct (ScalarType_eqb scalar_t Float),
             (80 <=? kMinComputeCapability)%nat; reflexivity.
  - unfold blocks, Launch.kMinBlocksPerSm. fold warps per_block.
    pose proof (Nat.div_mod_eq warps per_block). nia.
  - unfold blocks, Launch.kMinBlocksPerSm. fold warps per_block. split.
    + intros E. apply Nat.div_small_iff in E; lia.
    + intros E. apply Nat.div_small. exact E.
Qed.

Lemma min_blocks_fit_warps_per_sm_128_by_128 :
  let warps := Launch.getWarpsPerSm Float 80 in
  let blocks := Launch.kMinBlocksPerSm 128 128 Float 80 in
  let per_block := Launch.kNumWarpsPerBlock 128 128 in
  (warps = if ScalarType_eqb Float Float then 12
           else if 80 <=? 80 then 16 else 12)%nat /\
  (2 <= per_block)%nat /\
  (blocks * per_block <= warps)%nat /\
  (blocks = O <-> warps < per_block)%nat.
Proof.
  apply (min_blocks_fit_warps_per_sm 128 128 Float 80).
  reflexivity.
Defined.

(** * Exponents and magnitudes in the scalar kernel *)

Section Magnitudes.

Import Textbook Invariant.





End Magnitudes.



